(** * Image-to-Text: audio codec, playback controller, voice recommendation
      and workflow controller

    A shallow embedding of the TypeScript sources

    - [components/ResultDisplay.tsx]: [decode], [decodeAudioData],
      [createWavBlob], [handlePlayAudio], [playDecodedAudio],
      [handleDownloadAudio], [handleTranslate], the voice catalog and
      the effects on the prompt and on the voice;
    - [services/geminiService.ts]: [recommendVoicesFromPrompt],
      [handleGeminiError] and the requests that rethrow through it;
    - [App.tsx]: the workflow handlers, [handleImageUpload] and
      [renderContent];
    - [types.ts]: [AppState], [ImageInfo], [PromptType].

    JavaScript values are modelled as the code has them: strings are
    sequences of UTF-16 code units, typed arrays are lists of bytes with
    the out-of-range behaviour of each operation written out, numbers
    stored through a [DataView] wrap around at 16 and 32 bits, and the
    arithmetic of [decodeAudioData] is IEEE 754 (binary64 for [number],
    binary32 for the [Float32Array] store). *)

From Stdlib Require Import ZArith NArith QArith Qround Lia Bool.
From Stdlib Require Import Strings.Byte Strings.Ascii Strings.String.
From Stdlib Require Import Floats.SpecFloat.
From stdpp Require Import base tactics option list numbers relations gmap.

Local Open Scope Z_scope.

(** ** JavaScript numbers stored as unsigned integers *)

Module JsNumber.

(** [ToIntegerOrInfinity] on a finite number: truncation towards zero. *)
Definition truncate (q : Q) : Z := Z.quot (Qnum q) (Z.pos (Qden q)).

(** [ToUint16] and [ToUint32] of ECMA-262: truncate, then reduce modulo
    [2^16] and [2^32]. *)
Definition ToUint16 (q : Q) : Z := truncate q mod 2 ^ 16.
Definition ToUint32 (q : Q) : Z := truncate q mod 2 ^ 32.

Definition of_nat (n : nat) : Q := inject_Z (Z.of_nat n).

End JsNumber.

(** ** JavaScript strings: sequences of UTF-16 code units *)

Module JsString.

Abbreviation jsstring := (list N).

Local Open Scope N_scope.

(** Literals are written as Rocq strings (UTF-8) and decoded to code
    units, with surrogate pairs for the supplementary planes. *)
Fixpoint utf16_of_utf8 (bs : list N) : jsstring :=
  match bs with
  | [] => []
  | b0 :: r0 =>
    if b0 <? 0x80 then b0 :: utf16_of_utf8 r0 else
    match r0 with
    | [] => []
    | b1 :: r1 =>
      if b0 <? 0xE0 then
        N.lor (N.shiftl (N.land b0 0x1F) 6) (N.land b1 0x3F)
          :: utf16_of_utf8 r1
      else
      match r1 with
      | [] => []
      | b2 :: r2 =>
        if b0 <? 0xF0 then
          N.lor (N.shiftl (N.land b0 0x0F) 12)
            (N.lor (N.shiftl (N.land b1 0x3F) 6) (N.land b2 0x3F))
            :: utf16_of_utf8 r2
        else
        match r2 with
        | [] => []
        | b3 :: r3 =>
          let cp :=
            N.lor (N.shiftl (N.land b0 0x07) 18)
              (N.lor (N.shiftl (N.land b1 0x3F) 12)
                 (N.lor (N.shiftl (N.land b2 0x3F) 6) (N.land b3 0x3F))) in
          let c := cp - 0x10000 in
          (0xD800 + N.shiftr c 10) :: (0xDC00 + N.land c 0x3FF)
            :: utf16_of_utf8 r3
        end
      end
    end
  end.

Definition js (s : string) : jsstring :=
  utf16_of_utf8 (Byte.to_N <$> list_byte_of_string s).

(** [WhiteSpace] and [LineTerminator] code units, the ones
    [String.prototype.trim] removes. *)
Definition isWhiteSpace (c : N) : bool :=
  (c =? 0x09) || (c =? 0x0A) || (c =? 0x0B) || (c =? 0x0C) || (c =? 0x0D)
  || (c =? 0x20) || (c =? 0xA0) || (c =? 0x1680)
  || ((0x2000 <=? c) && (c <=? 0x200A))
  || (c =? 0x2028) || (c =? 0x2029) || (c =? 0x202F) || (c =? 0x205F)
  || (c =? 0x3000) || (c =? 0xFEFF).

Fixpoint trimStart (s : jsstring) : jsstring :=
  match s with
  | c :: s' => if isWhiteSpace c then trimStart s' else s
  | [] => []
  end.

Definition trimEnd (s : jsstring) : jsstring :=
  reverse (trimStart (reverse s)).

Definition trim (s : jsstring) : jsstring := trimEnd (trimStart s).

(** [s.split(sep)] for a separator of one code unit. *)
Fixpoint split (sep : N) (s : jsstring) : list jsstring :=
  match s with
  | [] => [[]]
  | c :: s' =>
    if c =? sep then [] :: split sep s'
    else match split sep s' with
         | w :: ws => (c :: w) :: ws
         | [] => [[c]]
         end
  end.

Fixpoint startsWith (prefix s : jsstring) : bool :=
  match prefix, s with
  | [], _ => true
  | p :: prefix', c :: s' => (p =? c) && startsWith prefix' s'
  | _ :: _, [] => false
  end.

(** [s.includes(needle)]; also the test of a regular expression that is
    an alternation of literals. *)
Fixpoint includes (needle s : jsstring) : bool :=
  startsWith needle s ||
  match s with
  | [] => false
  | _ :: s' => includes needle s'
  end.

Definition comma : N := 0x2C.

End JsString.

(** ** Bytes, [ArrayBuffer] and [DataView] *)

Module Buffer.

Definition byte_of_Z (z : Z) : byte :=
  default x00 (Byte.of_N (Z.to_N (z mod 256))).

Definition Z_of_byte (b : byte) : Z := Z.of_N (Byte.to_N b).

(** The [k]-th byte (from the least significant one) of [v]. *)
Definition nth_byte (k : nat) (v : Z) : byte :=
  byte_of_Z (Z.shiftr v (8 * Z.of_nat k)).

Definition bytes_le (width : nat) (v : Z) : list byte :=
  (λ k, nth_byte k v) <$> seq 0 width.

Definition bytes_be (width : nat) (v : Z) : list byte :=
  reverse (bytes_le width v).

(** Unsigned value of a little-endian byte sequence. *)
Fixpoint le_value (bs : list byte) : Z :=
  match bs with
  | [] => 0
  | b :: bs => Z_of_byte b + 256 * le_value bs
  end.

Abbreviation ArrayBuffer := (list byte).

(** [new ArrayBuffer(n)]: [n] zero bytes. *)
Definition new_ArrayBuffer (n : nat) : ArrayBuffer := replicate n x00.

(** A store of [bs] at [byteOffset]; a [RangeError] ([None]) when the
    bytes do not fit in the buffer. *)
Definition store (byteOffset : nat) (bs : list byte) (buf : ArrayBuffer)
    : option ArrayBuffer :=
  if (byteOffset + length bs <=? length buf)%nat
  then Some (list_inserts byteOffset bs buf)
  else None.

Definition load (byteOffset width : nat) (buf : ArrayBuffer)
    : option (list byte) :=
  if (byteOffset + width <=? length buf)%nat
  then Some (take width (drop byteOffset buf))
  else None.

(** [DataView.prototype.setUint16/setUint32 (byteOffset, value,
    littleEndian)]. *)
Definition setUint (width : nat) (conv : Q → Z)
    (byteOffset : nat) (value : Q) (littleEndian : bool)
    (view : ArrayBuffer) : option ArrayBuffer :=
  store byteOffset
    ((if littleEndian then bytes_le else bytes_be) width (conv value)) view.

Definition setUint16 := setUint 2 JsNumber.ToUint16.
Definition setUint32 := setUint 4 JsNumber.ToUint32.

(** [DataView.prototype.getUint32 (byteOffset, littleEndian)]. *)
Definition getUint32 (byteOffset : nat) (littleEndian : bool)
    (view : ArrayBuffer) : option Z :=
  bs ← load byteOffset 4 view;
  Some (le_value (if littleEndian then bs else reverse bs)).

(** [DataView.prototype.getUint16 (byteOffset, littleEndian)]. *)
Definition getUint16 (byteOffset : nat) (littleEndian : bool)
    (view : ArrayBuffer) : option Z :=
  bs ← load byteOffset 2 view;
  Some (le_value (if littleEndian then bs else reverse bs)).

(** [Uint8Array.prototype.set (source, offset)]. *)
Definition Uint8Array_set (source : list byte) (offset : nat)
    (target : ArrayBuffer) : option ArrayBuffer :=
  store offset source target.

End Buffer.

(** ** WAV container ([createWavBlob]) *)

Module Wav.
Import Buffer.

Record Blob := { blob_bytes : list byte; blob_type : string }.

(** [createWavBlob], for whole numbers. The products [numChannels *
    (bitsPerSample / 8)] and [sampleRate * blockAlign] are taken over the
    rationals: they are the binary64 products of the code as long as
    these are exact, that is while the arguments, [numChannels *
    bitsPerSample] and [sampleRate * numChannels * bitsPerSample] are at
    most [2^53] in absolute value. *)
Definition createWavBlob (pcmData : list byte)
    (numChannels sampleRate bitsPerSample : Z) : option Blob :=
  let dataSize := length pcmData in
  let buffer := new_ArrayBuffer (44 + dataSize) in
  let view := buffer in
  (* RIFF header *)
  view ← setUint32 0 (inject_Z 0x52494646) false view;
  view ← setUint32 4 (36 + JsNumber.of_nat dataSize)%Q true view;
  view ← setUint32 8 (inject_Z 0x57415645) false view;
  (* fmt chunk *)
  view ← setUint32 12 (inject_Z 0x666d7420) false view;
  view ← setUint32 16 (inject_Z 16) true view;
  view ← setUint16 20 (inject_Z 1) true view;
  view ← setUint16 22 (inject_Z numChannels) true view;
  view ← setUint32 24 (inject_Z sampleRate) true view;
  let blockAlign := (inject_Z numChannels * (inject_Z bitsPerSample / 8))%Q in
  view ← setUint32 28 (inject_Z sampleRate * blockAlign)%Q true view;
  view ← setUint16 32 blockAlign true view;
  view ← setUint16 34 (inject_Z bitsPerSample) true view;
  (* data chunk *)
  view ← setUint32 36 (inject_Z 0x64617461) false view;
  view ← setUint32 40 (JsNumber.of_nat dataSize) true view;
  buffer ← Uint8Array_set pcmData 44 view;
  Some {| blob_bytes := buffer; blob_type := "audio/wav" |}.

(** The header as the WAV format lays it out: the RIFF chunk descriptor,
    the [fmt ] sub-chunk of a PCM stream and the head of the [data]
    sub-chunk, 44 bytes in all; [createWavBlob] is compared with it. *)
Definition canonicalHeader (dataSize : nat)
    (numChannels sampleRate bitsPerSample : Z) : list byte :=
  let blockAlign := (inject_Z numChannels * (inject_Z bitsPerSample / 8))%Q in
  bytes_be 4 0x52494646                                         (* "RIFF" *)
  ++ bytes_le 4 (JsNumber.ToUint32 (36 + JsNumber.of_nat dataSize)%Q)
  ++ bytes_be 4 0x57415645                                      (* "WAVE" *)
  ++ bytes_be 4 0x666d7420                                      (* "fmt " *)
  ++ bytes_le 4 16
  ++ bytes_le 2 1
  ++ bytes_le 2 (JsNumber.ToUint16 (inject_Z numChannels))
  ++ bytes_le 4 (JsNumber.ToUint32 (inject_Z sampleRate))
  ++ bytes_le 4 (JsNumber.ToUint32 (inject_Z sampleRate * blockAlign)%Q)
  ++ bytes_le 2 (JsNumber.ToUint16 blockAlign)
  ++ bytes_le 2 (JsNumber.ToUint16 (inject_Z bitsPerSample))
  ++ bytes_be 4 0x64617461                                      (* "data" *)
  ++ bytes_le 4 (JsNumber.ToUint32 (JsNumber.of_nat dataSize)).

(** The RIFF [ChunkSize] field: bytes 4..7, little-endian. *)
Definition chunkSize (b : Blob) : option Z := getUint32 4 true (blob_bytes b).

End Wav.

(** ** Thrown values *)

Module Exn.
Import JsString.

(** Names of the platform exceptions the modelled code can meet. *)
Inductive ErrorName :=
  | RangeError | TypeError | NotSupportedError | IndexSizeError
  | InvalidCharacterError | InvalidStateError.

(** A value that reaches a [catch]: an [Error] instance with its
    message, or a value that is not an [Error]; [toStr] is [String(err)],
    absent when that conversion itself throws. *)
Inductive Thrown :=
  | ErrorObject (message : jsstring)
  | NonError (toStr : option jsstring).

(** [error instanceof Error ? error.message : fallback]. *)
Definition messageOr (fallback : jsstring) (error : Thrown) : jsstring :=
  match error with
  | ErrorObject message => message
  | NonError _ => fallback
  end.

(** [String(err)], as a template literal computes it. *)
Definition rendering (err : Thrown) : option jsstring :=
  match err with
  | ErrorObject message => Some message
  | NonError toStr => toStr
  end.

(** The outcome of an awaited promise. *)
Inductive Outcome (A : Type) :=
  | Resolved (value : A)
  | Rejected (reason : Thrown).
Arguments Resolved {A} value.
Arguments Rejected {A} reason.

End Exn.

(** ** Audio codec: [decode] and [decodeAudioData] *)

Module Codec.
Import JsString Buffer Exn.

(** *** [atob]: forgiving-base64 decode *)

Definition isAsciiWhitespace (c : N) : bool :=
  ((c =? 0x09) || (c =? 0x0A) || (c =? 0x0C) || (c =? 0x0D) || (c =? 0x20))%N.

Definition sextet (c : N) : option N :=
  (if (0x41 <=? c) && (c <=? 0x5A) then Some (c - 0x41)
   else if (0x61 <=? c) && (c <=? 0x7A) then Some (c - 0x61 + 26)
   else if (0x30 <=? c) && (c <=? 0x39) then Some (c - 0x30 + 52)
   else if c =? 0x2B then Some 62
   else if c =? 0x2F then Some 63
   else None)%N.

Definition equalsSign : N := 0x3D.

(** Removes one or two trailing [=] of a string whose length is a
    multiple of four. *)
Definition stripPadding (s : jsstring) : jsstring :=
  if (length s mod 4 =? 0)%nat then
    match reverse s with
    | c1 :: c2 :: r =>
      if (c1 =? equalsSign)%N then
        if (c2 =? equalsSign)%N then reverse r else reverse (c2 :: r)
      else s
    | _ => s
    end
  else s.

Fixpoint octets (ss : list N) : list N :=
  match ss with
  | a :: b :: c :: d :: r =>
    N.lor (N.shiftl a 2) (N.shiftr b 4)
    :: N.lor (N.shiftl (N.land b 0xF) 4) (N.shiftr c 2)
    :: N.lor (N.shiftl (N.land c 0x3) 6) d
    :: octets r
  | [a; b; c] =>
    [N.lor (N.shiftl a 2) (N.shiftr b 4);
     N.lor (N.shiftl (N.land b 0xF) 4) (N.shiftr c 2)]
  | [a; b] => [N.lor (N.shiftl a 2) (N.shiftr b 4)]
  | _ => []
  end.

(** The binary string [atob] returns, or [None] for the
    [InvalidCharacterError] it throws. *)
Definition atob (data : jsstring) : option jsstring :=
  let data := filter (λ c, isAsciiWhitespace c = false) data in
  let data := stripPadding data in
  if (length data mod 4 =? 1)%nat then None
  else octets <$> mapM sextet data.

(** [decode]: one byte per code unit of the binary string. *)
Definition decode (base64 : jsstring) : option (list byte) :=
  match atob base64 with
  | Some binaryString => Some ((λ c, byte_of_Z (Z.of_N c)) <$> binaryString)
  | None => None
  end.

(** *** [Int16Array] over a buffer *)

Definition ToInt16 (v : Z) : Z :=
  let u := v mod 2 ^ 16 in if u <? 2 ^ 15 then u else u - 2 ^ 16.

Fixpoint int16_elements (bs : list byte) : list Z :=
  match bs with
  | lo :: hi :: r => ToInt16 (le_value [lo; hi]) :: int16_elements r
  | _ => []
  end.

(** [new Int16Array(buffer)]: a [RangeError] unless the byte length of
    the buffer is a multiple of 2; elements are read in the byte order of
    the platform, taken to be little-endian. *)
Definition Int16Array (buffer : list byte) : ErrorName + list Z :=
  if (length buffer mod 2 =? 0)%nat then inr (int16_elements buffer)
  else inl RangeError.

(** *** IEEE 754 arithmetic *)

Definition float64_of_Z (z : Z) : spec_float := binary_normalize 53 1024 z 0 false.
Definition float64_div : spec_float → spec_float → spec_float := SFdiv 53 1024.

(** The rounding of a [number] stored into a [Float32Array]. *)
Definition fround (x : spec_float) : spec_float :=
  match x with
  | S754_finite s m e => binary_normalize 24 128 (cond_Zopp s (Z.pos m)) e s
  | _ => x
  end.

(** The rational a finite float denotes. *)
Definition float_value (x : spec_float) : option Q :=
  match x with
  | S754_zero _ => Some 0%Q
  | S754_finite s m e =>
    Some (inject_Z (cond_Zopp s (Z.pos m)) * Qpower 2 e)%Q
  | _ => None
  end.

(** [dataInt16[k] / 32768.0] as stored in the channel; an index outside
    the array reads [undefined], which divides to [NaN]. *)
Definition normalized (element : option Z) : spec_float :=
  match element with
  | Some s => fround (float64_div (float64_of_Z s) (float64_of_Z 32768))
  | None => S754_nan
  end.

(** *** [AudioBuffer] *)

(** The limits of the audio implementation behind an [AudioContext]. *)
Record AudioContext := {
  maxNumberOfChannels : N;
  minSampleRate : N;
  maxSampleRate : N;
}.

Record AudioBuffer := {
  numberOfChannels : N;
  frames : N;
  sampleRate : N;
  channels : list (list spec_float);
}.

(** WebIDL conversion of a finite number to [unsigned long]. *)
Definition unsigned_long (q : Q) : N := Z.to_N (JsNumber.ToUint32 q).

(** [ctx.createBuffer(numberOfChannels, length, sampleRate)]: a
    [NotSupportedError] when the channel count or the length is zero, or
    the channel count or the rate is outside what the context supports.
    The rate is a WebIDL [float]: a whole number up to [2^24] is
    converted to itself, which is the case modelled; a larger one is
    rounded to binary32 first, and one that rounds to infinity is a
    [TypeError]. *)
Definition createBuffer (ctx : AudioContext)
    (numberOfChannels : N) (length : Q) (sampleRate : N)
    : ErrorName + AudioBuffer :=
  let nc := (numberOfChannels mod 2 ^ 32)%N in
  let len := unsigned_long length in
  if ((nc =? 0) || (maxNumberOfChannels ctx <? nc) || (len =? 0)
      || (sampleRate <? minSampleRate ctx)
      || (maxSampleRate ctx <? sampleRate))%N
  then inl NotSupportedError
  else inr {| numberOfChannels := nc; frames := len; sampleRate := sampleRate;
              channels := replicate (N.to_nat nc)
                            (replicate (N.to_nat len) (S754_zero false)) |}.

(** The inner loop, [for (i = 0; i < frameCount; i++) channelData[i] =
    dataInt16[i * numChannels + channel] / 32768.0]; a store outside the
    channel is ignored. *)
Definition fillChannel (dataInt16 : list Z) (numChannels channel : nat)
    (iterations : nat) (channelData : list spec_float) : list spec_float :=
  foldl (λ channelData i,
           <[i := normalized (dataInt16 !! (i * numChannels + channel)%nat)]>
             channelData)
        channelData (seq 0 iterations).

(** One round of the outer loop; [getChannelData] of a channel the buffer
    does not have is an [IndexSizeError], which ends the loop. *)
Definition fillNextChannel (dataInt16 : list Z) (numChannels iterations : nat)
    (acc : ErrorName + list (list spec_float)) (channel : nat)
    : ErrorName + list (list spec_float) :=
  match acc with
  | inl e => inl e
  | inr channels =>
    match channels !! channel with
    | None => inl IndexSizeError
    | Some channelData =>
      inr (<[channel :=
               fillChannel dataInt16 numChannels channel iterations
                 channelData]> channels)
    end
  end.

(** The outer loop, [for (channel = 0; channel < numChannels; channel++)]. *)
Definition fillChannels (dataInt16 : list Z) (numChannels iterations : nat)
    (channels : list (list spec_float))
    : ErrorName + list (list spec_float) :=
  foldl (fillNextChannel dataInt16 numChannels iterations)
        (inr channels) (seq 0 numChannels).

Definition decodeAudioData (data : list byte) (ctx : AudioContext)
    (sampleRate : N) (numChannels : N) : ErrorName + AudioBuffer :=
  match Int16Array data with
  | inl e => inl e
  | inr dataInt16 =>
    (* [frameCount] is infinite or NaN for zero channels; [createBuffer]
       rejects a channel count of zero whatever the length is. *)
    let frameCount : Q :=
      (JsNumber.of_nat (length dataInt16) / inject_Z (Z.of_N numChannels))%Q in
    match createBuffer ctx numChannels frameCount sampleRate with
    | inl e => inl e
    | inr buffer =>
      (* the number of [i = 0, 1, ...] with [i < frameCount] *)
      let iterations := Z.to_nat (Qceiling frameCount) in
      match fillChannels dataInt16 (N.to_nat numChannels) iterations
              (channels buffer) with
      | inl e => inl e
      | inr channels' =>
        inr {| numberOfChannels := numberOfChannels buffer;
               frames := frames buffer;
               sampleRate := Codec.sampleRate buffer;
               channels := channels' |}
      end
    end
  end.

(** The limits every implementation supports at least: 32 channels and
    sample rates from 8000 Hz to 96000 Hz. *)
Definition baselineContext : AudioContext :=
  {| maxNumberOfChannels := 32; minSampleRate := 8000;
     maxSampleRate := 96000 |}.

(** *** Deciding the normalization of one sample *)

(** [x] denotes [s / 32768], which lies in [[-1, 1)] and is [-1] only
    for [s = -32768]. *)
Definition denotesSample (s : Z) (x : spec_float) : bool :=
  match float_value x with
  | Some q =>
    Qeq_bool q (inject_Z s / inject_Z 32768)
    && Qle_bool (-1) q && negb (Qle_bool 1 q)
    && (if s =? -32768 then Qeq_bool q (-1) else negb (Qle_bool q (-1)))
  | None => false
  end.

(** A test that does not divide: the binary64 number of [s] is zero, or
    has a mantissa of 53 bits and an exponent from -52 to -37, for which
    the division by 32768 lowers the exponent by 15 and is exact; the
    number so obtained, rounded to binary32, denotes the sample. *)
Definition normalizedExactly (s : Z) : bool :=
  match float64_of_Z s with
  | S754_zero sx => denotesSample s (fround (S754_zero sx))
  | S754_finite sx mx ex =>
    (digits2_pos mx =? 53)%positive && (-52 <=? ex) && (ex <=? -37)
    && denotesSample s (fround (S754_finite sx mx (ex - 15)))
  | _ => false
  end.

(** [f] holds on the [2 ^ bits] integers from [base] on. *)
Fixpoint holdsFrom (bits : nat) (base : Z) (f : Z → bool) : bool :=
  match bits with
  | O => f base
  | S bits' =>
    holdsFrom bits' base f && holdsFrom bits' (base + 2 ^ Z.of_nat bits') f
  end.

End Codec.

(** ** Voice recommendation ([recommendVoicesFromPrompt]) *)

Module Voice.
Import JsString Exn.

(** [PrebuiltVoice]: the five names of the catalog. *)
Definition validVoices : list jsstring :=
  [js "Kore"; js "Puck"; js "Zephyr"; js "Charon"; js "Fenrir"].

(** [/여성|여자/.test(audioPrompt)] *)
Definition mentionsFemale (audioPrompt : jsstring) : bool :=
  includes (js "여성") audioPrompt || includes (js "여자") audioPrompt.

(** The default both the empty-recommendation branch and the [catch]
    block return. *)
Definition fallbackVoices (audioPrompt : jsstring) : list jsstring :=
  if mentionsFemale audioPrompt then [js "Kore"]
  else [js "Puck"; js "Zephyr"; js "Charon"].

(** [response] is the outcome of [ai.models.generateContent]; its [text]
    may be [undefined], on which [.trim()] throws into the [catch]. *)
Definition recommendVoicesFromPrompt (audioPrompt : jsstring)
    (response : Outcome (option jsstring)) : list jsstring :=
  match response with
  | Resolved (Some text) =>
    let recommendationString := trim text in
    let recommendedVoices :=
      filter (λ v, v ∈ validVoices)
             (trim <$> split comma recommendationString) in
    if (0 <? length recommendedVoices)%nat then recommendedVoices
    else fallbackVoices audioPrompt
  | Resolved None | Rejected _ => fallbackVoices audioPrompt
  end.

End Voice.

(** ** Workflow controller ([App]) *)

Module App.
Import JsString Exn.

Inductive AppState :=
  | IDLE | GENERATING_IMAGE | SELECTING_IMAGE | ANALYZING_IMAGE
  | SHOWING_RESULT | ERROR.

Record ImageInfo := { base64 : jsstring; mimeType : jsstring }.

Inductive PromptType := VOICE | SOUNDSCAPE.

#[global] Instance AppState_eq_dec : EqDecision AppState.
Proof. solve_decision. Defined.
#[global] Instance PromptType_eq_dec : EqDecision PromptType.
Proof. solve_decision. Defined.
#[global] Instance ImageInfo_eq_dec : EqDecision ImageInfo.
Proof. solve_decision. Defined.

(** The state of the [App] component, one field per [useState]. *)
Record Session := {
  appState : AppState;
  generatedImages : list ImageInfo;
  selectedImage : option ImageInfo;
  audioPrompt : jsstring;
  error : option jsstring;
  loadingMessage : jsstring;
  promptType : PromptType;
  isSwitchingPrompt : bool;
  lastPrompt : jsstring;
}.

Definition initialSession : Session := {|
  appState := IDLE;
  generatedImages := [];
  selectedImage := None;
  audioPrompt := [];
  error := None;
  loadingMessage := [];
  promptType := VOICE;
  isSwitchingPrompt := false;
  lastPrompt := [];
|}.

(** The state setters. *)
Definition setAppState v (s : Session) : Session :=
  {| appState := v; generatedImages := generatedImages s;
     selectedImage := selectedImage s; audioPrompt := audioPrompt s;
     error := error s; loadingMessage := loadingMessage s;
     promptType := promptType s; isSwitchingPrompt := isSwitchingPrompt s;
     lastPrompt := lastPrompt s |}.
Definition setGeneratedImages v (s : Session) : Session :=
  {| appState := appState s; generatedImages := v;
     selectedImage := selectedImage s; audioPrompt := audioPrompt s;
     error := error s; loadingMessage := loadingMessage s;
     promptType := promptType s; isSwitchingPrompt := isSwitchingPrompt s;
     lastPrompt := lastPrompt s |}.
Definition setSelectedImage v (s : Session) : Session :=
  {| appState := appState s; generatedImages := generatedImages s;
     selectedImage := v; audioPrompt := audioPrompt s;
     error := error s; loadingMessage := loadingMessage s;
     promptType := promptType s; isSwitchingPrompt := isSwitchingPrompt s;
     lastPrompt := lastPrompt s |}.
Definition setAudioPrompt v (s : Session) : Session :=
  {| appState := appState s; generatedImages := generatedImages s;
     selectedImage := selectedImage s; audioPrompt := v;
     error := error s; loadingMessage := loadingMessage s;
     promptType := promptType s; isSwitchingPrompt := isSwitchingPrompt s;
     lastPrompt := lastPrompt s |}.
Definition setError v (s : Session) : Session :=
  {| appState := appState s; generatedImages := generatedImages s;
     selectedImage := selectedImage s; audioPrompt := audioPrompt s;
     error := v; loadingMessage := loadingMessage s;
     promptType := promptType s; isSwitchingPrompt := isSwitchingPrompt s;
     lastPrompt := lastPrompt s |}.
Definition setLoadingMessage v (s : Session) : Session :=
  {| appState := appState s; generatedImages := generatedImages s;
     selectedImage := selectedImage s; audioPrompt := audioPrompt s;
     error := error s; loadingMessage := v;
     promptType := promptType s; isSwitchingPrompt := isSwitchingPrompt s;
     lastPrompt := lastPrompt s |}.
Definition setPromptType v (s : Session) : Session :=
  {| appState := appState s; generatedImages := generatedImages s;
     selectedImage := selectedImage s; audioPrompt := audioPrompt s;
     error := error s; loadingMessage := loadingMessage s;
     promptType := v; isSwitchingPrompt := isSwitchingPrompt s;
     lastPrompt := lastPrompt s |}.
Definition setIsSwitchingPrompt v (s : Session) : Session :=
  {| appState := appState s; generatedImages := generatedImages s;
     selectedImage := selectedImage s; audioPrompt := audioPrompt s;
     error := error s; loadingMessage := loadingMessage s;
     promptType := promptType s; isSwitchingPrompt := v;
     lastPrompt := lastPrompt s |}.
Definition setLastPrompt v (s : Session) : Session :=
  {| appState := appState s; generatedImages := generatedImages s;
     selectedImage := selectedImage s; audioPrompt := audioPrompt s;
     error := error s; loadingMessage := loadingMessage s;
     promptType := promptType s; isSwitchingPrompt := isSwitchingPrompt s;
     lastPrompt := v |}.

(** Statements of a handler are applied from left to right. *)
Notation "s '|>' f" := (f s) (at level 45, left associativity, only parsing).

(** The calls to the generation service a handler awaits, indexed by the
    type of the value they resolve with. *)
Inductive Request : Type → Type :=
  | generateImage (prompt : jsstring) : Request (list ImageInfo)
  | generateVoicePromptFromImage (base64Image mimeType : jsstring)
      : Request jsstring
  | generateSoundscapePromptFromImage (base64Image mimeType : jsstring)
      : Request jsstring.

(** A run of an [async] handler from the state [s] it is called in: it
    either returns at once, or applies its first statements and suspends
    on one service call; [resume] is the rest of the handler, applied to
    the state the component has when the call settles. The values a
    handler reads are those of the render it was created in, here [s]. *)
Inductive Run (A : Type) :=
  | Done (s' : Session)
  | Await (s' : Session) (request : Request A)
          (resume : Outcome A → Session → Session).
Arguments Done {A} s'.
Arguments Await {A} s' request resume.

(** The state right after the call returned to the event loop. *)
Definition suspended {A} (r : Run A) : Session :=
  match r with Done s' | Await s' _ _ => s' end.

(** The service call issued, if any. *)
Definition issued {A} (r : Run A) : option (Request A) :=
  match r with Done _ => None | Await _ request _ => Some request end.

(** The state once the awaited call has settled with [outcome], nothing
    else having run in between. *)
Definition settled {A} (r : Run A) (outcome : Outcome A) : Session :=
  match r with
  | Done s' => s'
  | Await s' _ resume => resume outcome s'
  end.

(** The state once the awaited call has settled with [outcome] when other
    handlers have run in between and the component is in state [s]; a run
    that returned at once has nothing left to do. *)
Definition settledAt {A} (r : Run A) (outcome : Outcome A) (s : Session)
    : Session :=
  match r with
  | Done _ => s
  | Await _ _ resume => resume outcome s
  end.

Definition handleError (message : jsstring) (s : Session) : Session :=
  s |> setError (Some message) |> setAppState ERROR.

Definition handleGenerateImage (prompt : jsstring) (s : Session)
    : Run (list ImageInfo) :=
  match prompt with
  | [] => Done (s |> handleError (js "이미지 생성을 위한 설명을 입력해주세요."))
  | _ :: _ =>
    Await
      (s |> setLastPrompt prompt
         |> setAppState GENERATING_IMAGE
         |> setLoadingMessage (js "AI가 멋진 이미지를 만들고 있어요...")
         |> setError None
         |> setGeneratedImages []
         |> setSelectedImage None)
      (generateImage prompt)
      (λ outcome s,
         match outcome with
         | Resolved images =>
           s |> setGeneratedImages images |> setAppState SELECTING_IMAGE
         | Rejected err =>
           s |> handleError (js "이미지 생성 중 오류가 발생했습니다.")
         end)
  end.

Definition handleRegenerateImages (s : Session) : Run (list ImageInfo) :=
  match lastPrompt s with
  | _ :: _ => handleGenerateImage (lastPrompt s) s
  | [] =>
    Done (s |> handleError (js "재생성할 프롬프트가 없습니다. 다시 시작해주세요."))
  end.

Definition analyzeAndGeneratePrompt (image : ImageInfo) (s : Session)
    : Run jsstring :=
  Await
    (s |> setAppState ANALYZING_IMAGE
       |> setLoadingMessage
            (js "이미지를 분석하여 목소리 프롬프트를 생성 중입니다..."))
    (generateVoicePromptFromImage (base64 image) (mimeType image))
    (λ outcome s,
       match outcome with
       | Resolved newAudioPrompt =>
         s |> setAudioPrompt newAudioPrompt
           |> setPromptType VOICE
           |> setAppState SHOWING_RESULT
       | Rejected err =>
         s |> handleError (js "이미지 분석 중 오류가 발생했습니다.")
       end).

Definition handleImageSelect (image : ImageInfo) (s : Session)
    : Run jsstring :=
  analyzeAndGeneratePrompt image (s |> setSelectedImage (Some image)).

Definition handleSwitchPromptType (newType : PromptType) (s : Session)
    : Run jsstring :=
  match selectedImage s with
  | None => Done s
  | Some selectedImage =>
    if isSwitchingPrompt s || bool_decide (newType = promptType s)
    then Done s
    else
      Await
        (s |> setIsSwitchingPrompt true |> setError None)
        (match newType with
         | VOICE =>
           generateVoicePromptFromImage
             (base64 selectedImage) (mimeType selectedImage)
         | SOUNDSCAPE =>
           generateSoundscapePromptFromImage
             (base64 selectedImage) (mimeType selectedImage)
         end)
        (λ outcome s,
           (match outcome with
            | Resolved newPrompt =>
              s |> setAudioPrompt newPrompt |> setPromptType newType
            | Rejected (ErrorObject message) =>
              s |> setAudioPrompt (js "프롬프트 생성 중 오류 발생: " ++ message)
            | Rejected (NonError (Some str)) =>
              s |> setAudioPrompt (js "프롬프트 생성 중 오류 발생: " ++ str)
            | Rejected (NonError None) =>
              (* [String(err)] throws inside the [catch] block *)
              s
            end)
           |> (* finally *) setIsSwitchingPrompt false)
  end.

Definition handleReset (s : Session) : Session :=
  s |> setAppState IDLE
    |> setSelectedImage None
    |> setGeneratedImages []
    |> setAudioPrompt []
    |> setError None
    |> setLoadingMessage []
    |> setPromptType VOICE
    |> setLastPrompt [].

(** The handlers [renderContent] wires to the screen of each state. *)
Inductive Trigger :=
  | Submit (prompt : jsstring)      (* WelcomeScreen.onGenerateSubmit *)
  | Upload                          (* WelcomeScreen.onImageUpload *)
  | Select (image : ImageInfo)      (* ImageSelectionScreen.onSelectImage *)
  | Regenerate                      (* ImageSelectionScreen.onRegenerate *)
  | SwitchPrompt (newType : PromptType) (* ResultDisplay.onSwitchPrompt *)
  | Reset.                          (* ResultDisplay.onReset, the error button *)

Definition offered (s : Session) (t : Trigger) : bool :=
  match appState s, t with
  | IDLE, (Submit _ | Upload) => true
  | SELECTING_IMAGE, Select image =>
    bool_decide (image ∈ generatedImages s)
  | SELECTING_IMAGE, Regenerate => true
  | SHOWING_RESULT, (SwitchPrompt _ | Reset) =>
    bool_decide (is_Some (selectedImage s))
  | ERROR, Reset => true
  | _, _ => false
  end.

(** [handleImageUpload], up to [reader.readAsDataURL(file)]: the state is
    [IDLE] still while the file is read. *)
Definition handleImageUpload (s : Session) : Session :=
  s |> setError None |> setGeneratedImages [].

(** What the [FileReader] reports: [onload] with its [result] ([null] when
    there is none), or [onerror]. *)
Inductive ReaderEvent :=
  | onload (result : option jsstring)
  | onerror.

(** The two callbacks of the reader, for a file of type [fileType]. The
    image data is [base64String.split(',')[1]]; for a result without a
    comma that is [undefined] and the record built is not an [ImageInfo]:
    no run is given ([None]). A data URL always has a comma. *)
Definition readerSettled (fileType : jsstring) (event : ReaderEvent)
    (s : Session) : option (Run jsstring) :=
  match event with
  | onload None | onload (Some []) =>
    Some (Done (s |> handleError (js "파일을 읽는 데 실패했습니다.")))
  | onload (Some ((_ :: _) as base64String)) =>
    match split comma base64String !! 1%nat with
    | Some base64Data =>
      let imageInfo := {| base64 := base64Data; mimeType := fileType |} in
      Some (analyzeAndGeneratePrompt imageInfo
              (s |> setSelectedImage (Some imageInfo)))
    | None => None
    end
  | onerror =>
    Some (Done (s |> handleError (js "파일 읽기 오류가 발생했습니다.")))
  end.

(** What [renderContent] shows. *)
Inductive Screen :=
  | WelcomeScreen
  | Loading (loadingMessage : jsstring) (image : option ImageInfo)
  | ImageSelectionScreen (images : list ImageInfo)
  | ResultDisplay (imageInfo : ImageInfo) (audioPrompt : jsstring)
      (promptType : PromptType) (isSwitching : bool)
  | ErrorScreen (error : option jsstring)
  | Blank.

(** [renderContent]: the screen, and the session after the render; a
    result without a selected image is not shown, [handleReset] is called
    instead. *)
Definition renderContent (s : Session) : Screen * Session :=
  match appState s with
  | IDLE => (WelcomeScreen, s)
  | GENERATING_IMAGE => (Loading (loadingMessage s) None, s)
  | SELECTING_IMAGE => (ImageSelectionScreen (generatedImages s), s)
  | ANALYZING_IMAGE => (Loading (loadingMessage s) (selectedImage s), s)
  | SHOWING_RESULT =>
    match selectedImage s with
    | Some selectedImage =>
      (ResultDisplay selectedImage (audioPrompt s) (promptType s)
         (isSwitchingPrompt s), s)
    | None => (Blank, handleReset s)
    end
  | ERROR => (ErrorScreen (error s), s)
  end.

(** *** The component among the events of the browser

    Work a handler has started and that is still to call back: a file
    the [FileReader] is reading, or a service call awaited, kept with the
    rest of the handler that awaits it. Nothing cancels such work: a
    reader is never aborted and a call is never discarded, whatever the
    state of the workflow when it calls back. *)
Inductive Pending :=
  | Reading (fileType : jsstring)
  | ImagesCall (resume : Outcome (list ImageInfo) → Session → Session)
  | TextCall (resume : Outcome jsstring → Session → Session).

(** The work a run leaves pending. *)
Definition awaited {A} (call : (Outcome A → Session → Session) → Pending)
    (r : Run A) : list Pending :=
  match r with
  | Done _ => []
  | Await _ _ resume => [call resume]
  end.

Record World := { session : Session; pending : list Pending }.

(** One task of the event loop: a handler of the screen shown is
    triggered, the reader or a service call calls back, or a render finds
    a result without an image and calls [handleReset]. A reader calls
    back with the runs [readerSettled] gives. *)
Inductive task : World → World → Prop :=
  | task_submit s ps prompt :
      offered s (Submit prompt) = true →
      task {| session := s; pending := ps |}
           {| session := suspended (handleGenerateImage prompt s);
              pending := ps ++ awaited ImagesCall
                                 (handleGenerateImage prompt s) |}
  | task_upload s ps fileType :
      offered s Upload = true →
      task {| session := s; pending := ps |}
           {| session := handleImageUpload s;
              pending := ps ++ [Reading fileType] |}
  | task_select s ps image :
      offered s (Select image) = true →
      task {| session := s; pending := ps |}
           {| session := suspended (handleImageSelect image s);
              pending := ps ++ awaited TextCall (handleImageSelect image s) |}
  | task_regenerate s ps :
      offered s Regenerate = true →
      task {| session := s; pending := ps |}
           {| session := suspended (handleRegenerateImages s);
              pending := ps ++ awaited ImagesCall
                                 (handleRegenerateImages s) |}
  | task_switch s ps newType :
      offered s (SwitchPrompt newType) = true →
      task {| session := s; pending := ps |}
           {| session := suspended (handleSwitchPromptType newType s);
              pending := ps ++ awaited TextCall
                                 (handleSwitchPromptType newType s) |}
  | task_reset s ps :
      offered s Reset = true →
      task {| session := s; pending := ps |}
           {| session := handleReset s; pending := ps |}
  | task_reader s ps1 fileType ps2 event r :
      readerSettled fileType event s = Some r →
      task {| session := s; pending := ps1 ++ Reading fileType :: ps2 |}
           {| session := suspended r;
              pending := ps1 ++ ps2 ++ awaited TextCall r |}
  | task_images s ps1 resume ps2 outcome :
      task {| session := s; pending := ps1 ++ ImagesCall resume :: ps2 |}
           {| session := resume outcome s; pending := ps1 ++ ps2 |}
  | task_text s ps1 resume ps2 outcome :
      task {| session := s; pending := ps1 ++ TextCall resume :: ps2 |}
           {| session := resume outcome s; pending := ps1 ++ ps2 |}
  | task_render s ps :
      fst (renderContent s) = Blank →
      task {| session := s; pending := ps |}
           {| session := snd (renderContent s); pending := ps |}.

(** The page as loaded. *)
Definition loaded : World := {| session := initialSession; pending := [] |}.

End App.

(** ** Playback controller ([ResultDisplay]) *)

Module Playback.
Import JsString Exn Codec.

(** An [AudioBufferSourceNode]: created, started (producing sound),
    finished (stopped or played to its end, its [ended] event queued), and
    ended (the event delivered). *)
Inductive SourceStatus := Unstarted | Playing | Finished | Ended.

#[global] Instance SourceStatus_eq_dec : EqDecision SourceStatus.
Proof. solve_decision. Defined.

Record SourceNode := { buffer : AudioBuffer; status : SourceStatus }.

(** The audio state of the component: its [useState] cells, its two refs,
    the values of the render the handlers read, and the source nodes
    created so far (a node is named by its position). *)
Record Player := {
  isGeneratingAudio : bool;
  isPlayingAudio : bool;
  generatedAudioData : option jsstring;
  audioError : option jsstring;
  audioCtxRef : option AudioContext;
  activeAudioSourceRef : option nat;
  displayedPrompt : jsstring;
  voiceSelection : jsstring;
  sources : list SourceNode;
}.

Definition setIsGeneratingAudio v (p : Player) : Player :=
  {| isGeneratingAudio := v; isPlayingAudio := isPlayingAudio p;
     generatedAudioData := generatedAudioData p; audioError := audioError p;
     audioCtxRef := audioCtxRef p;
     activeAudioSourceRef := activeAudioSourceRef p;
     displayedPrompt := displayedPrompt p;
     voiceSelection := voiceSelection p; sources := sources p |}.
Definition setIsPlayingAudio v (p : Player) : Player :=
  {| isGeneratingAudio := isGeneratingAudio p; isPlayingAudio := v;
     generatedAudioData := generatedAudioData p; audioError := audioError p;
     audioCtxRef := audioCtxRef p;
     activeAudioSourceRef := activeAudioSourceRef p;
     displayedPrompt := displayedPrompt p;
     voiceSelection := voiceSelection p; sources := sources p |}.
Definition setGeneratedAudioData v (p : Player) : Player :=
  {| isGeneratingAudio := isGeneratingAudio p;
     isPlayingAudio := isPlayingAudio p;
     generatedAudioData := v; audioError := audioError p;
     audioCtxRef := audioCtxRef p;
     activeAudioSourceRef := activeAudioSourceRef p;
     displayedPrompt := displayedPrompt p;
     voiceSelection := voiceSelection p; sources := sources p |}.
Definition setAudioError v (p : Player) : Player :=
  {| isGeneratingAudio := isGeneratingAudio p;
     isPlayingAudio := isPlayingAudio p;
     generatedAudioData := generatedAudioData p; audioError := v;
     audioCtxRef := audioCtxRef p;
     activeAudioSourceRef := activeAudioSourceRef p;
     displayedPrompt := displayedPrompt p;
     voiceSelection := voiceSelection p; sources := sources p |}.
Definition setActiveAudioSourceRef v (p : Player) : Player :=
  {| isGeneratingAudio := isGeneratingAudio p;
     isPlayingAudio := isPlayingAudio p;
     generatedAudioData := generatedAudioData p; audioError := audioError p;
     audioCtxRef := audioCtxRef p;
     activeAudioSourceRef := v;
     displayedPrompt := displayedPrompt p;
     voiceSelection := voiceSelection p; sources := sources p |}.
Definition setDisplayedPrompt v (p : Player) : Player :=
  {| isGeneratingAudio := isGeneratingAudio p;
     isPlayingAudio := isPlayingAudio p;
     generatedAudioData := generatedAudioData p; audioError := audioError p;
     audioCtxRef := audioCtxRef p;
     activeAudioSourceRef := activeAudioSourceRef p;
     displayedPrompt := v;
     voiceSelection := voiceSelection p; sources := sources p |}.
Definition setVoiceSelection v (p : Player) : Player :=
  {| isGeneratingAudio := isGeneratingAudio p;
     isPlayingAudio := isPlayingAudio p;
     generatedAudioData := generatedAudioData p; audioError := audioError p;
     audioCtxRef := audioCtxRef p;
     activeAudioSourceRef := activeAudioSourceRef p;
     displayedPrompt := displayedPrompt p;
     voiceSelection := v; sources := sources p |}.
Definition setSources v (p : Player) : Player :=
  {| isGeneratingAudio := isGeneratingAudio p;
     isPlayingAudio := isPlayingAudio p;
     generatedAudioData := generatedAudioData p; audioError := audioError p;
     audioCtxRef := audioCtxRef p;
     activeAudioSourceRef := activeAudioSourceRef p;
     displayedPrompt := displayedPrompt p;
     voiceSelection := voiceSelection p; sources := v |}.

Notation "s '|>' f" := (f s) (at level 45, left associativity, only parsing).

Definition setStatus (st : SourceStatus) (node : SourceNode) : SourceNode :=
  {| buffer := buffer node; status := st |}.

(** [source.stop()]: a playing node stops producing sound at once and its
    [ended] event is queued; on a node that already finished there is
    nothing to do; on a node that was never started the call throws. *)
Definition stop (id : nat) (p : Player) : Player :=
  p |> setSources
         (alter (λ node,
                   match status node with
                   | Playing => setStatus Finished node
                   | _ => node
                   end) id (sources p)).

(** A node is live while it produces sound. *)
Definition live (p : Player) (id : nat) : Prop :=
  status <$> sources p !! id = Some Playing.

#[global] Instance live_dec p id : Decision (live p id).
Proof. unfold live. apply _. Defined.

Section Handlers.

(** The message of each platform exception is chosen by the browser. *)
Variable platformMessage : ErrorName → jsstring.

Definition platform {A} (r : ErrorName + A) : Thrown + A :=
  match r with
  | inl name => inl (ErrorObject (platformMessage name))
  | inr a => inr a
  end.

(** [playDecodedAudio]: the player with the new node started, or the
    value thrown; nothing is changed before the last point that can
    throw. *)
Definition playDecodedAudio (base64Audio : jsstring) (p : Player)
    : Thrown + Player :=
  match decode base64Audio with
  | None => platform (inl InvalidCharacterError)
  | Some audioBytes =>
    match audioCtxRef p with
    | None =>
      inl (ErrorObject (js "오디오 컨텍스트가 초기화되지 않았습니다."))
    | Some ctx =>
      match platform (decodeAudioData audioBytes ctx 24000 1) with
      | inl e => inl e
      | inr audioBuffer =>
        let source := length (sources p) in
        inr (p |> setSources
                    (sources p ++
                       [{| buffer := audioBuffer; status := Unstarted |}])
               |> setActiveAudioSourceRef (Some source)
               |> (* source.start() *)
                  (λ p, p |> setSources
                               (alter (setStatus Playing) source
                                  (sources p)))
               |> setIsPlayingAudio true)
      end
    end
  end.

(** [source.onended] *)
Definition onended (p : Player) : Player :=
  p |> setIsPlayingAudio false |> setActiveAudioSourceRef None.

(** A run of [handlePlayAudio]: it returns at once, or suspends on
    [generateSpeech(text, voiceName)]. *)
Inductive Run :=
  | Done (p' : Player)
  | Await (p' : Player) (text voiceName : jsstring)
          (resume : Outcome jsstring → Player → Player).

(** The rest of [handlePlayAudio] once [generateSpeech] has settled. *)
Definition handlePlayAudio_resume (outcome : Outcome jsstring) (p : Player)
    : Player :=
  let catch error p :=
    p |> setAudioError
           (Some (messageOr (js "알 수 없는 오류가 발생했습니다.") error))
      |> setIsPlayingAudio false
      |> setActiveAudioSourceRef None in
  (match outcome with
   | Resolved base64Audio =>
     let p := p |> setGeneratedAudioData (Some base64Audio) in
     match playDecodedAudio base64Audio p with
     | inr p' => p'
     | inl error => catch error p
     end
   | Rejected error => catch error p
   end)
  |> (* finally *) setIsGeneratingAudio false.

Definition handlePlayAudio (p : Player) : Run :=
  match activeAudioSourceRef p with
  | Some source => Done (p |> stop source)
  | None =>
    if isGeneratingAudio p then Done p
    else
      let p := p |> setIsGeneratingAudio true |> setAudioError None in
      match generatedAudioData p with
      | None | Some [] =>
        (* [!generatedAudioData] holds for [null] and for the empty
           string *)
        Await p (displayedPrompt p) (voiceSelection p) handlePlayAudio_resume
      | Some ((_ :: _) as data) =>
        Done
          ((match playDecodedAudio data p with
            | inr p' => p'
            | inl error =>
              p |> setAudioError
                     (Some (messageOr (js "오디오 재생에 실패했습니다.") error))
            end)
           |> (* finally *) setIsGeneratingAudio false)
      end
  end.

(** The delivery of the [ended] event of node [id]. *)
Definition deliverEnded (id : nat) (p : Player) : Player :=
  p |> setSources (alter (setStatus Ended) id (sources p)) |> onended.

(** The effect on [audioPrompt] and [promptType]: the cached audio is
    dropped and the active node, if any, is stopped. *)
Definition promptChanged (newPrompt : jsstring) (p : Player) : Player :=
  let p := p |> setDisplayedPrompt newPrompt
             |> setGeneratedAudioData None in
  match activeAudioSourceRef p with
  | Some source => p |> stop source
  | None => p
  end.

(** The effect on [voiceSelection]. *)
Definition voiceChanged (voice : jsstring) (p : Player) : Player :=
  p |> setVoiceSelection voice |> setGeneratedAudioData None.

(** *** The component among the events of the browser

    A configuration is the player and the continuations of the
    [generateSpeech] calls still in flight. Each step is one task of the
    event loop: a click on the play button, the settling of a call, a
    node reaching the end of its buffer, the delivery of an [ended]
    event, a change of prompt or of voice. *)
Record Config := { player : Player;
                   inflight : list (Outcome jsstring → Player → Player) }.

Inductive step : Config → Config → Prop :=
  | step_click_done p fl p' :
      handlePlayAudio p = Done p' →
      step {| player := p; inflight := fl |}
           {| player := p'; inflight := fl |}
  | step_click_await p fl p' text voice resume :
      handlePlayAudio p = Await p' text voice resume →
      step {| player := p; inflight := fl |}
           {| player := p'; inflight := fl ++ [resume] |}
  | step_settle p fl1 resume fl2 outcome :
      step {| player := p; inflight := fl1 ++ resume :: fl2 |}
           {| player := resume outcome p; inflight := fl1 ++ fl2 |}
  | step_end_of_stream p fl id :
      live p id →
      step {| player := p; inflight := fl |}
           {| player := p |> setSources
                              (alter (setStatus Finished) id (sources p));
              inflight := fl |}
  | step_ended p fl id :
      status <$> sources p !! id = Some Finished →
      step {| player := p; inflight := fl |}
           {| player := deliverEnded id p; inflight := fl |}
  | step_prompt p fl newPrompt :
      step {| player := p; inflight := fl |}
           {| player := promptChanged newPrompt p; inflight := fl |}
  | step_voice p fl voice :
      step {| player := p; inflight := fl |}
           {| player := voiceChanged voice p; inflight := fl |}.

(** The component as mounted: nothing generated, nothing playing, the
    audio context created by the mount effect. *)
Definition mounted (ctx : AudioContext) (prompt : jsstring) : Config :=
  {| player := {| isGeneratingAudio := false; isPlayingAudio := false;
                  generatedAudioData := None; audioError := None;
                  audioCtxRef := Some ctx; activeAudioSourceRef := None;
                  displayedPrompt := prompt; voiceSelection := js "Kore";
                  sources := [] |};
     inflight := [] |}.

(** The controller plays node [id], or is at rest. *)
Definition playing (p : Player) (id : nat) : Prop :=
  activeAudioSourceRef p = Some id ∧ isPlayingAudio p = true ∧ live p id.

Definition idle (p : Player) : Prop :=
  activeAudioSourceRef p = None ∧ isPlayingAudio p = false
  ∧ ∀ id, ¬ live p id.

(** An asset [playDecodedAudio] can play on the context [ctx]. *)
Definition validAsset (ctx : AudioContext) (base64Audio : jsstring) : Prop :=
  ∃ audioBytes audioBuffer,
    decode base64Audio = Some audioBytes
    ∧ decodeAudioData audioBytes ctx 24000 1 = inr audioBuffer.

(** What a click on the download button does: nothing without audio, an
    exception, or a file offered under [download] with [blob] as content. *)
Inductive Download :=
  | NotStarted
  | Throws (name : ErrorName)
  | Saved (download : jsstring) (blob : Wav.Blob).

(** [handleDownloadAudio]; [!generatedAudioData] holds for [null] and for
    the empty string. *)
Definition handleDownloadAudio (p : Player) : Download :=
  match generatedAudioData p with
  | None | Some [] => NotStarted
  | Some ((_ :: _) as generatedAudioData) =>
    match decode generatedAudioData with
    | None => Throws InvalidCharacterError
    | Some audioBytes =>
      match Wav.createWavBlob audioBytes 1 24000 16 with
      | None => Throws RangeError
      | Some wavBlob =>
        Saved (js "prompt-voice-" ++ voiceSelection p ++ js ".wav") wavBlob
      end
    end
  end.

(** What every reachable configuration satisfies: a node whose [ended]
    event is still to come is the one the ref holds, and while a
    [generateSpeech] call is in flight there is one such call, the
    generating flag is set and the ref is empty. *)
Record consistent (c : Config) : Prop := {
  active_node :
    ∀ id node, sources (player c) !! id = Some node →
               status node ≠ Ended →
               activeAudioSourceRef (player c) = Some id;
  one_call : (length (inflight c) ≤ 1)%nat;
  call_resume : Forall (λ resume, resume = handlePlayAudio_resume) (inflight c);
  call_guard :
    inflight c ≠ [] →
    isGeneratingAudio (player c) = true
    ∧ activeAudioSourceRef (player c) = None;
}.

(** What the flags and the ref tell in every reachable configuration:
    the generating flag is set exactly while a call is in flight, the
    playing flag exactly while the ref holds a node, the node the ref
    holds was started and has not had its [ended] event, and no node is
    left unstarted. *)
Record truthful (c : Config) : Prop := {
  generating_flag :
    isGeneratingAudio (player c) = true ↔ inflight c ≠ [];
  playing_flag :
    isPlayingAudio (player c) = true
    ↔ is_Some (activeAudioSourceRef (player c));
  ref_started :
    ∀ id, activeAudioSourceRef (player c) = Some id →
          status <$> sources (player c) !! id = Some Playing
          ∨ status <$> sources (player c) !! id = Some Finished;
  all_started :
    ∀ id node, sources (player c) !! id = Some node →
               status node ≠ Unstarted;
}.

(** *** The page across mounts

    [ResultDisplay] is unmounted when the workflow leaves SHOWING_RESULT
    (its reset button is never disabled) and mounted anew, with fresh
    state, fresh refs and a new audio context, when a result is shown
    again. The cleanup of the mount effect stops the node the ref holds
    and nothing else: a [generateSpeech] call in flight is not cancelled,
    and its continuation runs when the call settles, on the refs of the
    instance that issued it. *)

(** The cleanup of the mount effect. *)
Definition cleanup (p : Player) : Player :=
  match activeAudioSourceRef p with
  | Some source => p |> stop source
  | None => p
  end.

(** What a callback leaves in an unmounted instance: React drops its
    state updates, while the refs and the nodes are as the callback left
    them. *)
Definition refsOnly (before after : Player) : Player :=
  {| isGeneratingAudio := isGeneratingAudio before;
     isPlayingAudio := isPlayingAudio before;
     generatedAudioData := generatedAudioData before;
     audioError := audioError before;
     audioCtxRef := audioCtxRef after;
     activeAudioSourceRef := activeAudioSourceRef after;
     displayedPrompt := displayedPrompt before;
     voiceSelection := voiceSelection before;
     sources := sources after |}.

(** The events that still reach an unmounted instance: no click and no
    change of props, but the settling of its call, the end of its node
    and the [ended] event. *)
Inductive unmounted_step : Config → Config → Prop :=
  | unmounted_settle p fl1 resume fl2 outcome :
      unmounted_step
        {| player := p; inflight := fl1 ++ resume :: fl2 |}
        {| player := refsOnly p (resume outcome p); inflight := fl1 ++ fl2 |}
  | unmounted_end_of_stream p fl id :
      live p id →
      unmounted_step
        {| player := p; inflight := fl |}
        {| player := p |> setSources
                           (alter (setStatus Finished) id (sources p));
           inflight := fl |}
  | unmounted_ended p fl id :
      status <$> sources p !! id = Some Finished →
      unmounted_step
        {| player := p; inflight := fl |}
        {| player := refsOnly p (deliverEnded id p); inflight := fl |}.

(** The page: the instances unmounted so far, and the one mounted, if
    any. *)
Record Page := { unmounted : list Config; current : option Config }.

Definition noResult : Page := {| unmounted := []; current := None |}.

Inductive page_step : Page → Page → Prop :=
  | page_mount us ctx prompt :
      page_step {| unmounted := us; current := None |}
                {| unmounted := us; current := Some (mounted ctx prompt) |}
  | page_event us c c' :
      step c c' →
      page_step {| unmounted := us; current := Some c |}
                {| unmounted := us; current := Some c' |}
  | page_unmount us c :
      page_step {| unmounted := us; current := Some c |}
                {| unmounted :=
                     us ++ [{| player := cleanup (player c);
                               inflight := inflight c |}];
                   current := None |}
  | page_unmounted us1 c us2 c' cur :
      unmounted_step c c' →
      page_step {| unmounted := us1 ++ c :: us2; current := cur |}
                {| unmounted := us1 ++ c' :: us2; current := cur |}.

(** The instances of the page, in the order of their mounts. *)
Definition instances (pg : Page) : list Config :=
  unmounted pg ++ match current pg with Some c => [c] | None => [] end.

(** Node [id] of the [i]-th instance is live. *)
Definition liveOn (pg : Page) (i id : nat) : Prop :=
  ∃ c, instances pg !! i = Some c ∧ live (player c) id.

End Handlers.

End Playback.

(** ** Generation service ([geminiService]) *)

Module Service.
Import JsString Exn.

(** The lower case of an ASCII code unit. *)
Definition asciiLower (c : N) : N :=
  (if (0x41 <=? c) && (c <=? 0x5A) then c + 0x20 else c)%N.

(** Code units [String.prototype.toLowerCase] maps one by one, whatever
    surrounds them: ASCII, and the Hangul syllables, which have no
    case. *)
Definition plain (c : N) : bool :=
  ((c <? 0x80) || ((0xAC00 <=? c) && (c <=? 0xD7A3)))%N.

Section Platform.

(** [String.prototype.toLowerCase], and the message of each platform
    exception. *)
Variable toLowerCase : jsstring → jsstring.
Variable platformMessage : ErrorName → jsstring.

(** [handleGeminiError]: the message of the [Error] it returns. When
    [String(error)] throws there is none ([None]): that exception leaves
    the function. *)
Definition handleGeminiError (error : Thrown) (defaultMessage : jsstring)
    : option jsstring :=
  match rendering error with
  | None => None
  | Some text =>
    let errorMessage := toLowerCase text in
    Some
      (if includes (js "429") errorMessage
          || includes (js "resource_exhausted") errorMessage
       then js "API 사용 할당량을 초과했습니다. 잠시 후 다시 시도하거나 API 요금제를 확인해주세요."
       else if includes (js "api key not valid") errorMessage
               || includes (js "permission_denied") errorMessage
       then js "API 키가 유효하지 않거나 권한이 없습니다. 올바른 API 키가 설정되었는지 확인해주세요."
       else if includes (js "500") errorMessage
               || includes (js "503") errorMessage
               || includes (js "internal") errorMessage
       then js "서버에 일시적인 문제가 발생했습니다. 잠시 후 다시 시도해주세요."
       else defaultMessage)
  end.

(** [catch (error) { throw handleGeminiError(error, defaultMessage) }]:
    what the promise of the function is rejected with; [None] when it is
    the exception of [String(error)]. *)
Definition rethrown {A} (error : Thrown) (defaultMessage : jsstring)
    : option (Outcome A) :=
  userMessage ← handleGeminiError error defaultMessage;
  Some (Rejected (ErrorObject userMessage)).

(** The four functions below are given the outcome of their
    [ai.models.generateContent] call. For the first three it carries
    [response.text], which may be [undefined], on which [.trim()] throws
    a [TypeError] into the [catch]. *)
Definition generateVoicePromptFromImage (response : Outcome (option jsstring))
    : option (Outcome jsstring) :=
  let defaultMessage :=
    js "이미지를 분석하여 목소리 프롬프트를 생성하는 데 실패했습니다." in
  match response with
  | Resolved (Some text) => Some (Resolved (trim text))
  | Resolved None =>
    rethrown (ErrorObject (platformMessage TypeError)) defaultMessage
  | Rejected error => rethrown error defaultMessage
  end.

Definition generateSoundscapePromptFromImage
    (response : Outcome (option jsstring)) : option (Outcome jsstring) :=
  let defaultMessage :=
    js "이미지를 분석하여 사운드스케이프 프롬프트를 생성하는 데 실패했습니다." in
  match response with
  | Resolved (Some text) => Some (Resolved (trim text))
  | Resolved None =>
    rethrown (ErrorObject (platformMessage TypeError)) defaultMessage
  | Rejected error => rethrown error defaultMessage
  end.

Definition translateToEnglish (response : Outcome (option jsstring))
    : option (Outcome jsstring) :=
  let defaultMessage := js "텍스트를 영어로 번역하는 데 실패했습니다." in
  match response with
  | Resolved (Some text) => Some (Resolved (trim text))
  | Resolved None =>
    rethrown (ErrorObject (platformMessage TypeError)) defaultMessage
  | Rejected error => rethrown error defaultMessage
  end.

(** For [generateSpeech] the outcome carries
    [response.candidates?.[0]?.content?.parts?.[0]?.inlineData?.data];
    [undefined] and the empty string are both refused. *)
Definition generateSpeech (response : Outcome (option jsstring))
    : option (Outcome jsstring) :=
  let defaultMessage :=
    js "음성 생성에 실패했습니다. 잠시 후 다시 시도해주세요." in
  match response with
  | Resolved (Some ((_ :: _) as base64Audio)) => Some (Resolved base64Audio)
  | Resolved (Some []) | Resolved None =>
    rethrown (ErrorObject (js "API에서 오디오 데이터를 반환하지 않았습니다."))
      defaultMessage
  | Rejected error => rethrown error defaultMessage
  end.

End Platform.

(** What the promise of a service function settles with, given the
    result of the function above: when [String(error)] throws inside
    [handleGeminiError], the exception it throws, [thrown], leaves the
    [catch] block and rejects the promise. *)
Definition settles {A} (thrown : Thrown) (result : option (Outcome A))
    : Outcome A :=
  match result with
  | Some outcome => outcome
  | None => Rejected thrown
  end.

(** The messages [handleGeminiError] chooses from, besides the default
    of its caller. *)
Definition categoryMessages : list jsstring :=
  [js "API 사용 할당량을 초과했습니다. 잠시 후 다시 시도하거나 API 요금제를 확인해주세요.";
   js "API 키가 유효하지 않거나 권한이 없습니다. 올바른 API 키가 설정되었는지 확인해주세요.";
   js "서버에 일시적인 문제가 발생했습니다. 잠시 후 다시 시도해주세요."].

End Service.

(** ** Prompt display: voices, translation, recommendation
       ([ResultDisplay]) *)

Module Display.
Import JsString Exn.

Record VoiceOption := { name : jsstring; label : jsstring }.

Definition voiceGroups : list (jsstring * list VoiceOption) :=
  [ (js "여성 목소리",
     [ {| name := js "Kore"; label := js "Kore (차분하고 선명함)" |} ]);
    (js "남성 목소리",
     [ {| name := js "Puck"; label := js "Puck (중립적이고 안정적)" |};
       {| name := js "Zephyr"; label := js "Zephyr (따뜻하고 부드러움)" |};
       {| name := js "Charon"; label := js "Charon (깊고 낮음)" |};
       {| name := js "Fenrir"; label := js "Fenrir (강하고 활기참)" |} ]) ].

(** [voiceGroups.flatMap(g => g.voices)] *)
Definition allVoices : list VoiceOption := voiceGroups ≫= snd.

(** [Object.fromEntries(allVoices.map(v => [v.name, v.label]))]: a later
    entry replaces an earlier one with the same name. *)
Definition voiceLabelMap : gmap (list N) (list N) :=
  foldl (λ m v, <[name v := label v]> m) ∅ allVoices.

(** The options of the voice menu once the recommendation has settled:
    the recommended names with the label the map has for them
    ([undefined] when it has none), then the other voices. *)
Definition voiceOptions (recommendedVoices : list jsstring)
    : list (jsstring * option jsstring) :=
  ((λ voiceName, (voiceName, voiceLabelMap !! voiceName)) <$> recommendedVoices)
  ++ ((λ voice, (name voice, Some (label voice)))
        <$> filter (λ v, name v ∉ recommendedVoices) allVoices).

Inductive Language := ko | en.

#[global] Instance Language_eq_dec : EqDecision Language.
Proof. solve_decision. Defined.

(** The cells of the component that translation and recommendation use,
    with the two props they read. *)
Record Display := {
  audioPrompt : jsstring;
  promptType : App.PromptType;
  isTranslating : bool;
  englishPrompt : option jsstring;
  displayLanguage : Language;
  voiceSelection : jsstring;
  recommendedVoices : list jsstring;
  isRecommendingVoice : bool;
}.

Definition setProps prompt kind (d : Display) : Display :=
  {| audioPrompt := prompt; promptType := kind;
     isTranslating := isTranslating d; englishPrompt := englishPrompt d;
     displayLanguage := displayLanguage d;
     voiceSelection := voiceSelection d;
     recommendedVoices := recommendedVoices d;
     isRecommendingVoice := isRecommendingVoice d |}.
Definition setIsTranslating v (d : Display) : Display :=
  {| audioPrompt := audioPrompt d; promptType := promptType d;
     isTranslating := v; englishPrompt := englishPrompt d;
     displayLanguage := displayLanguage d;
     voiceSelection := voiceSelection d;
     recommendedVoices := recommendedVoices d;
     isRecommendingVoice := isRecommendingVoice d |}.
Definition setEnglishPrompt v (d : Display) : Display :=
  {| audioPrompt := audioPrompt d; promptType := promptType d;
     isTranslating := isTranslating d; englishPrompt := v;
     displayLanguage := displayLanguage d;
     voiceSelection := voiceSelection d;
     recommendedVoices := recommendedVoices d;
     isRecommendingVoice := isRecommendingVoice d |}.
Definition setDisplayLanguage v (d : Display) : Display :=
  {| audioPrompt := audioPrompt d; promptType := promptType d;
     isTranslating := isTranslating d; englishPrompt := englishPrompt d;
     displayLanguage := v;
     voiceSelection := voiceSelection d;
     recommendedVoices := recommendedVoices d;
     isRecommendingVoice := isRecommendingVoice d |}.
Definition setVoiceSelection v (d : Display) : Display :=
  {| audioPrompt := audioPrompt d; promptType := promptType d;
     isTranslating := isTranslating d; englishPrompt := englishPrompt d;
     displayLanguage := displayLanguage d;
     voiceSelection := v;
     recommendedVoices := recommendedVoices d;
     isRecommendingVoice := isRecommendingVoice d |}.
Definition setRecommendedVoices v (d : Display) : Display :=
  {| audioPrompt := audioPrompt d; promptType := promptType d;
     isTranslating := isTranslating d; englishPrompt := englishPrompt d;
     displayLanguage := displayLanguage d;
     voiceSelection := voiceSelection d;
     recommendedVoices := v;
     isRecommendingVoice := isRecommendingVoice d |}.
Definition setIsRecommendingVoice v (d : Display) : Display :=
  {| audioPrompt := audioPrompt d; promptType := promptType d;
     isTranslating := isTranslating d; englishPrompt := englishPrompt d;
     displayLanguage := displayLanguage d;
     voiceSelection := voiceSelection d;
     recommendedVoices := recommendedVoices d;
     isRecommendingVoice := v |}.

Notation "s '|>' f" := (f s) (at level 45, left associativity, only parsing).

(** The component as first rendered for a prompt. *)
Definition initialDisplay (prompt : jsstring) (kind : App.PromptType)
    : Display :=
  {| audioPrompt := prompt; promptType := kind;
     isTranslating := false; englishPrompt := None; displayLanguage := ko;
     voiceSelection := js "Kore"; recommendedVoices := [];
     isRecommendingVoice := false |}.

(** [displayLanguage === 'en' && englishPrompt ? englishPrompt :
    audioPrompt]; an empty translation is falsy. *)
Definition displayedPrompt (d : Display) : jsstring :=
  match displayLanguage d, englishPrompt d with
  | en, Some ((_ :: _) as english) => english
  | _, _ => audioPrompt d
  end.

(** The calls the two handlers await: [translateToEnglish(text)], and
    [recommendVoicesFromPrompt(audioPrompt)], whose promise resolves with
    the list the function returns. *)
Inductive Request : Type → Type :=
  | translateToEnglish (text : jsstring) : Request jsstring
  | recommendVoices (audioPrompt : jsstring) : Request (list jsstring).

Inductive Run (A : Type) :=
  | Done (d' : Display)
  | Await (d' : Display) (request : Request A)
          (resume : Outcome A → Display → Display).
Arguments Done {A} d'.
Arguments Await {A} d' request resume.

Definition handleTranslate (d : Display) : Run jsstring :=
  if isTranslating d then Done d
  else
    Await (d |> setIsTranslating true) (translateToEnglish (audioPrompt d))
      (λ outcome d,
         (match outcome with
          | Resolved translation =>
            d |> setEnglishPrompt (Some translation) |> setDisplayLanguage en
          | Rejected error => (* an alert is shown *) d
          end)
         |> (* finally *) setIsTranslating false).

(** The effect on [audioPrompt] and [promptType], for the cells of this
    record: the translation and the recommendation are dropped, and a
    recommendation is requested for a non-empty voice prompt. *)
Definition promptEffect (d : Display) : Run (list jsstring) :=
  let d := d |> setEnglishPrompt None
             |> setDisplayLanguage ko
             |> setIsTranslating false
             |> setRecommendedVoices [] in
  match promptType d, audioPrompt d with
  | App.VOICE, _ :: _ =>
    Await (d |> setIsRecommendingVoice true) (recommendVoices (audioPrompt d))
      (λ outcome d,
         (match outcome with
          | Resolved recommended =>
            let d := d |> setRecommendedVoices recommended in
            match recommended with
            | first :: _ => d |> setVoiceSelection first
            | [] => d
            end
          | Rejected err => d |> setVoiceSelection (js "Puck")
          end)
         |> (* finally *) setIsRecommendingVoice false)
  | _, _ => Done d
  end.

(** The promise [recommendVoicesFromPrompt] returns for the outcome
    [response] of its own service call: it never rejects. *)
Definition recommendation (audioPrompt : jsstring)
    (response : Outcome (option jsstring)) : Outcome (list jsstring) :=
  Resolved (Voice.recommendVoicesFromPrompt audioPrompt response).

End Display.

(** * Properties *)

(** ** Bytes and the WAV container *)

Section WavFacts.
Import Buffer Wav.

Lemma Z_of_byte_of_Z z : Z_of_byte (byte_of_Z z) = z mod 256.
Proof.
  unfold Z_of_byte, byte_of_Z.
  assert (0 <= z mod 256 < 256) as Hr by (apply Z.mod_pos_bound; lia).
  destruct (Byte.of_N (Z.to_N (z mod 256))) as [b|] eqn:Hb; simpl.
  - apply Byte.to_of_N in Hb. rewrite Hb. lia.
  - apply Byte.of_N_None_iff in Hb. lia.
Qed.

Lemma Z_of_byte_range b : 0 <= Z_of_byte b < 256.
Proof.
  unfold Z_of_byte. pose proof (Byte.to_N_bounded b). lia.
Qed.

Lemma le_value_bytes_le_4 v : le_value (bytes_le 4 v) = v mod 2 ^ 32.
Proof.
  cbn [bytes_le seq fmap list_fmap le_value]. unfold nth_byte.
  rewrite !Z_of_byte_of_Z, !Z.shiftr_div_pow2 by lia.
  change (8 * Z.of_nat 0) with 0. change (8 * Z.of_nat 1) with 8.
  change (8 * Z.of_nat 2) with 16. change (8 * Z.of_nat 3) with 24.
  change (2 ^ 0) with 1. change (2 ^ 8) with 256.
  change (2 ^ 16) with 65536. change (2 ^ 24) with 16777216.
  change (2 ^ 32) with 4294967296.
  Z.div_mod_to_equations. lia.
Qed.

Lemma length_bytes_le width v : length (bytes_le width v) = width.
Proof. unfold bytes_le. by rewrite length_fmap, length_seq. Qed.

Lemma length_bytes_be width v : length (bytes_be width v) = width.
Proof. unfold bytes_be. by rewrite length_reverse, length_bytes_le. Qed.

Lemma length_canonicalHeader n nc sr bps :
  length (canonicalHeader n nc sr bps) = 44%nat.
Proof.
  unfold canonicalHeader.
  by rewrite !length_app, !length_bytes_le, !length_bytes_be.
Qed.

(** The header of the mono, 24 kHz, 16-bit profile over four bytes of
    samples. *)
Example canonicalHeader_mono :
  canonicalHeader 4 1 24000 16 =
    [x52; x49; x46; x46;  x28; x00; x00; x00;  x57; x41; x56; x45;
     x66; x6d; x74; x20;  x10; x00; x00; x00;  x01; x00;  x01; x00;
     xc0; x5d; x00; x00;  x80; xbb; x00; x00;  x02; x00;  x10; x00;
     x64; x61; x74; x61;  x04; x00; x00; x00].
Proof. reflexivity. Qed.

(** A store over a prefix of the buffer leaves the rest as it was. *)
Lemma store_prefix off bs pre rest :
  (off + length bs <= length pre)%nat →
  store off bs (pre ++ rest) = Some (list_inserts off bs pre ++ rest).
Proof.
  intros Hfit. unfold store.
  rewrite length_app, (proj2 (Nat.leb_le _ _)) by lia.
  f_equal. apply list_eq. intros j.
  destruct (decide (j < length pre)%nat) as [Hj|Hj].
  - rewrite lookup_app_l by (by rewrite length_inserts).
    destruct (decide (off ≤ j < off + length bs)%nat).
    + rewrite !list_lookup_inserts; rewrite ?length_app; done || lia.
    + destruct (decide (j < off)%nat).
      * rewrite !list_lookup_inserts_lt by done. by rewrite lookup_app_l.
      * rewrite !list_lookup_inserts_ge by lia. by rewrite lookup_app_l.
  - rewrite list_lookup_inserts_ge by lia.
    by rewrite !lookup_app_r; rewrite ?length_inserts; try lia.
Qed.

(** [createWavBlob] never throws, and what it builds is the canonical
    header followed by the samples. *)
Lemma createWavBlob_layout pcmData nc sr bps :
  createWavBlob pcmData nc sr bps =
    Some {| blob_bytes := canonicalHeader (length pcmData) nc sr bps ++ pcmData;
            blob_type := "audio/wav" |}.
Proof.
  unfold createWavBlob, new_ArrayBuffer.
  rewrite replicate_add.
  unfold setUint32, setUint16, setUint.
  repeat (rewrite store_prefix
            by (rewrite ?length_inserts, ?length_bytes_le, ?length_bytes_be;
                cbn; lia);
          cbn [mbind option_bind]).
  unfold Uint8Array_set.
  set (header := list_inserts _ _ _).
  assert (header = canonicalHeader (length pcmData) nc sr bps) as ->.
  { subst header. reflexivity. }
  unfold store.
  rewrite length_app, length_canonicalHeader, length_replicate, Nat.leb_refl.
  cbn [mbind option_bind]. do 2 f_equal.
  rewrite <-(length_canonicalHeader (length pcmData) nc sr bps) at 1.
  rewrite <-(Nat.add_0_r (length (canonicalHeader _ _ _ _))).
  rewrite list_inserts_app_r. f_equal.
  rewrite <-(app_nil_r (replicate _ _)).
  rewrite list_inserts_0_r by (by rewrite length_replicate).
  by rewrite app_nil_r.
Qed.

Lemma truncate_inject_Z z : JsNumber.truncate (inject_Z z) = z.
Proof. unfold JsNumber.truncate. cbn. apply Z.quot_1_r. Qed.

Lemma ToUint32_chunk_size n :
  JsNumber.ToUint32 (36 + JsNumber.of_nat n)%Q = (36 + Z.of_nat n) mod 2 ^ 32.
Proof.
  unfold JsNumber.ToUint32, JsNumber.truncate, JsNumber.of_nat. cbn.
  rewrite Z.quot_1_r. f_equal. lia.
Qed.

(** The [ChunkSize] field holds the size modulo [2^32]. *)
Lemma chunkSize_createWavBlob pcmData nc sr bps :
  createWavBlob pcmData nc sr bps ≫= chunkSize
  = Some ((36 + Z.of_nat (length pcmData)) mod 2 ^ 32).
Proof.
  rewrite createWavBlob_layout. cbn [mbind option_bind].
  unfold chunkSize, getUint32, load. cbn [blob_bytes].
  rewrite length_app, length_canonicalHeader. cbn [Nat.add Nat.leb].
  cbn [mbind option_bind]. f_equal.
  unfold canonicalHeader.
  rewrite <-!app_assoc.
  rewrite (drop_app_length' (bytes_be 4 _)) by (by rewrite length_bytes_be).
  rewrite (take_app_length' (bytes_le 4 _)) by (by rewrite length_bytes_le).
  rewrite le_value_bytes_le_4, ToUint32_chunk_size.
  apply Z.mod_mod. lia.
Qed.

(** C1, within the range of the 32-bit size field. For every non-empty
    buffer [b] of even length with
    [36 + len b < 2^32], [createWavBlob b 1 24000 16] returns a blob of
    [44 + len b] bytes that starts with the canonical 44-byte header,
    whose ChunkSize field (bytes 4..7, little-endian) is [36 + len b],
    and whose bytes from offset 44 on are [b]. *)
Theorem wav_container (b : list byte) :
  b ≠ [] → (length b mod 2 = 0)%nat → 36 + Z.of_nat (length b) < 2 ^ 32 →
  ∃ blob,
    createWavBlob b 1 24000 16 = Some blob
    ∧ length (blob_bytes blob) = (44 + length b)%nat
    ∧ take 44 (blob_bytes blob) = canonicalHeader (length b) 1 24000 16
    ∧ chunkSize blob = Some (36 + Z.of_nat (length b))
    ∧ drop 44 (blob_bytes blob) = b.
Proof.
  intros _ _ Hsize.
  pose proof (chunkSize_createWavBlob b 1 24000 16) as Hchunk.
  rewrite createWavBlob_layout in Hchunk |- *.
  eexists. split; [reflexivity|]. cbn [blob_bytes].
  pose proof (length_canonicalHeader (length b) 1 24000 16) as Hlen.
  split; [by rewrite length_app, Hlen|].
  split; [by rewrite take_app_length' by done|].
  split.
  - cbn [mbind option_bind] in Hchunk. rewrite Hchunk.
    f_equal. apply Z.mod_small. lia.
  - by rewrite drop_app_length' by done.
Qed.

Lemma wav_container_witness :
  ∃ blob,
    createWavBlob [x01; x02; x03; x04] 1 24000 16 = Some blob
    ∧ length (blob_bytes blob) = 48%nat
    ∧ chunkSize blob = Some 40
    ∧ drop 44 (blob_bytes blob) = [x01; x02; x03; x04].
Proof.
  destruct (wav_container [x01; x02; x03; x04])
    as (blob & Hblob & Hlen & _ & Hchunk & Hdata);
    [discriminate | reflexivity | cbn; lia |].
  exists blob. repeat split; assumption.
Defined.

(** A buffer of [n] bytes with [36 + n = 2^32]: the field wraps to 0. *)
Lemma chunk_size_wraps_at n :
  Z.of_nat n = 2 ^ 32 - 36 →
  let b := replicate n x00 in
  b ≠ [] ∧ (length b mod 2 = 0)%nat
  ∧ createWavBlob b 1 24000 16 ≫= chunkSize = Some 0
  ∧ 36 + Z.of_nat (length b) = 2 ^ 32.
Proof.
  intros Hn b. assert (length b = n) as Hlen by apply length_replicate.
  split; [|split; [|split]].
  - intros Hb. rewrite Hb in Hlen. cbn in Hlen. lia.
  - rewrite Hlen. apply Nat2Z.inj. rewrite Nat2Z.inj_mod, Hn. reflexivity.
  - rewrite chunkSize_createWavBlob, Hlen, Hn. reflexivity.
  - rewrite Hlen, Hn. reflexivity.
Qed.

(** C1 does not extend to every buffer: one of [2^32 - 36] bytes is
    non-empty and of even length, and the ChunkSize field of its container
    reads 0, not [36 + len b = 2^32]. *)
Lemma wav_container_chunk_size_wraps :
  let b := replicate (Z.to_nat (2 ^ 32 - 36)) x00 in
  b ≠ [] ∧ (length b mod 2 = 0)%nat
  ∧ ¬ ∃ blob, createWavBlob b 1 24000 16 = Some blob
              ∧ chunkSize blob = Some (36 + Z.of_nat (length b)).
Proof.
  intros b.
  destruct (chunk_size_wraps_at (Z.to_nat (2 ^ 32 - 36)))
    as (Hne & Heven & Hchunk & Hsize); [by apply Z2Nat.id|].
  fold b in Hne, Heven, Hchunk, Hsize. clearbody b.
  split; [exact Hne|]. split; [exact Heven|].
  intros (blob & Hblob & Hfield).
  rewrite Hblob in Hchunk. cbn [mbind option_bind] in Hchunk.
  rewrite Hfield in Hchunk. injection Hchunk as Hchunk. lia.
Qed.

End WavFacts.

(** ** Audio codec *)

Section CodecFacts.
Import Buffer Exn Codec.

Example decode_example :
  decode (JsString.js "AAD/fwCAAQD//w==")
  = Some [x00; x00; xff; x7f; x00; x80; x01; x00; xff; xff]
  ∧ decode (JsString.js "AAD/ fwCA AQD//w") = decode (JsString.js "AAD/fwCAAQD//w==")
  ∧ decode (JsString.js "AAD/f") = None
  ∧ decode (JsString.js "AAD*") = None.
Proof. repeat split; reflexivity. Qed.

Example int16_elements_example :
  int16_elements [x00; x00; xff; x7f; x00; x80; x01; x00; xff; xff]
  = [0; 32767; -32768; 1; -1].
Proof. reflexivity. Qed.

Lemma length_int16_elements_aux data :
  length (int16_elements data) = (length data / 2)%nat
  ∧ ∀ b, length (int16_elements (b :: data)) = (S (length data) / 2)%nat.
Proof.
  induction data as [|b0 data [IH1 IH2]].
  - split; [done|]. intros b. done.
  - split; [apply IH2|].
    intros b. cbn [int16_elements length]. rewrite IH1.
    change (S (S (length data))) with (2 + length data)%nat.
    replace (2 + length data)%nat with (length data + 1 * 2)%nat by lia.
    rewrite Nat.div_add by done. lia.
Qed.

Lemma length_int16_elements data :
  length (int16_elements data) = (length data / 2)%nat.
Proof. apply length_int16_elements_aux. Qed.

Lemma ToInt16_range v : -32768 <= ToInt16 v <= 32767.
Proof.
  unfold ToInt16.
  assert (0 <= v mod 2 ^ 16 < 2 ^ 16) by (apply Z.mod_pos_bound; lia).
  change (2 ^ 16) with 65536 in *. change (2 ^ 15) with 32768.
  destruct (Z.ltb_spec (v mod 65536) 32768); lia.
Qed.

Lemma int16_elements_range data :
  Forall (λ s, -32768 <= s <= 32767) (int16_elements data).
Proof.
  assert (Forall (λ s, -32768 <= s <= 32767) (int16_elements data)
          ∧ ∀ b, Forall (λ s, -32768 <= s <= 32767)
                   (int16_elements (b :: data))) as [H _]; [|done].
  induction data as [|b0 data [IH1 IH2]].
  - split; [constructor|]. intros b. constructor.
  - split; [apply IH2|]. intros b. cbn [int16_elements].
    constructor; [apply ToInt16_range | done].
Qed.

Lemma length_fillChannel d nc ch iters cd :
  length (fillChannel d nc ch iters cd) = length cd.
Proof.
  unfold fillChannel. induction iters as [|n IH]; [done|].
  rewrite seq_S, foldl_app. cbn [foldl]. by rewrite length_insert.
Qed.

Lemma fillChannel_lookup d nc ch iters cd j :
  fillChannel d nc ch iters cd !! j =
    if decide (j < iters ∧ j < length cd)%nat
    then Some (normalized (d !! (j * nc + ch)%nat))
    else cd !! j.
Proof.
  induction iters as [|n IH].
  - cbn. case_decide; [lia | done].
  - unfold fillChannel in *. rewrite seq_S, foldl_app. cbn [foldl].
    fold (fillChannel d nc ch n cd) in *.
    destruct (decide (j = n)) as [->|Hne].
    + destruct (decide (n < length cd)%nat).
      * rewrite list_lookup_insert_eq by (by rewrite length_fillChannel).
        rewrite decide_True by lia. done.
      * rewrite list_insert_ge by (rewrite length_fillChannel; lia).
        rewrite IH. rewrite !decide_False by lia. done.
    + rewrite list_lookup_insert_ne by done. rewrite IH.
      repeat case_decide; done || lia.
Qed.

Lemma fillChannel_replicate d nc ch iters len z :
  (len ≤ iters)%nat →
  fillChannel d nc ch iters (replicate len z)
  = (λ i, normalized (d !! (i * nc + ch)%nat)) <$> seq 0 len.
Proof.
  intros Hle. apply list_eq. intros j.
  rewrite fillChannel_lookup, length_replicate, list_lookup_fmap.
  destruct (decide (j < len)%nat) as [Hj|Hj].
  - rewrite decide_True by lia. by rewrite lookup_seq_lt.
  - rewrite decide_False by lia.
    rewrite (lookup_ge_None_2 (replicate _ _)) by (rewrite length_replicate; lia). by rewrite lookup_seq_ge by lia.
Qed.

Lemma fillChannels_prefix d nc iters chans k :
  (k ≤ length chans)%nat →
  foldl (fillNextChannel d nc iters) (inr chans) (seq 0 k)
  = inr (imap (λ ch cd, if decide (ch < k)%nat
                        then fillChannel d nc ch iters cd else cd) chans).
Proof.
  induction k as [|k IH]; intros Hk.
  - cbn. f_equal. apply list_eq. intros j. rewrite list_lookup_imap.
    by destruct (chans !! j).
  - rewrite seq_S, foldl_app, IH by lia. cbn [foldl Nat.add].
    unfold fillNextChannel at 1. rewrite list_lookup_imap.
    destruct (chans !! k) as [cd|] eqn:Hcd;
      [|apply lookup_ge_None in Hcd; lia].
    cbn [fmap option_fmap option_map]. rewrite decide_False by lia.
    f_equal. apply list_eq. intros j.
    destruct (decide (j = k)) as [->|Hne].
    + rewrite list_lookup_insert_eq by (rewrite length_imap; lia).
      rewrite list_lookup_imap, Hcd. cbn. by rewrite decide_True by lia.
    + rewrite list_lookup_insert_ne by done. rewrite !list_lookup_imap.
      destruct (chans !! j); [|done]. cbn.
      repeat case_decide; done || lia.
Qed.

Lemma fillChannels_replicate d nc iters len z :
  (len ≤ iters)%nat →
  fillChannels d nc iters (replicate nc (replicate len z))
  = inr ((λ ch, (λ i, normalized (d !! (i * nc + ch)%nat)) <$> seq 0 len)
           <$> seq 0 nc).
Proof.
  intros Hle. unfold fillChannels.
  rewrite fillChannels_prefix by (by rewrite length_replicate).
  f_equal. apply list_eq. intros j.
  rewrite list_lookup_imap, list_lookup_fmap.
  destruct (decide (j < nc)%nat) as [Hj|Hj].
  - rewrite lookup_replicate_2, lookup_seq_lt by done. cbn.
    rewrite ?decide_True by done. by rewrite fillChannel_replicate.
  - rewrite (lookup_ge_None_2 (replicate _ _)) by (rewrite length_replicate; lia). by rewrite lookup_seq_ge by lia.
Qed.

Lemma frameCount_truncate (n : nat) (nc : N) :
  (0 < nc)%N →
  JsNumber.truncate (JsNumber.of_nat n / inject_Z (Z.of_N nc))
  = Z.of_nat n / Z.of_N nc.
Proof.
  intros Hnc. destruct nc as [|p]; [lia|].
  unfold JsNumber.truncate, JsNumber.of_nat. cbn.
  rewrite Z.mul_1_r. apply Z.quot_div_nonneg; lia.
Qed.

Lemma frameCount_ceiling (n : nat) (nc : N) :
  (0 < nc)%N →
  Z.of_nat n / Z.of_N nc
  <= Qceiling (JsNumber.of_nat n / inject_Z (Z.of_N nc)).
Proof.
  intros Hnc. destruct nc as [|p]; [lia|].
  unfold Qceiling, Qfloor, JsNumber.of_nat. cbn.
  rewrite Z.mul_1_r. Z.div_mod_to_equations. nia.
Qed.

Lemma Z_div_of_nat (a b : nat) : Z.of_nat (a / b) = Z.of_nat a / Z.of_nat b.
Proof. apply Nat2Z.inj_div. Qed.

(** Once a channel is missing the outer loop has thrown. *)
Lemma fillChannels_thrown d nc iters e (l : list nat) :
  foldl (fillNextChannel d nc iters) (inl e) l = inl e.
Proof. induction l as [|x l IH]; [done | apply IH]. Qed.

Lemma fillChannels_inr d nc iters chans chans' :
  fillChannels d nc iters chans = inr chans' →
  (nc ≤ length chans)%nat
  ∧ chans' = imap (λ ch cd, if decide (ch < nc)%nat
                            then fillChannel d nc ch iters cd else cd) chans.
Proof.
  intros H. destruct (decide (nc ≤ length chans)%nat) as [Hle|Hgt].
  - split; [done|]. unfold fillChannels in H.
    rewrite fillChannels_prefix in H by done. by injection H as <-.
  - exfalso. unfold fillChannels in H.
    replace nc with (length chans + S (nc - S (length chans)))%nat in H at 2
      by lia.
    rewrite seq_app, foldl_app, fillChannels_prefix in H by done.
    cbn [seq foldl Nat.add] in H. unfold fillNextChannel at 2 in H.
    rewrite list_lookup_imap in H.
    rewrite (lookup_ge_None_2 chans) in H by lia. cbn in H.
    by rewrite fillChannels_thrown in H.
Qed.

(** What a returned buffer holds: frame [i] of channel [ch] is the
    normalized element [i * numChannels + ch] of the 16-bit view, which
    exists. *)
Lemma decodeAudioData_channels data ctx sampleRate numChannels buf ch i :
  decodeAudioData data ctx sampleRate numChannels = inr buf →
  (ch < N.to_nat numChannels)%nat → (i < N.to_nat (frames buf))%nat →
  ∃ s, int16_elements data !! (i * N.to_nat numChannels + ch)%nat = Some s
       ∧ channels buf !! ch ≫= (.!! i) = Some (normalized (Some s)).
Proof.
  unfold decodeAudioData, Int16Array.
  destruct (length data mod 2 =? 0)%nat; [|done].
  set (d := int16_elements data).
  set (q := (JsNumber.of_nat (length d) / inject_Z (Z.of_N numChannels))%Q).
  unfold createBuffer.
  destruct ((numChannels mod 2 ^ 32 =? 0)
            || (maxNumberOfChannels ctx <? numChannels mod 2 ^ 32)
            || (unsigned_long q =? 0) || (sampleRate <? minSampleRate ctx)
            || (maxSampleRate ctx <? sampleRate))%N eqn:Hargs; [done|].
  cbn [channels frames numberOfChannels Codec.sampleRate].
  destruct (fillChannels _ _ _ _) as [e|chans'] eqn:Hfill; [done|].
  intros [= <-] Hch Hi. cbn [channels frames] in *.
  apply fillChannels_inr in Hfill as [Hnc ->].
  rewrite length_replicate in Hnc.
  assert (0 < numChannels)%N as Hpos.
  { destruct numChannels; [|lia]. by cbn in Hargs. }
  set (whole := Z.of_nat (length d) / Z.of_N numChannels).
  assert (0 <= whole) as Hwhole by (apply Z.div_pos; lia).
  assert (Z.of_N (unsigned_long q) <= whole) as Hframes.
  { unfold unsigned_long, JsNumber.ToUint32, q.
    rewrite frameCount_truncate by done. fold whole.
    pose proof (Z.mod_le whole (2 ^ 32)).
    pose proof (Z.mod_pos_bound whole (2 ^ 32)). lia. }
  assert (N.to_nat (unsigned_long q) ≤ Z.to_nat (Qceiling q))%nat as Hiter.
  { pose proof (frameCount_ceiling (length d) numChannels Hpos) as Hceil.
    fold q whole in Hceil. lia. }
  assert (i * N.to_nat numChannels + ch < length d)%nat as Hidx.
  { assert (Z.of_N numChannels * whole <= Z.of_nat (length d))
      by (apply Z.mul_div_le; lia).
    nia. }
  destruct (lookup_lt_is_Some_2 d _ Hidx) as [s Hs].
  exists s. split; [done|].
  rewrite list_lookup_imap, lookup_replicate_2 by lia. cbn.
  rewrite decide_True by done.
  rewrite fillChannel_lookup, length_replicate.
  rewrite decide_True by lia. by rewrite Hs.
Qed.

(** C5, for the buffers the conversion accepts. A buffer of odd length
    is rejected with a [RangeError]. For a buffer of even length, a channel count and a sample
    rate the context supports, and a frame count
    [len / 2 / numChannels] between 1 and [2^32 - 1], the conversion
    returns a buffer with exactly that many frames in each of its
    [numChannels] channels: frame [i] of channel [ch] is the normalized
    sample [i * numChannels + ch], and the samples after the last complete
    frame are left out. *)
Theorem decodeAudioData_frames
    (data : list byte) (ctx : AudioContext) (sampleRate numChannels : N) :
  ((length data mod 2 = 1)%nat →
   decodeAudioData data ctx sampleRate numChannels = inl RangeError)
  ∧ ((length data mod 2 = 0)%nat →
     (1 ≤ numChannels ≤ maxNumberOfChannels ctx)%N →
     (numChannels < 2 ^ 32)%N →
     (minSampleRate ctx ≤ sampleRate ≤ maxSampleRate ctx)%N →
     let frameCount := (length data / 2 / N.to_nat numChannels)%nat in
     (1 ≤ frameCount)%nat → Z.of_nat frameCount < 2 ^ 32 →
     ∃ buf,
       decodeAudioData data ctx sampleRate numChannels = inr buf
       ∧ frames buf = N.of_nat frameCount
       ∧ numberOfChannels buf = numChannels
       ∧ length (channels buf) = N.to_nat numChannels
       ∧ Forall (λ channelData, length channelData = frameCount)
           (channels buf)
       ∧ ∀ ch i, (ch < N.to_nat numChannels)%nat → (i < frameCount)%nat →
           ∃ s, int16_elements data !! (i * N.to_nat numChannels + ch)%nat
                  = Some s
                ∧ channels buf !! ch ≫= (.!! i)
                  = Some (normalized (Some s))).
Proof.
  split.
  - intros Hodd. unfold decodeAudioData, Int16Array.
    by rewrite Hodd.
  - intros Heven Hnc Hnc32 Hsr frameCount Hone Hmax.
    unfold decodeAudioData, Int16Array. rewrite Heven. cbn [Nat.eqb].
    set (d := int16_elements data).
    assert (length d = (length data / 2)%nat) as Hd
      by apply length_int16_elements.
    set (q := (JsNumber.of_nat (length d) / inject_Z (Z.of_N numChannels))%Q).
    assert (Z.of_nat frameCount = Z.of_nat (length d) / Z.of_N numChannels)
      as Hfc.
    { unfold frameCount. rewrite Nat2Z.inj_div, <-Hd. f_equal. lia. }
    assert (unsigned_long q = N.of_nat frameCount) as Hlen.
    { unfold unsigned_long, JsNumber.ToUint32, q.
      rewrite frameCount_truncate by lia. rewrite <-Hfc.
      rewrite Z.mod_small by lia. lia. }
    assert (frameCount ≤ Z.to_nat (Qceiling q))%nat as Hiter.
    { pose proof (frameCount_ceiling (length d) numChannels). unfold q. lia. }
    unfold createBuffer. fold q. rewrite Hlen.
    rewrite N.mod_small by done.
    assert (((numChannels =? 0) || (maxNumberOfChannels ctx <? numChannels)
             || (N.of_nat frameCount =? 0)
             || (sampleRate <? minSampleRate ctx)
             || (maxSampleRate ctx <? sampleRate))%N = false) as ->.
    { repeat (apply orb_false_iff; split);
        first [apply N.eqb_neq | apply N.ltb_ge]; lia. }
    cbn [channels frames numberOfChannels Codec.sampleRate].
    rewrite Nat2N.id.
    rewrite fillChannels_replicate by done.
    eexists. split; [reflexivity|].
    cbn [channels frames numberOfChannels Codec.sampleRate].
    split; [done|]. split; [done|].
    split; [by rewrite length_fmap, length_seq|].
    split.
    + apply Forall_fmap, Forall_forall. intros ch _. cbn.
      by rewrite length_fmap, length_seq.
    + intros ch i Hch Hi.
      assert (i * N.to_nat numChannels + ch < length d)%nat as Hidx.
      { assert (Z.of_nat i * Z.of_N numChannels + Z.of_nat ch
                < Z.of_nat (length d)); [|lia].
        assert (Z.of_nat i + 1 <= Z.of_nat (length d) / Z.of_N numChannels)
          by lia.
        assert (Z.of_N numChannels * (Z.of_nat (length d) / Z.of_N numChannels)
                <= Z.of_nat (length d)) by (apply Z.mul_div_le; lia).
        nia. }
      destruct (lookup_lt_is_Some_2 d _ Hidx) as [s Hs].
      exists s. split; [done|].
      rewrite list_lookup_fmap, lookup_seq_lt by done. cbn.
      rewrite list_lookup_fmap, lookup_seq_lt by done. cbn.
      by rewrite Hs.
Qed.

Lemma decodeAudioData_frames_witness :
  ∃ buf,
    decodeAudioData [x00; x00; xff; x7f; x00; x80; x01; x00; xff; xff]
      baselineContext 24000 2 = inr buf
    ∧ frames buf = 2%N
    ∧ Forall (λ channelData, length channelData = 2%nat) (channels buf).
Proof.
  destruct (decodeAudioData_frames
              [x00; x00; xff; x7f; x00; x80; x01; x00; xff; xff]
              baselineContext 24000 2) as [_ H].
  destruct H as (buf & Hbuf & Hframes & _ & _ & Hlen & _);
    [reflexivity | done | done | done | vm_compute; lia | by vm_compute |].
  exists buf. repeat split; assumption.
Defined.

(** C5 does not extend to every buffer: for three bytes and one channel
    the conversion does not return the one complete frame, it throws. *)
Lemma decodeAudioData_odd_length_throws :
  decodeAudioData [x00; x00; x00] baselineContext 24000 1 = inl RangeError
  ∧ ¬ ∃ buf, decodeAudioData [x00; x00; x00] baselineContext 24000 1 = inr buf
             ∧ frames buf = N.of_nat (3 / 2 / 1).
Proof.
  split; [reflexivity|]. intros (buf & Hbuf & _). discriminate Hbuf.
Qed.

Lemma holdsFrom_spec bits base f s :
  holdsFrom bits base f = true →
  base <= s < base + 2 ^ Z.of_nat bits → f s = true.
Proof.
  revert base. induction bits as [|bits IH]; intros base Hall Hs.
  - cbn in Hall. change (2 ^ Z.of_nat 0) with 1 in Hs.
    by replace s with base by lia.
  - cbn [holdsFrom] in Hall. apply andb_prop in Hall as [Hlo Hhi].
    rewrite Nat2Z.inj_succ, Z.pow_succ_r in Hs by lia.
    destruct (Z_lt_dec s (base + 2 ^ Z.of_nat bits)).
    + apply (IH base); [done | lia].
    + apply (IH (base + 2 ^ Z.of_nat bits)); [done | lia].
Qed.

Lemma div_eucl_by_2_52 (m : positive) :
  Z.div_eucl (Z.shiftl (Z.pos m) 53) 4503599627370496 = (Z.pos m~0, 0).
Proof.
  pose proof (Z.div_eucl_eq (Z.shiftl (Z.pos m) 53) 4503599627370496) as Heq.
  pose proof (Z.mod_pos_bound (Z.shiftl (Z.pos m) 53) 4503599627370496) as Hr.
  unfold Z.modulo in Hr.
  destruct (Z.div_eucl _ _) as [q r].
  rewrite Z.shiftl_mul_pow2 in Heq by lia.
  change (2 ^ 53) with 9007199254740992 in Heq.
  assert (q = Z.pos m~0 ∧ r = 0) as [-> ->]; [|done].
  rewrite Pos2Z.inj_xO. lia.
Qed.

Lemma float64_div_32768 (sx : bool) (mx : positive) (ex : Z) :
  digits2_pos mx = 53%positive → -52 <= ex <= -37 →
  float64_div (S754_finite sx mx ex) (float64_of_Z 32768)
  = S754_finite sx mx (ex - 15).
Proof.
  intros Hd Hex.
  change (float64_of_Z 32768) with (S754_finite false 4503599627370496 (-37)).
  unfold float64_div, SFdiv, SFdiv_core_binary. cbv zeta.
  change (Zdigits2 (Z.pos mx)) with (Z.pos (digits2_pos mx)). rewrite Hd.
  change (Zdigits2 4503599627370496) with 53.
  unfold fexp, emin.
  replace (Z.min (Z.max (53 + ex - (53 + -37) - 53) (3 - 1024 - 53))
             (ex - -37)) with (ex - 16) by lia.
  replace (ex - -37 - (ex - 16)) with 53 by lia.
  cbv beta iota.
  rewrite div_eucl_by_2_52.
  change (new_location 4503599627370496 0) with loc_Exact.
  unfold binary_round_aux, shr_fexp.
  change (Zdigits2 (Z.pos mx~0)) with (Z.pos (Pos.succ (digits2_pos mx))).
  rewrite Hd. change (Pos.succ 53) with 54%positive.
  unfold fexp, emin.
  replace (Z.max (54 + (ex - 16) - 53) (3 - 1024 - 53) - (ex - 16)) with 1
    by lia.
  cbn [shr shr_record_of_loc SpecFloat.iter_pos shr_1 orb shr_m loc_of_shr_record
       round_nearest_even].
  change (Zdigits2 (Z.pos mx)) with (Z.pos (digits2_pos mx)). rewrite Hd.
  replace (Z.max (53 + (ex - 16 + 1) - 53) (3 - 1024 - 53) - (ex - 16 + 1))
    with 0 by lia.
  cbn [shr shr_m].
  rewrite (proj2 (Z.leb_le _ _)) by lia.
  rewrite xorb_false_r. f_equal. lia.
Qed.
Lemma normalizedExactly_sound s :
  normalizedExactly s = true → denotesSample s (normalized (Some s)) = true.
Proof.
  unfold normalizedExactly, normalized.
  destruct (float64_of_Z s) as [sx| | |sx mx ex]; try done.
  intros H. apply andb_prop in H as [H Hok].
  apply andb_prop in H as [H Hhi]. apply andb_prop in H as [Hd Hlo].
  apply Pos.eqb_eq in Hd. apply Z.leb_le in Hlo, Hhi.
  by rewrite float64_div_32768.
Qed.

Lemma all_int16_normalizedExactly :
  holdsFrom 16 (-32768) normalizedExactly = true.
Proof. vm_compute. reflexivity. Qed.

Lemma denotesSample_spec s x :
  denotesSample s x = true →
  ∃ q : Q,
    float_value x = Some q
    ∧ (q == inject_Z s / inject_Z 32768)%Q
    ∧ (-1 <= q)%Q ∧ (q < 1)%Q
    ∧ (-32768 < s → (-1 < q)%Q)
    ∧ (s = -32768 → (q == -1)%Q).
Proof.
  unfold denotesSample. intros Hok.
  destruct (float_value x) as [q|]; [|discriminate Hok].
  exists q. split; [done|].
  apply andb_prop in Hok as [Hok Hlow].
  apply andb_prop in Hok as [Hok Hlt]. apply andb_prop in Hok as [Heq Hge].
  apply Qeq_bool_iff in Heq. apply Qle_bool_iff in Hge.
  apply negb_true_iff in Hlt.
  assert (q < 1)%Q as Hlt1.
  { apply Qnot_le_lt. intros Hle. apply Qle_bool_iff in Hle. congruence. }
  repeat split; try done.
  - intros Hgt. destruct (Z.eqb_spec s (-32768)) as [->|_]; [lia|].
    apply negb_true_iff in Hlow.
    apply Qnot_le_lt. intros Hle. apply Qle_bool_iff in Hle. congruence.
  - intros ->. cbn [Z.eqb Pos.eqb] in Hlow. by apply Qeq_bool_iff in Hlow.
Qed.

(** C6. For every signed 16-bit value [s], the float the conversion
    stores for it is finite and denotes exactly [s / 32768]; it lies in
    [[-1, 1)], is above [-1] for [s > -32768], and is [-1] at
    [s = -32768]. Every float of a buffer [decodeAudioData] returns is the
    one stored for a 16-bit sample of the input, the sample
    [i * numChannels + ch] for frame [i] of channel [ch]. *)
Theorem sample_normalization :
  (∀ s : Z,
     -32768 <= s <= 32767 →
     ∃ q : Q,
       float_value (normalized (Some s)) = Some q
       ∧ (q == inject_Z s / inject_Z 32768)%Q
       ∧ (-1 <= q)%Q ∧ (q < 1)%Q
       ∧ (-32768 < s → (-1 < q)%Q)
       ∧ (s = -32768 → (q == -1)%Q))
  ∧ (∀ data ctx sampleRate numChannels buf ch i,
       decodeAudioData data ctx sampleRate numChannels = inr buf →
       (ch < N.to_nat numChannels)%nat → (i < N.to_nat (frames buf))%nat →
       ∃ s, int16_elements data !! (i * N.to_nat numChannels + ch)%nat = Some s
            ∧ -32768 <= s <= 32767
            ∧ channels buf !! ch ≫= (.!! i) = Some (normalized (Some s))).
Proof.
  split.
  - intros s Hs. apply denotesSample_spec, normalizedExactly_sound.
    apply (holdsFrom_spec 16 (-32768)); [apply all_int16_normalizedExactly|].
    change (2 ^ Z.of_nat 16) with 65536. lia.
  - intros data ctx sampleRate numChannels buf ch i Hbuf Hch Hi.
    destruct (decodeAudioData_channels _ _ _ _ _ _ _ Hbuf Hch Hi)
      as (s & Hs & Hstored).
    exists s. split; [done|]. split; [|done].
    pose proof (int16_elements_range data) as Hrange.
    rewrite list.Forall_forall in Hrange.
    apply Hrange. by eapply list_elem_of_lookup_2.
Qed.

Lemma sample_normalization_witness :
  (∃ q : Q,
     float_value (normalized (Some 16384)) = Some q
     ∧ (q == 1 # 2)%Q ∧ (-1 <= q)%Q ∧ (q < 1)%Q)
  ∧ ∃ buf s,
      decodeAudioData [x00; x40; x00; x80] baselineContext 24000 1 = inr buf
      ∧ -32768 <= s <= 32767
      ∧ channels buf !! 0%nat ≫= (.!! 1%nat) = Some (normalized (Some s)).
Proof.
  destruct sample_normalization as [Hvalue Hstored]. split.
  - destruct (Hvalue 16384) as (q & Hq & Heq & Hge & Hlt & _); [lia|].
    exists q. repeat split; try assumption.
    rewrite Heq. reflexivity.
  - destruct (decodeAudioData [x00; x40; x00; x80] baselineContext 24000 1)
      as [e|buf] eqn:Hbuf; [by vm_compute in Hbuf|].
    destruct (Hstored _ _ _ _ buf 0%nat 1%nat Hbuf)
      as (s & _ & Hrange & Hsample).
    + cbn. lia.
    + vm_compute in Hbuf. injection Hbuf as <-. cbn. lia.
    + exists buf, s. split; [reflexivity|]. split; [exact Hrange|].
      exact Hsample.
Defined.

End CodecFacts.

(** ** Voice recommendation *)

Section VoiceFacts.
Import JsString Exn Voice.

Lemma fallbackVoices_cases audioPrompt :
  fallbackVoices audioPrompt =
    if mentionsFemale audioPrompt then [js "Kore"]
    else [js "Puck"; js "Zephyr"; js "Charon"].
Proof. reflexivity. Qed.

Lemma fallbackVoices_valid audioPrompt :
  fallbackVoices audioPrompt ≠ []
  ∧ (1 ≤ length (fallbackVoices audioPrompt) ≤ 3)%nat
  ∧ Forall (λ v, v ∈ validVoices) (fallbackVoices audioPrompt).
Proof.
  unfold fallbackVoices. destruct (mentionsFemale audioPrompt).
  - split; [done|]. split; [cbn; lia|].
    repeat constructor; apply (bool_decide_unpack _); by vm_compute.
  - split; [done|]. split; [cbn; lia|].
    repeat constructor; apply (bool_decide_unpack _); by vm_compute.
Qed.

(** What the function returns in each case: the valid names of the
    response in their order when there is one, the fallback otherwise. *)
Lemma recommendVoicesFromPrompt_cases audioPrompt response :
  let usable :=
    match response with
    | Resolved (Some text) =>
      filter (λ v, v ∈ validVoices) (trim <$> split comma (trim text))
    | _ => []
    end in
  recommendVoicesFromPrompt audioPrompt response =
    match usable with
    | [] => fallbackVoices audioPrompt
    | _ :: _ => usable
    end.
Proof.
  destruct response as [[text|]|err]; cbn; try done.
  by destruct (filter _ _).
Qed.

Example js_literal : js "여성" = [0xC5EC; 0xC131]%N ∧ js "Kore" = [75; 111; 114; 101]%N.
Proof. split; reflexivity. Qed.

Example split_then_trim :
  trim <$> split comma (trim (js " Kore, Puck ,,Nova
")) = [js "Kore"; js "Puck"; []; js "Nova"].
Proof. reflexivity. Qed.

Example mentionsFemale_examples :
  mentionsFemale (js "젊은 여자의 밝은 목소리") = true
  ∧ mentionsFemale (js "차분한 중년 남성") = false.
Proof. split; reflexivity. Qed.

(** The result is never empty and holds catalog names only. *)
Lemma recommendVoicesFromPrompt_valid audioPrompt response :
  recommendVoicesFromPrompt audioPrompt response ≠ []
  ∧ Forall (λ v, v ∈ validVoices)
      (recommendVoicesFromPrompt audioPrompt response).
Proof.
  rewrite recommendVoicesFromPrompt_cases. cbn zeta.
  destruct (fallbackVoices_valid audioPrompt) as (Hne & _ & Hvalid).
  destruct response as [[text|]|err]; try done.
  destruct (filter _ _) as [|v vs] eqn:Hf; [done|].
  split; [done|]. rewrite <-Hf. apply list.Forall_forall. intros x Hx.
  by apply list_elem_of_filter in Hx as [Hx _].
Qed.

(** When the call fails or names no catalog voice the result is the
    fallback: [Kore] for a prompt with a female marker, the three male
    defaults otherwise. *)
Lemma recommendVoicesFromPrompt_fallback audioPrompt response :
  match response with
  | Resolved (Some text) =>
    filter (λ v, v ∈ validVoices) (trim <$> split comma (trim text)) = []
  | _ => True
  end →
  recommendVoicesFromPrompt audioPrompt response =
    if mentionsFemale audioPrompt then [js "Kore"]
    else [js "Puck"; js "Zephyr"; js "Charon"].
Proof.
  intros H. rewrite recommendVoicesFromPrompt_cases. cbn zeta.
  destruct response as [[text|]|err]; try done. by rewrite H.
Qed.

(** C4. The cap at three voices, which the documentation of
    [recommendVoicesFromPrompt] states, is not enforced: for a response that
    names four catalog voices the function returns all four. *)
Theorem recommendVoicesFromPrompt_returns_four :
  recommendVoicesFromPrompt (js "차분한 중년 남성의 목소리")
    (Resolved (Some (js "Charon,Puck,Zephyr,Fenrir")))
  = [js "Charon"; js "Puck"; js "Zephyr"; js "Fenrir"]
  ∧ length (recommendVoicesFromPrompt (js "차분한 중년 남성의 목소리")
              (Resolved (Some (js "Charon,Puck,Zephyr,Fenrir")))) = 4%nat.
Proof. split; by vm_compute. Qed.

End VoiceFacts.

(** ** Workflow controller *)

Section WorkflowFacts.
Import JsString Exn App.

Ltac run_handlers :=
  unfold handleGenerateImage, handleRegenerateImages, handleImageSelect,
    analyzeAndGeneratePrompt, handleSwitchPromptType, handleReset,
    handleError, suspended, settled, issued.

Lemma handleGenerateImage_nonempty prompt s :
  prompt ≠ [] →
  ∃ resume,
    handleGenerateImage prompt s =
      Await (setSelectedImage None
               (setGeneratedImages []
                  (setError None
                     (setLoadingMessage (js "AI가 멋진 이미지를 만들고 있어요...")
                        (setAppState GENERATING_IMAGE
                           (setLastPrompt prompt s))))))
            (generateImage prompt) resume
    ∧ (∀ images s', resume (Resolved images) s' =
         setAppState SELECTING_IMAGE (setGeneratedImages images s'))
    ∧ (∀ err s', resume (Rejected err) s' =
         handleError (js "이미지 생성 중 오류가 발생했습니다.") s').
Proof.
  intros Hne. destruct prompt as [|c prompt]; [done|].
  eexists. split; [reflexivity|]. split; reflexivity.
Qed.

Lemma handleReset_fields s :
  let s' := handleReset s in
  appState s' = IDLE ∧ generatedImages s' = [] ∧ selectedImage s' = None
  ∧ audioPrompt s' = [] ∧ error s' = None ∧ lastPrompt s' = []
  ∧ promptType s' = VOICE ∧ loadingMessage s' = []
  ∧ isSwitchingPrompt s' = isSwitchingPrompt s.
Proof. repeat split. Qed.

Lemma offered_ERROR s t :
  appState s = ERROR → offered s t = true → t = Reset.
Proof.
  unfold offered. intros ->. by destruct t.
Qed.

(** C3. From IDLE, a non-empty description moves the workflow to
    GENERATING_IMAGE and issues the image request; a non-empty image set
    moves it to SELECTING_IMAGE with the images stored; selecting one of
    them moves it to ANALYZING_IMAGE with that image selected; a prompt
    text moves it to SHOWING_RESULT with kind VOICE; reset then gives IDLE
    with the images, the selected image, the prompt text, the error, the
    last description and the kind at their initial values. *)
Theorem workflow_scenario
    (s0 : Session) (description : jsstring) (images : list ImageInfo)
    (image : ImageInfo) (text : jsstring) :
  appState s0 = IDLE → description ≠ [] → images ≠ [] → image ∈ images →
  let r1 := handleGenerateImage description s0 in
  let s1 := suspended r1 in
  let s2 := settled r1 (Resolved images) in
  let r3 := handleImageSelect image s2 in
  let s3 := suspended r3 in
  let s4 := settled r3 (Resolved text) in
  let s5 := handleReset s4 in
  (appState s1 = GENERATING_IMAGE
   ∧ issued r1 = Some (generateImage description)
   ∧ lastPrompt s1 = description)
  ∧ (appState s2 = SELECTING_IMAGE ∧ generatedImages s2 = images
     ∧ offered s2 (Select image) = true)
  ∧ (appState s3 = ANALYZING_IMAGE ∧ selectedImage s3 = Some image
     ∧ issued r3 =
         Some (generateVoicePromptFromImage (base64 image) (mimeType image)))
  ∧ (appState s4 = SHOWING_RESULT ∧ promptType s4 = VOICE
     ∧ audioPrompt s4 = text ∧ selectedImage s4 = Some image)
  ∧ (appState s5 = IDLE ∧ generatedImages s5 = []
     ∧ selectedImage s5 = None ∧ audioPrompt s5 = [] ∧ error s5 = None
     ∧ lastPrompt s5 = [] ∧ promptType s5 = VOICE
     ∧ generatedImages s5 = generatedImages initialSession
     ∧ selectedImage s5 = selectedImage initialSession
     ∧ audioPrompt s5 = audioPrompt initialSession
     ∧ error s5 = error initialSession
     ∧ lastPrompt s5 = lastPrompt initialSession
     ∧ promptType s5 = promptType initialSession).
Proof.
  intros Hidle Hd Hi Hin.
  destruct description as [|c description]; [done|].
  cbn zeta. run_handlers. cbn.
  repeat split; try reflexivity.
  by apply bool_decide_eq_true.
Qed.

Lemma workflow_scenario_witness :
  let images :=
    [ {| base64 := js "aW1hZ2Ux"; mimeType := js "image/png" |};
      {| base64 := js "aW1hZ2Uy"; mimeType := js "image/png" |};
      {| base64 := js "aW1hZ2Uz"; mimeType := js "image/png" |} ] in
  let image := {| base64 := js "aW1hZ2Uy"; mimeType := js "image/png" |} in
  let r1 := handleGenerateImage (js "a quiet cat by a window") initialSession in
  let r3 := handleImageSelect image (settled r1 (Resolved images)) in
  appState (suspended r1) = GENERATING_IMAGE
  ∧ appState (settled r1 (Resolved images)) = SELECTING_IMAGE
  ∧ appState (suspended r3) = ANALYZING_IMAGE
  ∧ appState (settled r3 (Resolved (js "..."))) = SHOWING_RESULT
  ∧ promptType (settled r3 (Resolved (js "..."))) = VOICE
  ∧ handleReset (settled r3 (Resolved (js "..."))) = initialSession.
Proof.
  intros images image r1 r3.
  assert (image ∈ images) as Hin by (apply (bool_decide_unpack _); by vm_compute).
  destruct (workflow_scenario initialSession (js "a quiet cat by a window")
              images image (js "...") eq_refl ltac:(by vm_compute)
              ltac:(by vm_compute) Hin)
    as [[H1 _] [[H2 _] [[H3 _] [[H4 [H4' _]] _]]]].
  split; [exact H1|]. split; [exact H2|]. split; [exact H3|].
  split; [exact H4|]. split; [exact H4' | reflexivity].
Defined.

(** C7. A switch requested while another one is in flight, or towards
    the kind already shown, returns at once: no service call is issued and
    the session is the one the call found, whatever would settle later. *)
Theorem switch_rejected (newType : PromptType) (s : Session) :
  isSwitchingPrompt s = true ∨ newType = promptType s →
  let r := handleSwitchPromptType newType s in
  r = Done s ∧ issued r = None ∧ suspended r = s
  ∧ ∀ outcome, settled r outcome = s.
Proof.
  intros H. cbn zeta.
  assert (handleSwitchPromptType newType s = Done s) as ->.
  { unfold handleSwitchPromptType. destruct (selectedImage s); [|done].
    destruct H as [-> | ->]; [done|].
    by rewrite bool_decide_eq_true_2, orb_true_r. }
  done.
Qed.

Lemma switch_rejected_witness :
  let s := setIsSwitchingPrompt true
             (setSelectedImage
                (Some {| base64 := js "aW1hZ2Ux"; mimeType := js "image/png" |})
                (setAppState SHOWING_RESULT initialSession)) in
  handleSwitchPromptType SOUNDSCAPE s = Done s
  ∧ handleSwitchPromptType VOICE (setIsSwitchingPrompt false s)
    = Done (setIsSwitchingPrompt false s).
Proof.
  intros s. split.
  - apply (switch_rejected SOUNDSCAPE s). left. reflexivity.
  - apply (switch_rejected VOICE (setIsSwitchingPrompt false s)).
    right. reflexivity.
Defined.

(** C8. An accepted switch sets the guard and issues one call. When the
    call is rejected, the prompt text becomes the error prefix followed by
    the message and the kind is left as it was; the guard is cleared
    whether the call resolves, is rejected, or the [catch] block itself
    throws. *)
Theorem switch_failure
    (newType : PromptType) (s : Session) (image : ImageInfo) :
  selectedImage s = Some image → isSwitchingPrompt s = false →
  newType ≠ promptType s →
  ∃ s1 request resume,
    handleSwitchPromptType newType s = Await s1 request resume
    ∧ isSwitchingPrompt s1 = true
    ∧ (∀ err str s2, rendering err = Some str →
         audioPrompt (resume (Rejected err) s2)
           = js "프롬프트 생성 중 오류 발생: " ++ str
         ∧ promptType (resume (Rejected err) s2) = promptType s2)
    ∧ (∀ err, promptType (resume (Rejected err) s1) = promptType s)
    ∧ (∀ outcome s2, isSwitchingPrompt (resume outcome s2) = false).
Proof.
  intros Himg Hsw Hne. unfold handleSwitchPromptType.
  rewrite Himg, Hsw, bool_decide_eq_false_2 by done. cbn [orb].
  eexists _, _, _. split; [reflexivity|].
  split; [reflexivity|]. split; [|split].
  - intros [message | [str'|]] str s2 [= <-]; done.
  - intros [message | [str'|]]; done.
  - intros [newPrompt | [message | [str'|]]] s2; done.
Qed.

Lemma switch_failure_witness :
  let s := setSelectedImage
             (Some {| base64 := js "aW1hZ2Ux"; mimeType := js "image/png" |})
             (setAppState SHOWING_RESULT initialSession) in
  let r := handleSwitchPromptType SOUNDSCAPE s in
  isSwitchingPrompt (suspended r) = true
  ∧ promptType (settled r (Rejected (ErrorObject (js "quota")))) = VOICE
  ∧ isSwitchingPrompt (settled r (Rejected (ErrorObject (js "quota"))))
    = false.
Proof.
  intros s r.
  destruct (switch_failure SOUNDSCAPE s
              {| base64 := js "aW1hZ2Ux"; mimeType := js "image/png" |})
    as (s1 & request & resume & Hr & Hguard & _ & Hkind & Hfinally);
    [reflexivity | reflexivity | discriminate |].
  subst r. rewrite Hr. cbn [suspended settled].
  split; [exact Hguard|]. split; [apply Hkind | apply Hfinally].
Defined.

(** From ERROR with nothing pending the one task is the reset. *)
Lemma task_from_ERROR s w' :
  appState s = ERROR →
  task {| session := s; pending := [] |} w'
  ↔ w' = {| session := handleReset s; pending := [] |}.
Proof.
  intros Herror. split.
  - intros Htask. inversion Htask as
      [s0 ps prompt Hoffered | s0 ps fileType Hoffered
      | s0 ps image Hoffered | s0 ps Hoffered | s0 ps newType Hoffered
      | s0 ps Hoffered | s0 ps1 fileType ps2 event r Hr Hw
      | s0 ps1 resume ps2 outcome Hw | s0 ps1 resume ps2 outcome Hw
      | s0 ps Hblank]; subst;
      try (apply (offered_ERROR _ _ Herror) in Hoffered; discriminate Hoffered);
      try (by destruct ps1).
    + done.
    + unfold renderContent in Hblank. by rewrite Herror in Hblank.
  - intros ->. apply task_reset. unfold offered. by rewrite Herror.
Qed.

(** C9. A rejected image generation puts the workflow in ERROR with an
    error message stored, whatever ran while the call was in flight; the
    error screen offers nothing but reset; with no file read and no
    service call pending, the reset is the only task that can run from
    that state; and reset gives IDLE with no images, no selected image
    and no prompt. *)
Theorem generation_failure
    (prompt : jsstring) (s s1 : Session) (err : Thrown) :
  prompt ≠ [] →
  let r := handleGenerateImage prompt s in
  let s' := settledAt r (Rejected err) s1 in
  (appState s' = ERROR
   ∧ error s' = Some (js "이미지 생성 중 오류가 발생했습니다."))
  ∧ (∀ t, offered s' t = true → t = Reset)
  ∧ (∀ w', task {| session := s'; pending := [] |} w'
           ↔ w' = {| session := handleReset s'; pending := [] |})
  ∧ (offered s' Reset = true
     ∧ appState (handleReset s') = IDLE
     ∧ generatedImages (handleReset s') = []
     ∧ selectedImage (handleReset s') = None
     ∧ audioPrompt (handleReset s') = []).
Proof.
  intros Hne. destruct prompt as [|c prompt]; [done|]. cbn zeta.
  split; [done|]. split; [|split; [|done]].
  - intros t. by apply offered_ERROR.
  - intros w'. by apply task_from_ERROR.
Qed.

Lemma generation_failure_witness :
  let r := handleGenerateImage (js "a quiet cat by a window") initialSession in
  let s' := settledAt r (Rejected (ErrorObject (js "503"))) (suspended r) in
  appState s' = ERROR
  ∧ task {| session := s'; pending := [] |}
         {| session := handleReset s'; pending := [] |}
  ∧ handleReset s' = initialSession.
Proof.
  intros r s'.
  destruct (generation_failure (js "a quiet cat by a window") initialSession
              (suspended r) (ErrorObject (js "503")))
    as ([H _] & _ & Htask & _); [by vm_compute|].
  split; [exact H|]. split; [by apply Htask | reflexivity].
Defined.

(** A file still being read when the generation fails: its reader calls
    back in ERROR and starts the analysis, with no reset. *)
Lemma generation_failure_pending_upload :
  let s0 := handleImageUpload initialSession in
  let r := handleGenerateImage (js "a quiet cat by a window") s0 in
  let s' := settledAt r (Rejected (ErrorObject (js "503"))) (suspended r) in
  let w := {| session := s'; pending := [Reading (js "image/png")] |} in
  rtc task loaded w
  ∧ appState (session w) = ERROR
  ∧ (∃ w', task w w' ∧ appState (session w') = ANALYZING_IMAGE)
  ∧ ¬ (∀ w', task w w' → session w' = handleReset (session w)).
Proof.
  intros s0 r s' w.
  assert (∃ r', readerSettled (js "image/png")
                  (onload (Some (js "data:image/png;base64,aW1hZ2Ux"))) s'
                = Some r'
                ∧ appState (suspended r') = ANALYZING_IMAGE)
    as (r' & Hr' & Hstate).
  { eexists. split; [by vm_compute | reflexivity]. }
  assert (task w {| session := suspended r';
                    pending := [] ++ [] ++ awaited TextCall r' |}) as Htask
    by exact (task_reader s' [] (js "image/png") [] _ r' Hr').
  split; [|split; [reflexivity|split]].
  - eapply rtc_l.
    { apply (task_upload initialSession [] (js "image/png")). reflexivity. }
    eapply rtc_l.
    { apply (task_submit s0 _ (js "a quiet cat by a window")). reflexivity. }
    eapply rtc_l; [|apply rtc_refl].
    exact (task_images (suspended r) [Reading (js "image/png")] _ []
             (Rejected (ErrorObject (js "503")))).
  - eexists. split; [exact Htask | exact Hstate].
  - intros Hall. specialize (Hall _ Htask). cbn [session] in Hall.
    assert (appState (suspended r') = appState (handleReset s')) as Heq
      by (by rewrite Hall).
    rewrite Hstate in Heq. discriminate Heq.
Qed.

(** C10. An empty description is not ignored: the handler returns at
    once with the workflow in ERROR and an error message stored, without
    a service call and without recording the description. *)
Theorem empty_description (s : Session) :
  let r := handleGenerateImage [] s in
  r = Done (suspended r)
  ∧ issued r = None
  ∧ appState (suspended r) = ERROR
  ∧ appState (suspended r) ≠ IDLE
  ∧ error (suspended r)
    = Some (js "이미지 생성을 위한 설명을 입력해주세요.")
  ∧ lastPrompt (suspended r) = lastPrompt s
  ∧ ∀ outcome, settled r outcome = suspended r.
Proof. repeat split; done. Qed.

End WorkflowFacts.

(** ** Playback controller *)

Section PlaybackFacts.
Import JsString Exn Codec Playback.

Variable platformMessage : ErrorName → jsstring.

Local Abbreviation playDecodedAudio := (playDecodedAudio platformMessage).
Local Abbreviation handlePlayAudio := (handlePlayAudio platformMessage).
Local Abbreviation handlePlayAudio_resume := (handlePlayAudio_resume platformMessage).
Local Abbreviation step := (step platformMessage).
Local Abbreviation consistent := (consistent platformMessage).
Local Abbreviation page_step := (page_step platformMessage).

Lemma alter_last {A} (f : A → A) (l : list A) (x : A) :
  alter f (length l) (l ++ [x]) = l ++ [f x].
Proof.
  rewrite <-(Nat.add_0_r (length l)). by rewrite alter_app_r.
Qed.

(** A successful [playDecodedAudio] appends one node, started, makes it the
    active one and sets the playing flag; nothing else changes. *)
Lemma playDecodedAudio_inr base64Audio p p' :
  playDecodedAudio base64Audio p = inr p' →
  ∃ ctx audioBytes audioBuffer,
    audioCtxRef p = Some ctx
    ∧ decode base64Audio = Some audioBytes
    ∧ decodeAudioData audioBytes ctx 24000 1 = inr audioBuffer
    ∧ p' = setIsPlayingAudio true
             (setActiveAudioSourceRef (Some (length (sources p)))
                (setSources
                   (sources p ++ [{| buffer := audioBuffer; status := Playing |}])
                   p)).
Proof.
  unfold Playback.playDecodedAudio.
  destruct (decode base64Audio) as [audioBytes|]; [|done].
  destruct (audioCtxRef p) as [ctx|]; [|done].
  destruct (decodeAudioData audioBytes ctx 24000 1)
    as [e|audioBuffer] eqn:Hbuffer; [done|].
  cbn [platform]. intros [= <-].
  exists ctx, audioBytes, audioBuffer.
  split; [done|]. split; [done|]. split; [done|].
  cbn [sources setSources setActiveAudioSourceRef].
  rewrite alter_last. reflexivity.
Qed.

Lemma playDecodedAudio_valid base64Audio p ctx :
  audioCtxRef p = Some ctx → validAsset ctx base64Audio →
  ∃ audioBuffer,
    playDecodedAudio base64Audio p =
      inr (setIsPlayingAudio true
             (setActiveAudioSourceRef (Some (length (sources p)))
                (setSources
                   (sources p ++ [{| buffer := audioBuffer; status := Playing |}])
                   p))).
Proof.
  intros Hctx (audioBytes & audioBuffer & Hdecode & Hbuffer).
  exists audioBuffer. unfold Playback.playDecodedAudio.
  rewrite Hdecode, Hctx, Hbuffer. cbn [platform].
  cbn [sources setSources setActiveAudioSourceRef].
  rewrite alter_last. reflexivity.
Qed.

(** A valid asset is not the empty string: no frame would come of it. *)
Lemma validAsset_nonempty ctx base64Audio :
  validAsset ctx base64Audio → ∃ c rest, base64Audio = c :: rest.
Proof.
  intros (audioBytes & audioBuffer & Hdecode & Hbuffer).
  destruct base64Audio as [|c rest]; [|by exists c, rest].
  vm_compute in Hdecode. injection Hdecode as <-.
  unfold decodeAudioData, Int16Array, createBuffer in Hbuffer.
  cbn [length Nat.modulo Nat.eqb Nat.divmod Nat.sub fst snd int16_elements]
    in Hbuffer.
  assert (unsigned_long (JsNumber.of_nat 0 / inject_Z (Z.of_N 1)) = 0%N)
    as Hframes by reflexivity.
  rewrite Hframes in Hbuffer.
  by destruct (maxNumberOfChannels ctx <? 1 mod 2 ^ 32)%N.
Qed.

(** With the ref empty every node has had its [ended] event. *)
Lemma consistent_all_ended c id node :
  consistent c → activeAudioSourceRef (player c) = None →
  sources (player c) !! id = Some node → status node = Ended.
Proof.
  intros Hc Href Hnode.
  destruct (decide (status node = Ended)) as [|Hne]; [done|].
  pose proof (active_node _ _ Hc id node Hnode Hne). congruence.
Qed.

Lemma consistent_idle_no_call c :
  consistent c → isGeneratingAudio (player c) = false → inflight c = [].
Proof.
  intros Hc Hgen. destruct (inflight c) as [|k fl] eqn:Hfl; [done|].
  destruct (call_guard _ _ Hc) as [Htrue _]; [by rewrite Hfl|]. congruence.
Qed.

(** Appending a started node to a player at rest. *)
Lemma active_node_started c audioBuffer id node :
  consistent c → activeAudioSourceRef (player c) = None →
  (sources (player c) ++ [{| buffer := audioBuffer; status := Playing |}])
    !! id = Some node →
  status node ≠ Ended →
  Some (length (sources (player c))) = Some id.
Proof.
  intros Hc Href Hnode Hne.
  destruct (decide (id < length (sources (player c)))%nat) as [Hlt|Hge].
  - rewrite lookup_app_l in Hnode by done.
    by pose proof (consistent_all_ended _ _ _ Hc Href Hnode).
  - rewrite lookup_app_r in Hnode by lia.
    destruct (id - length (sources (player c)))%nat as [|k] eqn:Hk;
      [f_equal; lia | done].
Qed.

(** Changing the status of a node to one that is not earlier keeps the
    active node. *)
Lemma active_node_alter (f : SourceNode → SourceNode) p k id node :
  (∀ n, sources p !! k = Some n → status (f n) ≠ Ended → status n ≠ Ended) →
  (∀ id node, sources p !! id = Some node → status node ≠ Ended →
              activeAudioSourceRef p = Some id) →
  alter f k (sources p) !! id = Some node → status node ≠ Ended →
  activeAudioSourceRef p = Some id.
Proof.
  intros Hf Hactive Hnode Hne.
  destruct (decide (k = id)) as [->|Hk].
  - rewrite list_lookup_alter_eq in Hnode.
    destruct (sources p !! id) as [n|] eqn:Hn; [|done].
    cbn in Hnode. injection Hnode as <-. eauto.
  - rewrite list_lookup_alter_ne in Hnode by done. eauto.
Qed.

Lemma consistent_stop p fl id :
  consistent {| player := p; inflight := fl |} →
  consistent {| player := stop id p; inflight := fl |}.
Proof.
  intros [Hactive Hone Hres Hguard]. split; cbn in *; try done.
  intros j node. apply active_node_alter; [|done].
  intros n _. destruct (status n) eqn:Hn; cbn; rewrite ?Hn; done.
Qed.

Lemma consistent_resume p outcome :
  consistent {| player := p; inflight := [handlePlayAudio_resume] |} →
  consistent {| player := handlePlayAudio_resume outcome p; inflight := [] |}.
Proof.
  intros Hc. destruct (call_guard _ _ Hc) as [Hgen Href]; [done|].
  cbn in Hgen, Href.
  assert (∀ error,
    consistent
      {| player :=
           setIsGeneratingAudio false
             (setActiveAudioSourceRef None
                (setIsPlayingAudio false
                   (setAudioError
                      (Some (messageOr (js "알 수 없는 오류가 발생했습니다.") error))
                      p)));
         inflight := [] |}) as Hcatch.
  { intros error. split; cbn; try done; [|lia].
    intros id node Hnode Hne.
    by pose proof (consistent_all_ended _ id node Hc Href Hnode). }
  unfold Playback.handlePlayAudio_resume.
  destruct outcome as [base64Audio|error]; [|apply Hcatch].
  destruct (playDecodedAudio base64Audio _) as [error|p'] eqn:Hplay.
  - specialize (Hcatch error). destruct Hcatch as [Hactive ? ? ?].
    split; cbn in *; done.
  - apply playDecodedAudio_inr in Hplay
      as (ctx & audioBytes & audioBuffer & _ & _ & _ & ->).
    split; cbn; try done; [|lia].
    intros id node. by apply (active_node_started _ _ _ _ Hc).
Qed.

Lemma consistent_step c c' : consistent c → step c c' → consistent c'.
Proof.
  intros Hc Hstep. destruct Hstep as
    [p fl p' Hrun | p fl p' text voice resume Hrun | p fl1 resume fl2 outcome
    | p fl id Hlive | p fl id Hfinished | p fl newPrompt | p fl voice].
  - (* a click that returns at once *)
    unfold Playback.handlePlayAudio in Hrun.
    destruct (activeAudioSourceRef p) as [source|] eqn:Href.
    { injection Hrun as <-. by apply consistent_stop. }
    destruct (isGeneratingAudio p) eqn:Hgen; [by injection Hrun as <-|].
    pose proof (consistent_idle_no_call _ Hc Hgen) as Hfl. cbn in Hfl. subst fl.
    cbn [generatedAudioData setAudioError setIsGeneratingAudio] in Hrun.
    destruct (generatedAudioData p) as [[|c0 data0]|]; [done| |done].
    set (data := c0 :: data0) in *.
    injection Hrun as <-.
    destruct (playDecodedAudio data _) as [error|p'] eqn:Hplay.
    + destruct Hc as [Hactive ? ? ?]. split; cbn in *; done.
    + apply playDecodedAudio_inr in Hplay
        as (ctx & audioBytes & audioBuffer & _ & _ & _ & ->).
      split; cbn; try done; [|lia].
      intros id node. by apply (active_node_started _ _ _ _ Hc).
  - (* a click that suspends on [generateSpeech] *)
    unfold Playback.handlePlayAudio in Hrun.
    destruct (activeAudioSourceRef p) as [source|] eqn:Href; [done|].
    destruct (isGeneratingAudio p) eqn:Hgen; [done|].
    pose proof (consistent_idle_no_call _ Hc Hgen) as Hfl. cbn in Hfl. subst fl.
    cbn [generatedAudioData setAudioError setIsGeneratingAudio] in Hrun.
    assert (p' = setAudioError None (setIsGeneratingAudio true p)
            ∧ resume = handlePlayAudio_resume) as [-> ->].
    { destruct (generatedAudioData p) as [[|c0 data]|]; [|done|];
        by injection Hrun as <- _ _ <-. }
    destruct Hc as [Hactive ? ? ?]. split; cbn in *; try done.
    by repeat constructor.
  - (* the call settles *)
    pose proof (one_call _ _ Hc) as Hone. cbn in Hone.
    rewrite length_app in Hone. cbn in Hone.
    destruct fl1 as [|? ?]; [|cbn in Hone; lia].
    destruct fl2 as [|? ?]; [|cbn in Hone; lia].
    pose proof (call_resume _ _ Hc) as Hres. cbn in Hres.
    apply Forall_cons in Hres as [-> _].
    by apply consistent_resume.
  - (* a node plays to its end *)
    destruct Hc as [Hactive ? ? ?]. split; cbn in *; try done.
    intros j node. apply active_node_alter; [|done].
    intros n Hn _. unfold live in Hlive. rewrite Hn in Hlive.
    cbn in Hlive. injection Hlive as ->. done.
  - (* an [ended] event is delivered *)
    destruct (sources p !! id) as [n|] eqn:Hn; [|done].
    cbn in Hfinished. injection Hfinished as Hfinished.
    assert (activeAudioSourceRef p = Some id) as Href.
    { apply (active_node _ _ Hc id n); [done | by rewrite Hfinished]. }
    assert (inflight {| player := p; inflight := fl |} = []) as Hfl.
    { destruct fl as [|k fl]; [done|].
      destruct (call_guard _ _ Hc) as [_ Hnone]; [done|]. cbn in Hnone.
      congruence. }
    cbn in Hfl. subst fl.
    split; cbn; try done; [|lia].
    intros j node Hnode Hne. exfalso.
    destruct (decide (id = j)) as [->|Hj].
    + rewrite list_lookup_alter_eq, Hn in Hnode. cbn in Hnode.
      by injection Hnode as <-.
    + rewrite list_lookup_alter_ne in Hnode by done.
      pose proof (active_node _ _ Hc j node Hnode Hne) as Hj'. cbn in Hj'.
      congruence.
  - (* the prompt changes *)
    unfold promptChanged.
    cbn [activeAudioSourceRef setGeneratedAudioData setDisplayedPrompt].
    assert (consistent
              {| player := setGeneratedAudioData None
                             (setDisplayedPrompt newPrompt p);
                 inflight := fl |}) as Hc'.
    { destruct Hc as [Hactive ? ? ?]. split; cbn in *; done. }
    destruct (activeAudioSourceRef p); [by apply consistent_stop | done].
  - (* the voice changes *)
    destruct Hc as [Hactive ? ? ?]. split; cbn in *; done.
Qed.

Lemma consistent_mounted ctx prompt : consistent (mounted ctx prompt).
Proof. split; cbn; try done; lia. Qed.

Lemma consistent_reachable ctx prompt c :
  rtc step (mounted ctx prompt) c → consistent c.
Proof.
  revert c. apply rtc_ind_r.
  - apply consistent_mounted.
  - intros c c' _ Hstep Hc. by apply (consistent_step c).
Qed.

Lemma consistent_one_live c i j :
  consistent c → live (player c) i → live (player c) j → i = j.
Proof.
  unfold live. intros Hc Hi Hj.
  destruct (sources (player c) !! i) as [ni|] eqn:Hni; [|done].
  destruct (sources (player c) !! j) as [nj|] eqn:Hnj; [|done].
  cbn in Hi, Hj. injection Hi as Hi. injection Hj as Hj.
  assert (activeAudioSourceRef (player c) = Some i)
    by (apply (active_node _ _ Hc i ni); [done | by rewrite Hi]).
  assert (activeAudioSourceRef (player c) = Some j)
    by (apply (active_node _ _ Hc j nj); [done | by rewrite Hj]).
  congruence.
Qed.

(** The audio context of the mount effect stays in its ref. *)
Lemma reachable_context ctx prompt c :
  rtc step (mounted ctx prompt) c → audioCtxRef (player c) = Some ctx.
Proof.
  intros Hrtc.
  assert (consistent c ∧ audioCtxRef (player c) = Some ctx) as [_ H]; [|done].
  revert c Hrtc. apply rtc_ind_r.
  { split; [apply consistent_mounted | done]. }
  intros c c' _ Hstep [Hc Hctx].
  split; [by apply (consistent_step c)|].
  destruct Hstep as
    [p fl p' Hrun | p fl p' text voice resume Hrun | p fl1 resume fl2 outcome
    | p fl id Hlive | p fl id Hfinished | p fl newPrompt | p fl voice];
    cbn in Hctx |- *; try done.
  - unfold Playback.handlePlayAudio in Hrun.
    destruct (activeAudioSourceRef p); [by injection Hrun as <-|].
    destruct (isGeneratingAudio p); [by injection Hrun as <-|].
    cbn [generatedAudioData setAudioError setIsGeneratingAudio] in Hrun.
    destruct (generatedAudioData p) as [[|c0 data0]|]; [done| |done].
    set (data := c0 :: data0) in *.
    injection Hrun as <-.
    destruct (playDecodedAudio data _) as [error|p'] eqn:Hplay; [done|].
    by apply playDecodedAudio_inr in Hplay as (? & ? & ? & _ & _ & _ & ->).
  - unfold Playback.handlePlayAudio in Hrun.
    destruct (activeAudioSourceRef p); [done|].
    destruct (isGeneratingAudio p); [done|].
    cbn [generatedAudioData setAudioError setIsGeneratingAudio] in Hrun.
    destruct (generatedAudioData p) as [[|c0 data]|]; [|done|];
      by injection Hrun as <- _ _ _.
  - pose proof (call_resume _ _ Hc) as Hres. cbn in Hres.
    apply Forall_app in Hres as [_ Hres]. apply Forall_cons in Hres as [-> _].
    unfold Playback.handlePlayAudio_resume.
    destruct outcome as [base64Audio|error]; [|done].
    destruct (playDecodedAudio base64Audio _) as [error|p'] eqn:Hplay; [done|].
    by apply playDecodedAudio_inr in Hplay as (? & ? & ? & _ & _ & _ & ->).
  - unfold promptChanged.
    cbn [activeAudioSourceRef setGeneratedAudioData setDisplayedPrompt].
    by destruct (activeAudioSourceRef p).
Qed.

(** The controller plays the node it has just appended and started. *)
Ltac playing_appended :=
  split; [reflexivity|]; split; [reflexivity|];
  unfold live; cbn; rewrite lookup_app_r by lia;
  by rewrite Nat.sub_diag.

(** The toggle within one mount. In every configuration the component
    reaches from its mount, through any interleaving of clicks, settling
    calls, ends of stream, [ended] events and prompt or voice changes:
    at most one source is live; a click while a source is live stops it
    and returns at once; a click while idle with a valid cached asset
    starts one source; without a cached asset the click issues one
    [generateSpeech] call and starts nothing, and the controller plays
    the asset once the call resolves with a valid one. *)
Lemma toggle_mounted (ctx : AudioContext) (prompt : jsstring) (c : Config) :
  rtc step (mounted ctx prompt) c →
  (∀ i j, live (player c) i → live (player c) j → i = j)
  ∧ (∀ id, live (player c) id →
       ∃ p', handlePlayAudio (player c) = Done p'
             ∧ (∀ j, ¬ live p' j)
             ∧ length (sources p') = length (sources (player c))
             ∧ status <$> sources p' !! id = Some Finished
             ∧ idle (deliverEnded id p'))
  ∧ (∀ data, idle (player c) → isGeneratingAudio (player c) = false →
       generatedAudioData (player c) = Some data → validAsset ctx data →
       ∃ p', handlePlayAudio (player c) = Done p'
             ∧ playing p' (length (sources (player c)))
             ∧ length (sources p') = S (length (sources (player c))))
  ∧ (∀ data, idle (player c) → isGeneratingAudio (player c) = false →
       generatedAudioData (player c) = None → validAsset ctx data →
       ∃ p1, handlePlayAudio (player c)
             = Await p1 (displayedPrompt (player c))
                 (voiceSelection (player c)) handlePlayAudio_resume
             ∧ (∀ j, ¬ live p1 j)
             ∧ sources p1 = sources (player c)
             ∧ playing (handlePlayAudio_resume (Resolved data) p1)
                 (length (sources (player c)))).
Proof.
  intros Hrtc.
  pose proof (consistent_reachable _ _ _ Hrtc) as Hc.
  pose proof (reachable_context _ _ _ Hrtc) as Hctx.
  destruct c as [p fl]. cbn [player] in *.
  split; [|split; [|split]].
  - intros i j. by apply (consistent_one_live _ i j Hc).
  - intros id Hlive.
    assert (∃ n, sources p !! id = Some n ∧ status n = Playing)
      as (n & Hn & Hstatus).
    { unfold live in Hlive. destruct (sources p !! id) as [n|]; [|done].
      exists n. split; [done|]. by injection Hlive. }
    assert (activeAudioSourceRef p = Some id) as Href.
    { apply (active_node _ _ Hc id n Hn). by rewrite Hstatus. }
    exists (stop id p). unfold Playback.handlePlayAudio. rewrite Href.
    split; [done|].
    assert (∀ j, ¬ live (stop id p) j) as Hnone.
    { intros j Hj. unfold live, stop in Hj. cbn in Hj.
      destruct (decide (id = j)) as [<-|Hne].
      - rewrite list_lookup_alter_eq, Hn in Hj. cbn in Hj.
        rewrite Hstatus in Hj. done.
      - rewrite list_lookup_alter_ne in Hj by done.
        apply Hne. by apply (consistent_one_live _ id j Hc). }
    split; [done|]. split; [by unfold stop; cbn; rewrite length_alter|].
    split.
    { unfold stop. cbn. rewrite list_lookup_alter_eq, Hn. cbn.
      by rewrite Hstatus. }
    split; [done|]. split; [done|].
    intros j Hj. unfold live, deliverEnded, onended in Hj. cbn in Hj.
    destruct (decide (id = j)) as [<-|Hne].
    + rewrite !list_lookup_alter_eq, Hn in Hj. cbn in Hj. done.
    + rewrite list_lookup_alter_ne in Hj by done. by apply (Hnone j).
  - intros data (Href & _ & _) Hgen Hdata Hvalid.
    unfold Playback.handlePlayAudio. rewrite Href, Hgen.
    cbn [generatedAudioData setAudioError setIsGeneratingAudio].
    rewrite Hdata.
    destruct (validAsset_nonempty _ _ Hvalid) as (c0 & rest & Hcons).
    assert (∀ (A : Type) (a b : A),
              match data with [] => a | _ :: _ => b end = b) as ->
      by (intros; by rewrite Hcons).
    destruct (playDecodedAudio_valid data
                (setAudioError None (setIsGeneratingAudio true p)) ctx)
      as [audioBuffer ->]; [done | done |].
    eexists. split; [reflexivity|].
    split; [playing_appended|]. cbn. rewrite length_app. cbn. lia.
  - intros data (Href & _ & Hnone) Hgen Hdata Hvalid.
    unfold Playback.handlePlayAudio. rewrite Href, Hgen.
    cbn [generatedAudioData setAudioError setIsGeneratingAudio].
    rewrite Hdata.
    eexists. split; [reflexivity|]. split; [exact Hnone|]. split; [done|].
    unfold Playback.handlePlayAudio_resume.
    destruct (playDecodedAudio_valid data
                (setGeneratedAudioData (Some data)
                   (setAudioError None (setIsGeneratingAudio true p))) ctx)
      as [audioBuffer ->]; [done | done |].
    playing_appended.
Qed.

Lemma consistent_cleanup c :
  consistent c →
  consistent {| player := cleanup (player c); inflight := inflight c |}.
Proof.
  intros Hc. destruct c as [p fl]. unfold cleanup. cbn [player inflight].
  destruct (activeAudioSourceRef p); [by apply consistent_stop | done].
Qed.

Lemma consistent_unmounted_step c c' :
  consistent c → unmounted_step c c' → consistent c'.
Proof.
  intros Hc Hstep. destruct Hstep as
    [p fl1 resume fl2 outcome | p fl id Hlive | p fl id Hfinished].
  - pose proof (consistent_step _ _ Hc
                  (step_settle platformMessage p fl1 resume fl2 outcome))
      as [Hactive Hone Hres Hguard].
    pose proof (one_call _ _ Hc) as Hcall. cbn in Hcall.
    rewrite length_app in Hcall. cbn in Hcall.
    destruct fl1 as [|? ?]; [|cbn in Hcall; lia].
    destruct fl2 as [|? ?]; [|cbn in Hcall; lia].
    split; cbn in *; done.
  - apply (consistent_step _ _ Hc). by apply step_end_of_stream.
  - pose proof (consistent_step _ _ Hc
                  (step_ended platformMessage p fl id Hfinished))
      as [Hactive Hone Hres Hguard].
    split; cbn in *; done.
Qed.

(** Every instance of the page, mounted or not, keeps the invariant of a
    mount, and the mounted one is reached from its mount by the events of
    the component. *)
Lemma page_consistent pg :
  rtc page_step noResult pg →
  Forall consistent (instances pg)
  ∧ ∀ c, current pg = Some c →
         ∃ ctx prompt, rtc step (mounted ctx prompt) c.
Proof.
  revert pg. apply rtc_ind_r; [by split|].
  intros pg pg' _ Hstep [Hall Hcur]. unfold instances in *.
  destruct Hstep as [us ctx prompt | us c c' Hstep | us c | us1 c us2 c' cur Hstep];
    cbn [unmounted current] in *.
  - rewrite app_nil_r in Hall. split.
    + apply Forall_app. split; [done|].
      apply Forall_singleton, consistent_mounted.
    + intros c [= <-]. exists ctx, prompt. apply rtc_refl.
  - apply Forall_app in Hall as [Hus Hc].
    rewrite Forall_singleton in Hc. split.
    + apply Forall_app. split; [done|].
      by apply Forall_singleton, (consistent_step c).
    + intros c0 [= <-]. destruct (Hcur c eq_refl) as (ctx & prompt & Hrtc).
      exists ctx, prompt. by eapply rtc_r.
  - apply Forall_app in Hall as [Hus Hc].
    rewrite Forall_singleton in Hc. split; [|done].
    rewrite app_nil_r. apply Forall_app. split; [done|].
    by apply Forall_singleton, consistent_cleanup.
  - split; [|done].
    rewrite <-app_assoc in Hall |- *. cbn [app] in Hall |- *.
    apply Forall_app in Hall as [Hus1 Hrest].
    apply Forall_cons in Hrest as [Hc Hrest].
    apply Forall_app. split; [done|]. apply Forall_cons. split; [|done].
    by apply (consistent_unmounted_step c).
Qed.


End PlaybackFacts.



(** ** The WAV container, field by field *)

Section WavFields.
Import Buffer Wav.

Lemma le_value_bytes_le_2 v : le_value (bytes_le 2 v) = v mod 2 ^ 16.
Proof.
  cbn [bytes_le seq fmap list_fmap le_value]. unfold nth_byte.
  rewrite !Z_of_byte_of_Z, !Z.shiftr_div_pow2 by lia.
  change (8 * Z.of_nat 0) with 0. change (8 * Z.of_nat 1) with 8.
  change (2 ^ 0) with 1. change (2 ^ 8) with 256.
  change (2 ^ 16) with 65536.
  Z.div_mod_to_equations. lia.
Qed.

(** A field of [width] bytes that follows [pre] in a buffer. *)
Lemma load_after (pre field rest : list byte) :
  load (length pre) (length field) (pre ++ field ++ rest) = Some field.
Proof.
  unfold load. rewrite !length_app.
  rewrite (proj2 (Nat.leb_le _ _)) by lia.
  by rewrite drop_app_length, take_app_length.
Qed.

Lemma getUint32_after (pre rest : list byte) v :
  getUint32 (length pre) true (pre ++ bytes_le 4 v ++ rest) = Some (v mod 2 ^ 32).
Proof.
  unfold getUint32.
  pose proof (load_after pre (bytes_le 4 v) rest) as H.
  rewrite length_bytes_le in H. rewrite H.
  cbn [mbind option_bind]. by rewrite le_value_bytes_le_4.
Qed.

Lemma getUint16_after (pre rest : list byte) v :
  getUint16 (length pre) true (pre ++ bytes_le 2 v ++ rest) = Some (v mod 2 ^ 16).
Proof.
  unfold getUint16.
  pose proof (load_after pre (bytes_le 2 v) rest) as H.
  rewrite length_bytes_le in H. rewrite H.
  cbn [mbind option_bind]. by rewrite le_value_bytes_le_2.
Qed.

Lemma getUint32_be_after (pre rest : list byte) v :
  getUint32 (length pre) false (pre ++ bytes_be 4 v ++ rest) = Some (v mod 2 ^ 32).
Proof.
  unfold getUint32.
  pose proof (load_after pre (bytes_be 4 v) rest) as H.
  rewrite length_bytes_be in H. rewrite H.
  cbn [mbind option_bind]. unfold bytes_be.
  by rewrite reverse_involutive, le_value_bytes_le_4.
Qed.

Lemma ToUint16_inject_Z z : JsNumber.ToUint16 (inject_Z z) = z mod 2 ^ 16.
Proof. unfold JsNumber.ToUint16. by rewrite truncate_inject_Z. Qed.

Lemma ToUint32_inject_Z z : JsNumber.ToUint32 (inject_Z z) = z mod 2 ^ 32.
Proof. unfold JsNumber.ToUint32. by rewrite truncate_inject_Z. Qed.

Lemma truncate_blockAlign nc bps :
  JsNumber.truncate (inject_Z nc * (inject_Z bps / 8)) = Z.quot (nc * bps) 8.
Proof. unfold JsNumber.truncate. cbn. f_equal. lia. Qed.

Lemma truncate_byteRate sr nc bps :
  JsNumber.truncate (inject_Z sr * (inject_Z nc * (inject_Z bps / 8)))
  = Z.quot (sr * (nc * bps)) 8.
Proof. unfold JsNumber.truncate. cbn. f_equal. lia. Qed.

(** Every field of the header, as a reader of the container gets it. *)
Lemma canonicalHeader_fields n nc sr bps (pcm : list byte) :
  let v := canonicalHeader n nc sr bps ++ pcm in
  getUint32 0 false v = Some 0x52494646
  ∧ getUint32 4 true v = Some ((36 + Z.of_nat n) mod 2 ^ 32)
  ∧ getUint32 8 false v = Some 0x57415645
  ∧ getUint32 12 false v = Some 0x666d7420
  ∧ getUint32 16 true v = Some 16
  ∧ getUint16 20 true v = Some 1
  ∧ getUint16 22 true v = Some (nc mod 2 ^ 16)
  ∧ getUint32 24 true v = Some (sr mod 2 ^ 32)
  ∧ getUint32 28 true v = Some (Z.quot (sr * (nc * bps)) 8 mod 2 ^ 32)
  ∧ getUint16 32 true v = Some (Z.quot (nc * bps) 8 mod 2 ^ 16)
  ∧ getUint16 34 true v = Some (bps mod 2 ^ 16)
  ∧ getUint32 36 false v = Some 0x64617461
  ∧ getUint32 40 true v = Some (Z.of_nat n mod 2 ^ 32).
Proof.
  cbn zeta. unfold canonicalHeader.
  rewrite ToUint32_chunk_size, !ToUint16_inject_Z, !ToUint32_inject_Z.
  unfold JsNumber.ToUint32, JsNumber.ToUint16, JsNumber.of_nat.
  rewrite truncate_blockAlign, truncate_byteRate, truncate_inject_Z.
  rewrite <-!app_assoc.
  set (f0 := bytes_be 4 1380533830). set (f1 := bytes_le 4 _).
  set (f2 := bytes_be 4 1463899717). set (f3 := bytes_be 4 1718449184).
  set (f4 := bytes_le 4 16). set (f5 := bytes_le 2 1).
  set (f6 := bytes_le 2 _). set (f7 := bytes_le 4 _). set (f8 := bytes_le 4 _).
  set (f9 := bytes_le 2 _). set (f10 := bytes_le 2 _).
  set (f11 := bytes_be 4 1684108385). set (f12 := bytes_le 4 _).
  assert (∀ k pre rest v, length pre = k → 0 <= v < 2 ^ 32 →
            getUint32 k true (pre ++ bytes_le 4 v ++ rest) = Some v) as Hle32.
  { intros k pre rest v <- Hv. rewrite getUint32_after.
    by rewrite Z.mod_small. }
  assert (∀ k pre rest v, length pre = k → 0 <= v < 2 ^ 16 →
            getUint16 k true (pre ++ bytes_le 2 v ++ rest) = Some v) as Hle16.
  { intros k pre rest v <- Hv. rewrite getUint16_after.
    by rewrite Z.mod_small. }
  assert (∀ k pre rest v, length pre = k → 0 <= v < 2 ^ 32 →
            getUint32 k false (pre ++ bytes_be 4 v ++ rest) = Some v) as Hbe32.
  { intros k pre rest v <- Hv. rewrite getUint32_be_after.
    by rewrite Z.mod_small. }
  assert (∀ z, 0 <= z mod 2 ^ 32 < 2 ^ 32) as H32
    by (intros z; apply Z.mod_pos_bound; lia).
  assert (∀ z, 0 <= z mod 2 ^ 16 < 2 ^ 16) as H16
    by (intros z; apply Z.mod_pos_bound; lia).
  split_and!.
  - exact (Hbe32 0%nat [] _ 1380533830 eq_refl ltac:(lia)).
  - exact (Hle32 4%nat f0 _ _ eq_refl (H32 _)).
  - exact (Hbe32 8%nat (f0 ++ f1) _ 1463899717 eq_refl ltac:(lia)).
  - exact (Hbe32 12%nat (f0 ++ f1 ++ f2) _ 1718449184 eq_refl ltac:(lia)).
  - exact (Hle32 16%nat (f0 ++ f1 ++ f2 ++ f3) _ 16 eq_refl ltac:(lia)).
  - exact (Hle16 20%nat (f0 ++ f1 ++ f2 ++ f3 ++ f4) _ 1 eq_refl ltac:(lia)).
  - exact (Hle16 22%nat (f0 ++ f1 ++ f2 ++ f3 ++ f4 ++ f5) _ _ eq_refl
             (H16 _)).
  - exact (Hle32 24%nat (f0 ++ f1 ++ f2 ++ f3 ++ f4 ++ f5 ++ f6) _ _ eq_refl
             (H32 _)).
  - exact (Hle32 28%nat (f0 ++ f1 ++ f2 ++ f3 ++ f4 ++ f5 ++ f6 ++ f7) _ _
             eq_refl (H32 _)).
  - exact (Hle16 32%nat (f0 ++ f1 ++ f2 ++ f3 ++ f4 ++ f5 ++ f6 ++ f7 ++ f8)
             _ _ eq_refl (H16 _)).
  - exact (Hle16 34%nat
             (f0 ++ f1 ++ f2 ++ f3 ++ f4 ++ f5 ++ f6 ++ f7 ++ f8 ++ f9)
             _ _ eq_refl (H16 _)).
  - exact (Hbe32 36%nat
             (f0 ++ f1 ++ f2 ++ f3 ++ f4 ++ f5 ++ f6 ++ f7 ++ f8 ++ f9 ++ f10)
             _ 1684108385 eq_refl ltac:(lia)).
  - exact (Hle32 40%nat
             (f0 ++ f1 ++ f2 ++ f3 ++ f4 ++ f5 ++ f6 ++ f7 ++ f8 ++ f9 ++ f10
                ++ f11) _ _ eq_refl (H32 _)).
Qed.

(** X1. [createWavBlob] returns a blob for every buffer, the empty one
    included, and every triple of whole numbers on which the arithmetic
    of the code is exact: the three numbers, [numChannels *
    bitsPerSample] and [sampleRate * numChannels * bitsPerSample] at most
    [2^53] in absolute value, and a buffer that leaves room for the
    header below [2^53] bytes. No store is out of range. The blob has
    type [audio/wav] and [44 + len] bytes; it starts with [RIFF], has
    [WAVE] at 8, [fmt ] at 12 with size 16 and format 1 (PCM), and [data]
    at 36 followed by the length of the samples modulo [2^32]; the
    samples follow unchanged from offset 44 on. *)
Theorem createWavBlob_total (pcmData : list byte)
    (numChannels sampleRate bitsPerSample : Z) :
  - 2 ^ 53 <= numChannels <= 2 ^ 53 →
  - 2 ^ 53 <= sampleRate <= 2 ^ 53 →
  - 2 ^ 53 <= bitsPerSample <= 2 ^ 53 →
  - 2 ^ 53 <= numChannels * bitsPerSample <= 2 ^ 53 →
  - 2 ^ 53 <= sampleRate * (numChannels * bitsPerSample) <= 2 ^ 53 →
  44 + Z.of_nat (length pcmData) < 2 ^ 53 →
  ∃ blob,
    createWavBlob pcmData numChannels sampleRate bitsPerSample = Some blob
    ∧ blob_type blob = "audio/wav"%string
    ∧ length (blob_bytes blob) = (44 + length pcmData)%nat
    ∧ drop 44 (blob_bytes blob) = pcmData
    ∧ getUint32 0 false (blob_bytes blob) = Some 0x52494646
    ∧ getUint32 8 false (blob_bytes blob) = Some 0x57415645
    ∧ getUint32 12 false (blob_bytes blob) = Some 0x666d7420
    ∧ getUint32 16 true (blob_bytes blob) = Some 16
    ∧ getUint16 20 true (blob_bytes blob) = Some 1
    ∧ getUint32 36 false (blob_bytes blob) = Some 0x64617461
    ∧ getUint32 40 true (blob_bytes blob)
      = Some (Z.of_nat (length pcmData) mod 2 ^ 32).
Proof.
  intros _ _ _ _ _ _.
  rewrite createWavBlob_layout. eexists. split; [reflexivity|].
  cbn [blob_bytes blob_type].
  pose proof (length_canonicalHeader (length pcmData) numChannels sampleRate
                bitsPerSample) as Hlen.
  destruct (canonicalHeader_fields (length pcmData) numChannels sampleRate
              bitsPerSample pcmData)
    as (H0 & _ & H8 & H12 & H16 & H20 & _ & _ & _ & _ & _ & H36 & H40).
  split; [done|]. split; [by rewrite length_app, Hlen|].
  split; [by rewrite drop_app_length' by done|].
  split_and!; assumption.
Qed.

(** X2. For a channel count, a sample rate and a sample width of whole
    bytes that fit their fields, the format fields read back as given,
    the block alignment is [numChannels * bytesPerSample] and the byte
    rate is [sampleRate * blockAlign]. *)
Theorem createWavBlob_format_fields (pcmData : list byte)
    (numChannels sampleRate bytesPerSample : Z) :
  0 <= numChannels < 2 ^ 16 → 0 <= sampleRate < 2 ^ 32 →
  0 <= bytesPerSample → 8 * bytesPerSample < 2 ^ 16 →
  numChannels * bytesPerSample < 2 ^ 16 →
  sampleRate * (numChannels * bytesPerSample) < 2 ^ 32 →
  ∃ blob,
    createWavBlob pcmData numChannels sampleRate (8 * bytesPerSample)
    = Some blob
    ∧ getUint16 22 true (blob_bytes blob) = Some numChannels
    ∧ getUint32 24 true (blob_bytes blob) = Some sampleRate
    ∧ getUint32 28 true (blob_bytes blob)
      = Some (sampleRate * (numChannels * bytesPerSample))
    ∧ getUint16 32 true (blob_bytes blob)
      = Some (numChannels * bytesPerSample)
    ∧ getUint16 34 true (blob_bytes blob) = Some (8 * bytesPerSample).
Proof.
  intros Hnc Hsr Hb Hbits Halign Hrate.
  rewrite createWavBlob_layout. eexists. split; [reflexivity|].
  cbn [blob_bytes].
  destruct (canonicalHeader_fields (length pcmData) numChannels sampleRate
              (8 * bytesPerSample) pcmData)
    as (_ & _ & _ & _ & _ & _ & H22 & H24 & H28 & H32 & H34 & _ & _).
  replace (numChannels * (8 * bytesPerSample))
    with (numChannels * bytesPerSample * 8) in H28, H32 by lia.
  replace (sampleRate * (numChannels * bytesPerSample * 8))
    with (sampleRate * (numChannels * bytesPerSample) * 8) in H28 by lia.
  rewrite Z.quot_mul in H28, H32 by lia.
  rewrite Z.mod_small in H22, H24, H28, H32, H34 by nia.
  split_and!; assumption.
Qed.

End WavFields.

Lemma createWavBlob_total_witness :
  ∃ blob,
    Wav.createWavBlob [] 2 48000 12 = Some blob
    ∧ length (Wav.blob_bytes blob) = 44%nat
    ∧ Buffer.getUint32 40 true (Wav.blob_bytes blob) = Some 0.
Proof.
  destruct (createWavBlob_total [] 2 48000 12)
    as (blob & Hblob & _ & Hlen & _ & _ & _ & _ & _ & _ & _ & Hsize);
    [cbn; lia..|].
  exists blob. split; [exact Hblob|]. split; [exact Hlen | exact Hsize].
Defined.

Lemma createWavBlob_format_fields_witness :
  ∃ blob,
    Wav.createWavBlob [x01; x02; x03; x04; x05; x06; x07; x08] 2 44100 16
    = Some blob
    ∧ Buffer.getUint16 22 true (Wav.blob_bytes blob) = Some 2
    ∧ Buffer.getUint32 24 true (Wav.blob_bytes blob) = Some 44100
    ∧ Buffer.getUint32 28 true (Wav.blob_bytes blob) = Some 176400
    ∧ Buffer.getUint16 32 true (Wav.blob_bytes blob) = Some 4
    ∧ Buffer.getUint16 34 true (Wav.blob_bytes blob) = Some 16.
Proof.
  apply (createWavBlob_format_fields
           [x01; x02; x03; x04; x05; x06; x07; x08] 2 44100 2); lia.
Defined.

(** ** Outcomes of the codec *)

Section CodecOutcomes.
Import JsString Buffer Exn Codec.

(** The outer loop throws nothing but [IndexSizeError]. *)
Lemma fillChannels_inl d nc iters chans e :
  fillChannels d nc iters chans = inl e → e = IndexSizeError.
Proof.
  unfold fillChannels.
  assert (∀ l acc,
            (∀ e', acc = inl e' → e' = IndexSizeError) →
            foldl (fillNextChannel d nc iters) acc l = inl e →
            e = IndexSizeError) as H.
  { induction l as [|x l IH]; intros acc Hacc Hfold.
    - by apply Hacc.
    - cbn [foldl] in Hfold. refine (IH _ _ Hfold).
      intros e'. unfold fillNextChannel.
      destruct acc as [e0|chs]; [intros [= <-]; by apply Hacc|].
      destruct (chs !! x); [done | by intros [= <-]]. }
  apply H. done.
Qed.

Lemma unsigned_long_frameCount (data : list byte) (numChannels : N) :
  unsigned_long (JsNumber.of_nat (length (int16_elements data))
                 / inject_Z (Z.of_N numChannels))
  = Z.to_N ((Z.of_nat (length data / 2) / Z.of_N numChannels) mod 2 ^ 32).
Proof.
  unfold unsigned_long, JsNumber.ToUint32.
  rewrite length_int16_elements.
  destruct (N.eq_dec numChannels 0%N) as [->|Hnc].
  - change (Z.of_N 0) with 0. rewrite Z.div_0_r. unfold JsNumber.truncate, JsNumber.of_nat. cbn. by rewrite Z.mul_0_r.
  - by rewrite frameCount_truncate by lia.
Qed.

Lemma decodeAudioData_odd data ctx sampleRate numChannels :
  (length data mod 2 =? 0)%nat = false →
  decodeAudioData data ctx sampleRate numChannels = inl RangeError.
Proof. intros Hodd. unfold decodeAudioData, Int16Array. by rewrite Hodd. Qed.

Lemma decodeAudioData_unsupported data ctx sampleRate numChannels :
  (length data mod 2 =? 0)%nat = true →
  ((numChannels mod 2 ^ 32 =? 0)
   || (maxNumberOfChannels ctx <? numChannels mod 2 ^ 32)
   || (Z.to_N ((Z.of_nat (length data / 2) / Z.of_N numChannels) mod 2 ^ 32)
       =? 0)
   || (sampleRate <? minSampleRate ctx)
   || (maxSampleRate ctx <? sampleRate))%N = true →
  decodeAudioData data ctx sampleRate numChannels = inl NotSupportedError.
Proof.
  intros Heven Hargs. unfold decodeAudioData, Int16Array. rewrite Heven.
  unfold createBuffer. rewrite unsigned_long_frameCount. by rewrite Hargs.
Qed.

(** With a buffer created, the loops fill every channel, or meet a
    channel the buffer does not have. *)
Lemma decodeAudioData_fill data ctx sampleRate numChannels :
  (length data mod 2 =? 0)%nat = true →
  let frameCount :=
    Z.to_N ((Z.of_nat (length data / 2) / Z.of_N numChannels) mod 2 ^ 32) in
  ((numChannels mod 2 ^ 32 =? 0)
   || (maxNumberOfChannels ctx <? numChannels mod 2 ^ 32)
   || (frameCount =? 0) || (sampleRate <? minSampleRate ctx)
   || (maxSampleRate ctx <? sampleRate))%N = false →
  decodeAudioData data ctx sampleRate numChannels =
    if (2 ^ 32 <=? numChannels)%N then inl IndexSizeError
    else inr {| numberOfChannels := numChannels; frames := frameCount;
                sampleRate := sampleRate;
                channels :=
                  (λ ch, (λ i, normalized
                                 (int16_elements data
                                    !! (i * N.to_nat numChannels + ch)%nat))
                           <$> seq 0 (N.to_nat frameCount))
                    <$> seq 0 (N.to_nat numChannels) |}.
Proof.
  intros Heven frameCount Hargs.
  set (d := int16_elements data).
  unfold decodeAudioData, Int16Array. rewrite Heven.
  unfold createBuffer. rewrite unsigned_long_frameCount.
  fold frameCount. fold d. rewrite Hargs.
  cbn [channels frames numberOfChannels Codec.sampleRate].
  assert (0 < numChannels)%N as Hpos.
  { destruct numChannels; [|lia]. by cbn in Hargs. }
  destruct (N.leb_spec (2 ^ 32) numChannels) as [Hbig|Hsmall].
  - destruct (fillChannels _ _ _ _) as [e|chans'] eqn:Hfill.
    + by apply fillChannels_inl in Hfill as ->.
    + apply fillChannels_inr in Hfill as [Hnc _].
      rewrite length_replicate in Hnc.
      pose proof (N.mod_upper_bound numChannels (2 ^ 32) ltac:(done)). lia.
  - rewrite N.mod_small by done.
    rewrite fillChannels_replicate; [done|].
    pose proof (frameCount_ceiling (length d) numChannels Hpos) as Hceil.
    unfold d in Hceil. rewrite length_int16_elements in Hceil.
    unfold d. rewrite length_int16_elements.
    set (whole := Z.of_nat (length data / 2) / Z.of_N numChannels) in *.
    assert (0 <= whole) by (apply Z.div_pos; lia).
    pose proof (Z.mod_le whole (2 ^ 32) ltac:(done) ltac:(done)).
    pose proof (Z.mod_pos_bound whole (2 ^ 32) ltac:(done)).
    unfold frameCount. lia.
Qed.

(** X3. The outcome of [decodeAudioData], for a rate that is a whole
    number up to [2^24], which the conversion to a WebIDL [float] leaves
    as it is, and a buffer and a channel count that together stay below
    [2^53], for which the whole part of the binary64 quotient
    [len / 2 / numChannels] is the one of the exact quotient: a
    [RangeError] for a buffer of odd length; else a [NotSupportedError]
    when the channel count (taken modulo [2^32]) is zero or more than the
    context supports, when the frame count (whole part, modulo [2^32]) is
    zero, or when the rate is outside the range of the context; else an
    [IndexSizeError] for [2^32] channels or more; else the buffer whose
    channel [ch] holds at frame [i] the normalized element
    [i * numChannels + ch] of the 16-bit view, for every frame below the
    frame count. A zero channel count divides by zero in [frameCount] and
    is rejected by [createBuffer]. *)
Theorem decodeAudioData_outcome
    (data : list byte) (ctx : AudioContext) (sampleRate numChannels : N) :
  (sampleRate <= 2 ^ 24)%N →
  Z.of_nat (length data) + Z.of_N numChannels < 2 ^ 53 →
  let dataInt16 := int16_elements data in
  let frameCount :=
    Z.to_N ((Z.of_nat (length data / 2) / Z.of_N numChannels) mod 2 ^ 32) in
  decodeAudioData data ctx sampleRate numChannels =
    if negb (length data mod 2 =? 0)%nat then inl RangeError
    else if ((numChannels mod 2 ^ 32 =? 0)
             || (maxNumberOfChannels ctx <? numChannels mod 2 ^ 32)
             || (frameCount =? 0) || (sampleRate <? minSampleRate ctx)
             || (maxSampleRate ctx <? sampleRate))%N
    then inl NotSupportedError
    else if (2 ^ 32 <=? numChannels)%N then inl IndexSizeError
    else inr {| numberOfChannels := numChannels; frames := frameCount;
                sampleRate := sampleRate;
                channels :=
                  (λ ch, (λ i, normalized
                                 (dataInt16 !! (i * N.to_nat numChannels + ch)%nat))
                           <$> seq 0 (N.to_nat frameCount))
                    <$> seq 0 (N.to_nat numChannels) |}.
Proof.
  intros _ _ d frameCount.
  destruct (length data mod 2 =? 0)%nat eqn:Heven; cbn [negb].
  - destruct ((numChannels mod 2 ^ 32 =? 0)
              || (maxNumberOfChannels ctx <? numChannels mod 2 ^ 32)
              || (frameCount =? 0) || (sampleRate <? minSampleRate ctx)
              || (maxSampleRate ctx <? sampleRate))%N eqn:Hargs.
    + by apply decodeAudioData_unsupported.
    + by apply decodeAudioData_fill.
  - by apply decodeAudioData_odd.
Qed.

Lemma int16_elements_lookup_fmap (d : list Z) :
  (λ i, normalized (d !! (i * 1 + 0)%nat)) <$> seq 0 (length d)
  = (λ s, normalized (Some s)) <$> d.
Proof.
  apply list_eq. intros j. rewrite !list_lookup_fmap.
  destruct (decide (j < length d)%nat) as [Hj|Hj].
  - rewrite lookup_seq_lt by done. cbn.
    replace (j * 1 + 0)%nat with j by lia.
    destruct (lookup_lt_is_Some_2 d j Hj) as [s Hs]. by rewrite Hs.
  - rewrite lookup_seq_ge by lia. rewrite (lookup_ge_None_2 d) by lia. done.
Qed.

(** The conversion as the component calls it, one channel at 24 kHz. *)
Lemma decodeAudioData_mono (data : list byte) (ctx : AudioContext) buf :
  Z.of_nat (length data) < 2 ^ 33 →
  decodeAudioData data ctx 24000 1 = inr buf →
  (length data = 2 * N.to_nat (frames buf))%nat
  ∧ (0 < frames buf)%N
  ∧ numberOfChannels buf = 1%N ∧ Codec.sampleRate buf = 24000%N
  ∧ channels buf = [(λ s, normalized (Some s)) <$> int16_elements data].
Proof.
  intros Hlen.
  destruct (length data mod 2 =? 0)%nat eqn:Heven;
    [|by rewrite decodeAudioData_odd].
  match goal with
  | |- decodeAudioData ?data ?ctx ?sr ?nc = _ → _ =>
    pose proof (decodeAudioData_unsupported data ctx sr nc Heven) as Hno;
    pose proof (decodeAudioData_fill data ctx sr nc Heven) as Hyes
  end.
  cbn zeta in Hyes.
  match type of Hno with ?b = true → _ => destruct b eqn:Hargs end;
    [by rewrite Hno|].
  rewrite Hyes by done. clear Hno Hyes.
  apply Nat.eqb_eq in Heven.
  assert (length data = 2 * (length data / 2))%nat as Hhalf.
  { pose proof (Nat.div_mod_eq (length data) 2). lia. }
  pose proof (length_int16_elements data) as Hd.
  set (half := (length data / 2)%nat) in *. clearbody half.
  change (Z.of_N 1) with 1 in *. rewrite Z.div_1_r in *.
  rewrite Z.mod_small in * by lia.
  change (2 ^ 32 <=? 1)%N with false. cbn iota. intros [= <-].
  cbn [channels frames numberOfChannels Codec.sampleRate].
  rewrite Z_N_nat, Nat2Z.id.
  split; [done|]. split.
  - apply orb_false_iff in Hargs as [Hargs _].
    apply orb_false_iff in Hargs as [Hargs _].
    apply orb_false_iff in Hargs as [_ Hz].
    apply N.eqb_neq in Hz. lia.
  - split; [done|]. split; [done|]. cbn [seq fmap list_fmap]. f_equal.
    rewrite <-Hd. apply int16_elements_lookup_fmap.
Qed.

Lemma lor_below_256 (x y : N) :
  (x < 256 → y < 256 → N.lor x y < 256)%N.
Proof.
  intros Hx Hy.
  destruct (N.eq_dec (N.lor x y) 0%N) as [->|Hne]; [done|].
  change 256%N with (2 ^ 8)%N. apply N.log2_lt_pow2; [lia|].
  rewrite N.log2_lor.
  assert (∀ z, (z < 256 → N.log2 z < 8)%N) as Hlog.
  { intros z Hz. destruct (N.eq_dec z 0%N) as [->|Hz0]; [done|].
    apply N.log2_lt_pow2; [lia | done]. }
  specialize (Hlog x Hx) as Hlx. specialize (Hlog y Hy) as Hly. lia.
Qed.

Lemma sextet_below c v : sextet c = Some v → (v < 64)%N.
Proof.
  unfold sextet. intros H.
  repeat match type of H with
         | context [if ?b then _ else _] => destruct b eqn:?
         end; try done; injection H as <-;
    repeat match goal with
           | H : (_ && _) = true |- _ => apply andb_true_iff in H as [? ?]
           | H : (_ <=? _)%N = true |- _ => apply N.leb_le in H
           end; lia.
Qed.

Lemma mapM_sextet_below data ss :
  mapM sextet data = Some ss → Forall (λ v, (v < 64)%N) ss.
Proof.
  intros H. apply mapM_Some in H.
  induction H as [|c v data ss Hc _ IH]; constructor; [|done].
  by apply (sextet_below c).
Qed.

Lemma octets_below (ss : list N) :
  Forall (λ v, (v < 64)%N) ss → Forall (λ c, (c < 256)%N) (octets ss).
Proof.
  assert (∀ a b, (a < 64 → b < 64 →
                  N.lor (N.shiftl a 2) (N.shiftr b 4) < 256)%N) as H1.
  { intros a b Ha Hb. apply lor_below_256.
    - rewrite N.shiftl_mul_pow2. change (2 ^ 2)%N with 4%N. lia.
    - rewrite N.shiftr_div_pow2. change (2 ^ 4)%N with 16%N.
      apply N.Div0.div_lt_upper_bound. lia. }
  assert (∀ b c, (b < 64 → c < 64 →
                  N.lor (N.shiftl (N.land b 15) 4) (N.shiftr c 2) < 256)%N)
    as H2.
  { intros b c Hb Hc. apply lor_below_256.
    - rewrite N.shiftl_mul_pow2. change (2 ^ 4)%N with 16%N.
      pose proof (N.land_le_r b 15). lia.
    - rewrite N.shiftr_div_pow2. change (2 ^ 2)%N with 4%N.
      apply N.Div0.div_lt_upper_bound. lia. }
  assert (∀ c d, (c < 64 → d < 64 →
                  N.lor (N.shiftl (N.land c 3) 6) d < 256)%N) as H3.
  { intros c d Hc Hd. apply lor_below_256; [|lia].
    rewrite N.shiftl_mul_pow2. change (2 ^ 6)%N with 64%N.
    pose proof (N.land_le_r c 3). lia. }
  assert (∀ n ss, (length ss ≤ n)%nat → Forall (λ v, (v < 64)%N) ss →
                  Forall (λ c, (c < 256)%N) (octets ss)) as Hind.
  { induction n as [|n IH]; intros l Hlen Hl.
    - destruct l; [constructor | cbn in Hlen; lia].
    - destruct l as [|a [|b [|c [|d r]]]]; try (by constructor).
      + apply Forall_cons in Hl as [Ha Hl]. apply Forall_cons in Hl as [Hb _].
        cbn. repeat constructor. by apply H1.
      + apply Forall_cons in Hl as [Ha Hl]. apply Forall_cons in Hl as [Hb Hl].
        apply Forall_cons in Hl as [Hc _].
        cbn. repeat constructor; [by apply H1 | by apply H2].
      + apply Forall_cons in Hl as [Ha Hl]. apply Forall_cons in Hl as [Hb Hl].
        apply Forall_cons in Hl as [Hc Hl]. apply Forall_cons in Hl as [Hd Hl].
        cbn [octets]. repeat constructor;
          [by apply H1 | by apply H2 | by apply H3 |].
        apply IH; [cbn in Hlen; lia | done]. }
  apply (Hind (length ss)). done.
Qed.

Lemma Z_of_byte_of_N c :
  (c < 256)%N → Z_of_byte (byte_of_Z (Z.of_N c)) = Z.of_N c.
Proof.
  intros Hc. rewrite Z_of_byte_of_Z. apply Z.mod_small. lia.
Qed.

(** X4. [decode] loses nothing: it throws exactly when [atob] does, and
    otherwise returns one byte per code unit of the binary string, each
    byte being that code unit; no store into the array truncates. *)
Theorem decode_lossless (base64 : jsstring) :
  match atob base64 with
  | None => decode base64 = None
  | Some binaryString =>
    ∃ bytes, decode base64 = Some bytes
             ∧ length bytes = length binaryString
             ∧ Z_of_byte <$> bytes = Z.of_N <$> binaryString
  end.
Proof.
  unfold decode. destruct (atob base64) as [binaryString|] eqn:Hatob; [|done].
  eexists. split; [reflexivity|]. split; [by rewrite length_fmap|].
  assert (Forall (λ c, (c < 256)%N) binaryString) as Hbelow.
  { unfold atob in Hatob.
    destruct (length _ mod 4 =? 1)%nat; [done|].
    destruct (mapM sextet _) as [ss|] eqn:Hss; [|done].
    injection Hatob as <-. apply octets_below.
    by apply (mapM_sextet_below _ _ Hss). }
  rewrite <-list_fmap_compose. apply Forall_fmap_ext_1.
  eapply Forall_impl; [exact Hbelow|]. intros c Hc. by apply Z_of_byte_of_N.
Qed.


End CodecOutcomes.

Lemma decodeAudioData_outcome_witness :
  ∃ buf,
    Codec.decodeAudioData [x00; x00; xff; x7f] Codec.baselineContext 24000 1
    = inr buf
    ∧ Codec.frames buf = 2%N ∧ Codec.numberOfChannels buf = 1%N
    ∧ length (Codec.channels buf) = 1%nat.
Proof.
  pose proof (decodeAudioData_outcome [x00; x00; xff; x7f]
                Codec.baselineContext 24000 1) as H.
  destruct (Codec.decodeAudioData [x00; x00; xff; x7f] Codec.baselineContext
              24000 1) as [e|buf].
  - exfalso. specialize (H ltac:(lia) ltac:(cbn; lia)).
    vm_compute in H. discriminate H.
  - exists buf. split; [reflexivity|].
    specialize (H ltac:(lia) ltac:(cbn; lia)).
    vm_compute in H. injection H as ->. by vm_compute.
Defined.

(** ** Download *)

Section DownloadFacts.
Import JsString Buffer Wav Exn Codec Playback.

Variable platformMessage : ErrorName → jsstring.

(** X5. A click on the download button: nothing happens exactly when there
    is no audio (none generated, or the empty string); the only exception
    is the one [atob] throws for text that is not base64, [createWavBlob]
    never throws; otherwise the file is named after the selected voice and
    is a mono, 24 kHz, 16-bit PCM container of the decoded bytes. *)
Theorem handleDownloadAudio_cases (p : Player) :
  (handleDownloadAudio p = NotStarted
   ↔ generatedAudioData p = None ∨ generatedAudioData p = Some [])
  ∧ (∀ name, handleDownloadAudio p = Throws name →
       name = InvalidCharacterError
       ∧ ∃ data, generatedAudioData p = Some data ∧ decode data = None)
  ∧ (∀ download blob, handleDownloadAudio p = Saved download blob →
       ∃ data audioBytes,
         generatedAudioData p = Some data
         ∧ decode data = Some audioBytes
         ∧ download = js "prompt-voice-" ++ voiceSelection p ++ js ".wav"
         ∧ blob_type blob = "audio/wav"%string
         ∧ drop 44 (blob_bytes blob) = audioBytes
         ∧ getUint16 20 true (blob_bytes blob) = Some 1
         ∧ getUint16 22 true (blob_bytes blob) = Some 1
         ∧ getUint32 24 true (blob_bytes blob) = Some 24000
         ∧ getUint32 28 true (blob_bytes blob) = Some 48000
         ∧ getUint16 32 true (blob_bytes blob) = Some 2
         ∧ getUint16 34 true (blob_bytes blob) = Some 16
         ∧ getUint32 40 true (blob_bytes blob)
           = Some (Z.of_nat (length audioBytes) mod 2 ^ 32)).
Proof.
  unfold handleDownloadAudio.
  destruct (generatedAudioData p) as [[|c data]|] eqn:Hdata.
  - split; [split; [by right | done]|]. split; [done|done].
  - destruct (decode (c :: data)) as [audioBytes|] eqn:Hdecode.
    + rewrite createWavBlob_layout.
      split; [split; [done | by intros [|]]|]. split; [done|].
      destruct (canonicalHeader_fields (length audioBytes) 1 24000 16
                  audioBytes)
        as (_ & _ & _ & _ & _ & H20 & H22 & H24 & H28 & H32 & H34 & _ & H40).
      pose proof (length_canonicalHeader (length audioBytes) 1 24000 16).
      set (header := canonicalHeader (length audioBytes) 1 24000 16) in *.
      clearbody header.
      intros download blob [= <- <-].
      exists (c :: data), audioBytes. cbn [blob_bytes blob_type].
      split; [done|]. split; [done|]. split; [done|]. split; [done|].
      split; [by rewrite drop_app_length' by done|].
      split_and!; assumption.
    + split; [split; [done | by intros [|]]|]. split; [|done].
      intros name [= <-]. split; [done|]. by exists (c :: data).
  - split; [split; [by left | done]|]. split; [done|done].
Qed.

(** The file saved for cached audio that decodes. *)
Lemma handleDownloadAudio_saved (p : Player) data audioBytes :
  generatedAudioData p = Some data → data ≠ [] →
  decode data = Some audioBytes →
  handleDownloadAudio p
  = Saved (js "prompt-voice-" ++ voiceSelection p ++ js ".wav")
      {| blob_bytes := canonicalHeader (length audioBytes) 1 24000 16
                       ++ audioBytes;
         blob_type := "audio/wav" |}.
Proof.
  intros Hdata Hne Hdecode. unfold handleDownloadAudio. rewrite Hdata.
  destruct data as [|c data]; [done|].
  by rewrite Hdecode, createWavBlob_layout.
Qed.

(** X6. The file matches what is played: when [playDecodedAudio] starts a
    node for the cached audio, the download button saves a container
    whose payload, read as little-endian 16-bit samples and divided by
    32768, is channel 0 of the buffer of that node, frame by frame, and
    whose header states the channel count and the rate of that buffer. *)
Theorem download_matches_playback (data : jsstring) (p p' : Player) :
  generatedAudioData p = Some data →
  playDecodedAudio platformMessage data p = inr p' →
  (∀ audioBytes, decode data = Some audioBytes →
                 Z.of_nat (length audioBytes) < 2 ^ 32) →
  ∃ download blob node,
    handleDownloadAudio p = Saved download blob
    ∧ last (sources p') = Some node
    ∧ activeAudioSourceRef p' = Some (length (sources p))
    ∧ channels (buffer node)
      = [(λ s, normalized (Some s))
           <$> int16_elements (drop 44 (blob_bytes blob))]
    ∧ getUint32 40 true (blob_bytes blob)
      = Some (2 * Z.of_N (frames (buffer node)))
    ∧ getUint16 22 true (blob_bytes blob)
      = Some (Z.of_N (numberOfChannels (buffer node)))
    ∧ getUint32 24 true (blob_bytes blob)
      = Some (Z.of_N (Codec.sampleRate (buffer node))).
Proof.
  intros Hdata Hplay Hsize.
  apply playDecodedAudio_inr in Hplay
    as (ctx & audioBytes & audioBuffer & Hctx & Hdecode & Hbuffer & ->).
  specialize (Hsize audioBytes Hdecode).
  destruct (decodeAudioData_mono audioBytes ctx audioBuffer)
    as (Hlen & Hpos & Hnc & Hsr & Hchannels); [lia | done |].
  assert (data ≠ []) as Hne.
  { intros ->. revert Hdecode. vm_compute. intros [= <-]. cbn in Hlen. lia. }
  rewrite (handleDownloadAudio_saved p data audioBytes Hdata Hne Hdecode).
  destruct (canonicalHeader_fields (length audioBytes) 1 24000 16 audioBytes)
    as (_ & _ & _ & _ & _ & _ & H22 & H24 & _ & _ & _ & _ & H40).
  pose proof (length_canonicalHeader (length audioBytes) 1 24000 16) as Hheader.
  set (header := canonicalHeader (length audioBytes) 1 24000 16) in *.
  clearbody header.
  eexists _, _, {| buffer := audioBuffer; status := Playing |}.
  split; [reflexivity|].
  cbn [sources setIsPlayingAudio setActiveAudioSourceRef setSources
         activeAudioSourceRef buffer Wav.blob_bytes].
  split; [by rewrite last_snoc|]. split; [done|].
  split; [by rewrite drop_app_length' by done|].
  split; [rewrite H40; f_equal; rewrite Z.mod_small by lia; lia|].
  rewrite Hnc, Hsr. split; assumption.
Qed.

End DownloadFacts.

Lemma download_matches_playback_witness :
  let p := Playback.setGeneratedAudioData
             (Some (JsString.js "AAD/fwCAAQD//w=="))
             (Playback.player
                (Playback.mounted Codec.baselineContext
                   (JsString.js "calm voice"))) in
  ∃ p' download blob node,
    Playback.playDecodedAudio (λ _, []) (JsString.js "AAD/fwCAAQD//w==") p
    = inr p'
    ∧ Playback.handleDownloadAudio p = Playback.Saved download blob
    ∧ last (Playback.sources p') = Some node
    ∧ Codec.channels (Playback.buffer node)
      = [(λ s, Codec.normalized (Some s))
           <$> Codec.int16_elements (drop 44 (Wav.blob_bytes blob))]
    ∧ Buffer.getUint32 40 true (Wav.blob_bytes blob) = Some 10.
Proof.
  intros p.
  destruct (Playback.playDecodedAudio (λ _, [])
              (JsString.js "AAD/fwCAAQD//w==") p) as [e|p'] eqn:Hplay;
    [by vm_compute in Hplay|].
  assert (Playback.generatedAudioData p
          = Some (JsString.js "AAD/fwCAAQD//w==")) as Hdata by reflexivity.
  assert (∀ audioBytes,
            Codec.decode (JsString.js "AAD/fwCAAQD//w==") = Some audioBytes →
            Z.of_nat (length audioBytes) < 2 ^ 32) as Hsize.
  { intros audioBytes Hdecode. vm_compute in Hdecode.
    injection Hdecode as <-. reflexivity. }
  destruct (download_matches_playback (λ _, [])
              (JsString.js "AAD/fwCAAQD//w==") p p' Hdata Hplay Hsize)
    as (download & blob & node & Hdl & Hlast & _ & Hch & H40 & _).
  exists p', download, blob, node.
  split; [reflexivity|]. split; [exact Hdl|]. split; [exact Hlast|].
  split; [exact Hch|]. rewrite H40.
  vm_compute in Hplay. injection Hplay as <-.
  vm_compute in Hlast. injection Hlast as <-. reflexivity.
Defined.

(** ** Recommended voices and the prompt display *)

Section VoiceBounds.
Import JsString Exn Voice.

Lemma length_split sep s :
  length (split sep s) = S (length (filter (λ c, c = sep) s)).
Proof.
  induction s as [|c s IH]; [done|]. cbn [split].
  rewrite filter_cons.
  destruct (N.eqb_spec c sep) as [->|Hne].
  - rewrite decide_True by done. cbn. by rewrite IH.
  - rewrite decide_False by done.
    destruct (split sep s) as [|w ws]; [done|]. by rewrite <-IH.
Qed.

Lemma filter_trimStart (P : N → Prop) `{!∀ c, Decision (P c)} s :
  (length (filter P (trimStart s)) ≤ length (filter P s))%nat.
Proof.
  induction s as [|c s IH]; [done|]. cbn [trimStart].
  destruct (isWhiteSpace c); [|done].
  rewrite (filter_cons P c s). destruct (decide (P c)); cbn; lia.
Qed.

Lemma filter_trim (P : N → Prop) `{!∀ c, Decision (P c)} s :
  (length (filter P (trim s)) ≤ length (filter P s))%nat.
Proof.
  unfold trim, trimEnd.
  rewrite filter_reverse, length_reverse.
  etrans; [apply filter_trimStart|].
  rewrite filter_reverse, length_reverse. apply filter_trimStart.
Qed.

(** X7. [recommendVoicesFromPrompt] settles with a list for every
    outcome of its service call, a rejected one and a response without
    text included. The list is never empty and holds names of the catalog
    only. It is longer than three names only when the response has more
    than two commas: nothing is cut off, but the fallback has at most
    three names and a response gives at most one name per field. *)
Theorem recommendVoicesFromPrompt_sound
    (audioPrompt : jsstring) (response : Outcome (option jsstring)) :
  let recommended := recommendVoicesFromPrompt audioPrompt response in
  let commas :=
    match response with
    | Resolved (Some text) => length (filter (λ c, c = comma) text)
    | _ => 0%nat
    end in
  recommended ≠ []
  ∧ Forall (λ v, v ∈ validVoices) recommended
  ∧ (length recommended ≤ max 3 (S commas))%nat
  ∧ (recommended = fallbackVoices audioPrompt
     ∨ ∃ text, response = Resolved (Some text)
               ∧ recommended `sublist_of` (trim <$> split comma (trim text))).
Proof.
  cbn zeta.
  destruct (recommendVoicesFromPrompt_valid audioPrompt response)
    as [Hne Hvalid].
  split; [done|]. split; [done|].
  destruct (fallbackVoices_valid audioPrompt) as (_ & Hlen & _).
  rewrite recommendVoicesFromPrompt_cases. cbn zeta.
  destruct response as [[text|]|err]; [|split; [lia | by left]..].
  destruct (filter _ (trim <$> _)) as [|v vs] eqn:Hf;
    [split; [lia | by left]|].
  rewrite <-Hf.
  pose proof (sublist_filter (λ v, v ∈ validVoices)
                (trim <$> split comma (trim text))) as Hsub.
  split; [|right; by exists text].
  apply sublist_length in Hsub.
  rewrite length_fmap, length_split in Hsub.
  pose proof (filter_trim (λ c, c = comma) text). lia.
Qed.

End VoiceBounds.

Section DisplayFacts.
Import JsString Exn Display.

Lemma allVoices_names : name <$> allVoices = Voice.validVoices.
Proof. reflexivity. Qed.

Lemma voiceLabelMap_lookup v :
  v ∈ allVoices → voiceLabelMap !! name v = Some (label v).
Proof.
  intros Hv. unfold allVoices, voiceGroups in Hv. cbn in Hv.
  repeat (apply elem_of_cons in Hv as [->|Hv]; [by vm_compute|]).
  by apply elem_of_nil in Hv.
Qed.

Lemma voiceLabelMap_valid voiceName :
  voiceName ∈ Voice.validVoices →
  ∃ v, v ∈ allVoices ∧ name v = voiceName
       ∧ voiceLabelMap !! voiceName = Some (label v).
Proof.
  rewrite <-allVoices_names. intros (v & -> & Hv)%list_elem_of_fmap.
  exists v. split; [done|]. split; [done|]. by apply voiceLabelMap_lookup.
Qed.

Lemma NoDup_validVoices : NoDup Voice.validVoices.
Proof. apply (bool_decide_unpack _). by vm_compute. Qed.

Lemma filter_fmap_name (P : jsstring → Prop) `{!∀ x, Decision (P x)}
    (l : list VoiceOption) :
  name <$> filter (λ v, P (name v)) l = filter P (name <$> l).
Proof.
  induction l as [|v l IH]; [done|].
  rewrite fmap_cons, !filter_cons.
  destruct (decide (P (name v))); cbn; by rewrite IH.
Qed.

(** X8. The voice menu. Whatever valid names are recommended, every
    entry of the menu is a voice of the catalog with its own label (no
    recommended entry is left without one), every voice of the catalog
    is in the menu, whose five names are exactly the ones the
    recommendation service is allowed to return, and a recommended voice
    is not listed a second time among the others. Recommended names
    without repetition make the menu a permutation of the catalog. *)
Theorem voiceOptions_catalog (recommendedVoices : list jsstring) :
  Forall (λ voiceName, voiceName ∈ Voice.validVoices) recommendedVoices →
  name <$> allVoices = Voice.validVoices
  ∧ Forall (λ option, ∃ v, v ∈ allVoices
                           ∧ option = (name v, Some (label v)))
      (voiceOptions recommendedVoices)
  ∧ (∀ v, v ∈ allVoices →
          (name v, Some (label v)) ∈ voiceOptions recommendedVoices)
  ∧ (∀ voiceName, voiceName ∈ recommendedVoices →
       voiceName ∉ drop (length recommendedVoices)
                     ((voiceOptions recommendedVoices).*1))
  ∧ (NoDup recommendedVoices →
     (voiceOptions recommendedVoices).*1 ≡ₚ name <$> allVoices).
Proof.
  intros Hvalid. split; [done|].
  assert ((voiceOptions recommendedVoices).*1
          = recommendedVoices
            ++ filter (λ voiceName, voiceName ∉ recommendedVoices)
                 Voice.validVoices) as Hnames.
  { unfold voiceOptions. rewrite fmap_app, <-!list_fmap_compose.
    f_equal; [by rewrite <-(list_fmap_id recommendedVoices) at 2|].
    rewrite <-allVoices_names.
    by rewrite <-(filter_fmap_name (λ x, x ∉ recommendedVoices)). }
  split; [|split; [|split]].
  - unfold voiceOptions. apply Forall_app. split.
    + apply Forall_fmap. eapply Forall_impl; [exact Hvalid|].
      intros voiceName (v & Hv & <- & Hlabel)%voiceLabelMap_valid.
      cbn beta. exists v. by rewrite Hlabel.
    + apply Forall_fmap, list.Forall_forall.
      intros v [_ Hv]%list_elem_of_filter. by exists v.
  - intros v Hv. unfold voiceOptions. apply elem_of_app.
    destruct (decide (name v ∈ recommendedVoices)) as [Hin|Hout].
    + left. apply list_elem_of_fmap. exists (name v). split; [|done].
      cbn beta. by rewrite voiceLabelMap_lookup.
    + right. apply list_elem_of_fmap. exists v. split; [done|].
      by apply list_elem_of_filter.
  - intros voiceName Hin. rewrite Hnames, drop_app_length.
    by intros [Hout _]%list_elem_of_filter.
  - intros Hnodup. rewrite Hnames, allVoices_names.
    apply NoDup_Permutation.
    + apply NoDup_app. split; [done|]. split.
      * by intros x Hx [Hout _]%list_elem_of_filter.
      * apply NoDup_filter, NoDup_validVoices.
    + apply NoDup_validVoices.
    + intros x. rewrite elem_of_app, list_elem_of_filter.
      rewrite list.Forall_forall in Hvalid.
      split; [intros [Hx|[_ Hx]]; [by apply Hvalid | done]|].
      intros Hx. destruct (decide (x ∈ recommendedVoices)); [by left|].
      by right.
Qed.

Lemma voiceOptions_catalog_witness :
  (voiceOptions [js "Charon"; js "Kore"]).*1
  ≡ₚ [js "Kore"; js "Puck"; js "Zephyr"; js "Charon"; js "Fenrir"]
  ∧ voiceOptions [js "Charon"; js "Kore"] !! 0%nat
    = Some (js "Charon", Some (js "Charon (깊고 낮음)")).
Proof.
  destruct (voiceOptions_catalog [js "Charon"; js "Kore"])
    as (_ & _ & _ & _ & Hperm).
  { repeat constructor; apply (bool_decide_unpack _); by vm_compute. }
  split; [|by vm_compute]. apply Hperm.
  apply (bool_decide_unpack _). by vm_compute.
Defined.

(** X9. The recommendation effect. For a voice prompt that is not empty
    the effect drops the translation and the earlier recommendation,
    raises the flag and asks for voices for that prompt. As the promise
    never rejects, the [catch] branch with its [Puck] default is never
    taken: once the call settles, whatever the service did, the flag is
    cleared, the list is the one [recommendVoicesFromPrompt] computed, and
    the selected voice is the first name of that list, a voice the menu
    has a label for. *)
Theorem recommendation_selects_first
    (d : Display) (response : Outcome (option jsstring)) :
  promptType d = App.VOICE → audioPrompt d ≠ [] →
  ∃ d1 resume,
    promptEffect d = Await d1 (recommendVoices (audioPrompt d)) resume
    ∧ isRecommendingVoice d1 = true ∧ recommendedVoices d1 = []
    ∧ englishPrompt d1 = None ∧ displayLanguage d1 = ko
    ∧ isTranslating d1 = false ∧ voiceSelection d1 = voiceSelection d
    ∧ let d2 := resume (recommendation (audioPrompt d) response) d1 in
      isRecommendingVoice d2 = false
      ∧ recommendedVoices d2
        = Voice.recommendVoicesFromPrompt (audioPrompt d) response
      ∧ head (recommendedVoices d2) = Some (voiceSelection d2)
      ∧ voiceSelection d2 ∈ Voice.validVoices
      ∧ is_Some (voiceLabelMap !! voiceSelection d2).
Proof.
  intros Hkind Hprompt. unfold promptEffect.
  cbn [promptType audioPrompt setRecommendedVoices setIsTranslating
         setDisplayLanguage setEnglishPrompt].
  rewrite Hkind. destruct (audioPrompt d) as [|c prompt] eqn:Hp; [done|].
  eexists _, _. split; [reflexivity|].
  do 6 (split; [reflexivity|]).
  unfold recommendation. cbn zeta.
  destruct (recommendVoicesFromPrompt_valid (c :: prompt) response)
    as [Hne Hvalid].
  destruct (Voice.recommendVoicesFromPrompt (c :: prompt) response)
    as [|first rest]; [done|].
  split; [reflexivity|]. split; [reflexivity|]. split; [reflexivity|].
  apply Forall_cons in Hvalid as [Hfirst _]. split; [exact Hfirst|].
  change (is_Some (voiceLabelMap !! first)).
  destruct (voiceLabelMap_valid first Hfirst) as (v & _ & _ & ->). by eexists.
Qed.

Lemma recommendation_selects_first_witness :
  let d := initialDisplay (js "차분한 중년 남성의 목소리") App.VOICE in
  ∃ d1 resume,
    promptEffect d = Await d1 (recommendVoices (audioPrompt d)) resume
    ∧ voiceSelection
        (resume (recommendation (audioPrompt d)
                   (Rejected (ErrorObject (js "quota")))) d1)
      ∈ Voice.validVoices.
Proof.
  intros d.
  destruct (recommendation_selects_first d
              (Rejected (ErrorObject (js "quota"))))
    as (d1 & resume & Hrun & _ & _ & _ & _ & _ & _ & _ & _ & _ & Hsel & _);
    [reflexivity | by vm_compute |].
  exists d1, resume. split; [exact Hrun | exact Hsel].
Defined.

(** X10. Translation. A click while a translation is in flight does
    nothing. Otherwise the flag is raised and the prompt as generated
    (not the text on display) is sent. A resolved call stores the
    translation and switches the display to it, except that an empty
    translation leaves the generated prompt on display; a rejected call
    changes nothing; either way the flag is cleared. The next prompt
    effect drops the translation and shows the generated prompt again. *)
Theorem handleTranslate_cases (d : Display) :
  (isTranslating d = true → handleTranslate d = Done d)
  ∧ (isTranslating d = false →
     ∃ resume,
       handleTranslate d
       = Await (setIsTranslating true d) (translateToEnglish (audioPrompt d))
           resume
       ∧ (∀ translation d1,
            let d2 := resume (Resolved translation) d1 in
            isTranslating d2 = false
            ∧ englishPrompt d2 = Some translation
            ∧ displayLanguage d2 = en
            ∧ displayedPrompt d2
              = (if decide (translation = []) then audioPrompt d1
                 else translation)
            ∧ (let d3 := match promptEffect d2 with
                         | Done d' | Await d' _ _ => d'
                         end in
               englishPrompt d3 = None
               ∧ displayedPrompt d3 = audioPrompt d1))
       ∧ (∀ error d1,
            resume (Rejected error) d1 = setIsTranslating false d1)).
Proof.
  unfold handleTranslate. split; intros ->; [done|].
  eexists. split; [reflexivity|]. split; [|done].
  intros translation d1. cbn zeta.
  split; [done|]. split; [done|]. split; [done|]. split.
  - unfold displayedPrompt. cbn. by destruct translation.
  - unfold promptEffect.
    cbn [promptType audioPrompt setRecommendedVoices setIsTranslating
           setDisplayLanguage setEnglishPrompt].
    destruct (promptType d1), (audioPrompt d1) eqn:Hprompt;
      split; try reflexivity; unfold displayedPrompt; cbn; by rewrite Hprompt.
Qed.

End DisplayFacts.

Lemma handleTranslate_cases_witness :
  let d := Display.initialDisplay (JsString.js "차분한 목소리") App.VOICE in
  ∃ resume,
    Display.handleTranslate d
    = Display.Await (Display.setIsTranslating true d)
        (Display.translateToEnglish (Display.audioPrompt d)) resume
    ∧ Display.displayedPrompt
        (resume (Exn.Resolved (JsString.js "a calm voice"))
           (Display.setIsTranslating true d))
      = JsString.js "a calm voice".
Proof.
  intros d.
  destruct (proj2 (handleTranslate_cases d) eq_refl)
    as (resume & Hrun & Hresolved & _).
  exists resume. split; [exact Hrun|].
  destruct (Hresolved (JsString.js "a calm voice")
              (Display.setIsTranslating true d)) as (_ & _ & _ & Hshown & _).
  rewrite Hshown. reflexivity.
Defined.

(** ** Other branches of the workflow *)

Section WorkflowBranches.
Import JsString Exn App.

Lemma split_no_sep sep s : sep ∉ s → split sep s = [s].
Proof.
  induction s as [|c s IH]; [done|]. intros Hnot.
  apply not_elem_of_cons in Hnot as [Hne Hnot]. cbn [split].
  destruct (N.eqb_spec c sep) as [->|_]; [done|]. by rewrite IH.
Qed.

Lemma split_first_field sep field rest :
  sep ∉ field → split sep (field ++ sep :: rest) = field :: split sep rest.
Proof.
  induction field as [|c field IH]; intros Hnot.
  - cbn [app split]. by rewrite N.eqb_refl.
  - apply not_elem_of_cons in Hnot as [Hne Hnot]. cbn [app split].
    destruct (N.eqb_spec c sep) as [->|_]; [done|]. by rewrite IH.
Qed.

(** X11. Regeneration. When a generation resolves, whatever other
    handlers ran while it was in flight, the selection screen shows its
    images and offers regeneration. [handleRegenerateImages] reads the
    description stored at the moment of the click: when it is not empty,
    the images shown are dropped and that description is sent again; it
    is the one of the request when nothing has changed it since, as when
    nothing ran in between. When no description is stored at that
    moment, as after a reset during the call, the handler sends nothing
    and reports an error. *)
Theorem regenerate_reissues
    (s s1 : Session) (description : jsstring) (images : list ImageInfo) :
  description ≠ [] →
  let r1 := handleGenerateImage description s in
  let s2 := settledAt r1 (Resolved images) s1 in
  let r3 := handleRegenerateImages s2 in
  (fst (renderContent s2) = ImageSelectionScreen images
   ∧ offered s2 Regenerate = true
   ∧ lastPrompt s2 = lastPrompt s1)
  ∧ lastPrompt (suspended r1) = description
  ∧ (lastPrompt s1 ≠ [] →
     issued r3 = Some (generateImage (lastPrompt s1))
     ∧ appState (suspended r3) = GENERATING_IMAGE
     ∧ generatedImages (suspended r3) = []
     ∧ selectedImage (suspended r3) = None
     ∧ lastPrompt (suspended r3) = lastPrompt s1
     ∧ fst (renderContent (suspended r3))
       = Loading (js "AI가 멋진 이미지를 만들고 있어요...") None)
  ∧ (lastPrompt s1 = [] →
     r3 = Done (suspended r3) ∧ issued r3 = None
     ∧ appState (suspended r3) = ERROR
     ∧ error (suspended r3)
       = Some (js "재생성할 프롬프트가 없습니다. 다시 시작해주세요.")
     ∧ generatedImages (suspended r3) = images).
Proof.
  intros Hne. destruct description as [|c description]; [done|].
  cbn zeta. cbn [handleGenerateImage settledAt suspended].
  split; [done|]. split; [done|].
  unfold handleRegenerateImages.
  cbn [lastPrompt setAppState setGeneratedImages].
  split.
  - intros Hlast. destruct (lastPrompt s1) as [|c1 stored] eqn:Hstored; [done|].
    done.
  - intros ->. done.
Qed.

Lemma regenerate_reissues_witness :
  let r1 := handleGenerateImage (js "a quiet cat by a window") initialSession in
  issued (handleRegenerateImages (settledAt r1 (Resolved []) (suspended r1)))
  = Some (generateImage (lastPrompt (suspended r1)))
  ∧ lastPrompt (suspended r1) = js "a quiet cat by a window"
  ∧ appState
      (suspended
         (handleRegenerateImages
            (settledAt r1 (Resolved []) (handleReset (suspended r1)))))
    = ERROR.
Proof.
  intros r1.
  destruct (regenerate_reissues initialSession (suspended r1)
              (js "a quiet cat by a window") [])
    as (_ & Hstored & Hagain & _); [by vm_compute|].
  destruct (regenerate_reissues initialSession (handleReset (suspended r1))
              (js "a quiet cat by a window") [])
    as (_ & _ & _ & Hnone); [by vm_compute|].
  split; [|split; [exact Hstored|]].
  - by destruct Hagain as (Hissued & _); [by vm_compute|].
  - by destruct Hnone as (_ & _ & Herror & _); [reflexivity|].
Defined.

(** X12. A failed analysis. When the prompt request for a selected image
    is rejected the workflow is in ERROR with the analysis message; the
    selected image and the generated images are kept until reset, the
    error screen shows the message and offers nothing but reset, and no
    prompt text is stored. *)
Theorem analysis_failure (image : ImageInfo) (s : Session) (err : Thrown) :
  let r := handleImageSelect image s in
  let s' := settled r (Rejected err) in
  issued r
  = Some (generateVoicePromptFromImage (base64 image) (mimeType image))
  ∧ fst (renderContent (suspended r))
    = Loading (js "이미지를 분석하여 목소리 프롬프트를 생성 중입니다...")
        (Some image)
  ∧ appState s' = ERROR
  ∧ error s' = Some (js "이미지 분석 중 오류가 발생했습니다.")
  ∧ selectedImage s' = Some image
  ∧ generatedImages s' = generatedImages s
  ∧ audioPrompt s' = audioPrompt s
  ∧ renderContent s'
    = (ErrorScreen (Some (js "이미지 분석 중 오류가 발생했습니다.")), s')
  ∧ (∀ t, offered s' t = true → t = Reset)
  ∧ selectedImage (handleReset s') = None.
Proof.
  cbn zeta. split_and!; try reflexivity.
  intros t. by apply offered_ERROR.
Qed.

(** X13. An accepted switch that succeeds. Without a selected image the
    handler returns at once. With one, no switch in flight and another
    kind asked for, the request is the one of the kind asked for, made
    for the selected image; when it resolves the prompt text is the new
    one, the kind is the one asked for and the guard is cleared, while
    the workflow state and the selected image are as they were. *)
Theorem switch_accepted
    (newType : PromptType) (s : Session) (image : ImageInfo)
    (newPrompt : jsstring) :
  (selectedImage s = None → handleSwitchPromptType newType s = Done s)
  ∧ (selectedImage s = Some image → isSwitchingPrompt s = false →
     newType ≠ promptType s →
     let r := handleSwitchPromptType newType s in
     let s' := settled r (Resolved newPrompt) in
     issued r
     = Some (match newType with
             | VOICE =>
               generateVoicePromptFromImage (base64 image) (mimeType image)
             | SOUNDSCAPE =>
               generateSoundscapePromptFromImage (base64 image)
                 (mimeType image)
             end)
     ∧ isSwitchingPrompt (suspended r) = true
     ∧ error (suspended r) = None
     ∧ audioPrompt (suspended r) = audioPrompt s
     ∧ audioPrompt s' = newPrompt ∧ promptType s' = newType
     ∧ isSwitchingPrompt s' = false
     ∧ appState s' = appState s ∧ selectedImage s' = Some image
     ∧ (appState s = SHOWING_RESULT →
        renderContent s'
        = (ResultDisplay image newPrompt newType false, s'))).
Proof.
  split.
  - intros Hnone. unfold handleSwitchPromptType. by rewrite Hnone.
  - intros Himg Hsw Hne. unfold handleSwitchPromptType.
    rewrite Himg, Hsw, bool_decide_eq_false_2 by done. cbn [orb].
    cbn zeta. split_and!; try reflexivity; try done.
    intros Hstate. unfold renderContent. cbn. by rewrite Hstate, Himg.
Qed.

Lemma switch_accepted_witness :
  let image := {| base64 := js "aW1hZ2Ux"; mimeType := js "image/png" |} in
  let s := setSelectedImage (Some image)
             (setAppState SHOWING_RESULT initialSession) in
  let r := handleSwitchPromptType SOUNDSCAPE s in
  issued r
  = Some (generateSoundscapePromptFromImage (base64 image) (mimeType image))
  ∧ promptType (settled r (Resolved (js "rain on a tin roof"))) = SOUNDSCAPE
  ∧ isSwitchingPrompt (settled r (Resolved (js "rain on a tin roof")))
    = false.
Proof.
  intros image s r.
  destruct (switch_accepted SOUNDSCAPE s image (js "rain on a tin roof"))
    as [_ H].
  destruct H as (Hissued & _ & _ & _ & _ & Hkind & Hguard & _);
    [reflexivity | reflexivity | discriminate |].
  split; [exact Hissued|]. split; [exact Hkind | exact Hguard].
Defined.

(** X14. An upload. [handleImageUpload] clears the error and the images
    and leaves the workflow state alone, so the welcome screen stays up
    while the file is read. When the reader delivers a data URL, the text
    between its first comma and the end (or the next comma) becomes the
    image data, paired with the type of the file, the image is selected
    and its analysis is requested; a resolved analysis shows the result
    for that image with a voice prompt. A reader that delivers nothing,
    or fails, puts the workflow in ERROR, each with its own message, and
    asks for nothing. *)
Theorem upload_flow
    (s : Session) (fileType header data : jsstring) (rest text : jsstring) :
  comma ∉ header → comma ∉ data →
  let s0 := handleImageUpload s in
  let image := {| base64 := data; mimeType := fileType |} in
  (appState s0 = appState s ∧ error s0 = None ∧ generatedImages s0 = []
   ∧ selectedImage s0 = selectedImage s
   ∧ (appState s = IDLE → renderContent s0 = (WelcomeScreen, s0)))
  ∧ (∀ result, result = header ++ comma :: data
               ∨ result = header ++ comma :: data ++ comma :: rest →
       ∃ r, readerSettled fileType (onload (Some result)) s0 = Some r
            ∧ issued r = Some (generateVoicePromptFromImage data fileType)
            ∧ appState (suspended r) = ANALYZING_IMAGE
            ∧ selectedImage (suspended r) = Some image
            ∧ renderContent (settled r (Resolved text))
              = (ResultDisplay image text VOICE (isSwitchingPrompt s),
                 settled r (Resolved text)))
  ∧ (∀ event, event = onload None ∨ event = onload (Some []) ∨ event = onerror →
       ∃ s', readerSettled fileType event s0 = Some (Done s')
             ∧ appState s' = ERROR
             ∧ error s'
               = Some (match event with
                       | onerror => js "파일 읽기 오류가 발생했습니다."
                       | onload _ => js "파일을 읽는 데 실패했습니다."
                       end)
             ∧ selectedImage s' = selectedImage s).
Proof.
  intros Hheader Hdata. cbn zeta. split; [|split].
  - split_and!; try reflexivity. intros Hidle.
    unfold renderContent, handleImageUpload. cbn. by rewrite Hidle.
  - intros result Hresult.
    assert (split comma result !! 1%nat = Some data) as Hfield.
    { destruct Hresult as [-> | ->];
        rewrite split_first_field by done; cbn [lookup list_lookup].
      - by rewrite split_no_sep.
      - by rewrite split_first_field. }
    assert (result ≠ []) as Hne.
    { destruct Hresult as [-> | ->]; by destruct header. }
    destruct result as [|c result]; [done|].
    unfold readerSettled. rewrite Hfield.
    eexists. split; [reflexivity|]. split_and!; reflexivity.
  - intros event [-> | [-> | ->]]; eexists; split_and!; reflexivity.
Qed.

Lemma upload_flow_witness :
  let s0 := handleImageUpload initialSession in
  ∃ r, readerSettled (js "image/png")
         (onload (Some (js "data:image/png;base64,aW1hZ2Ux"))) s0 = Some r
       ∧ issued r
         = Some (generateVoicePromptFromImage (js "aW1hZ2Ux") (js "image/png"))
       ∧ appState (suspended r) = ANALYZING_IMAGE.
Proof.
  intros s0.
  destruct (upload_flow initialSession (js "image/png")
              (js "data:image/png;base64") (js "aW1hZ2Ux") [] [])
    as (_ & Hload & _).
  { apply (bool_decide_unpack _). by vm_compute. }
  { apply (bool_decide_unpack _). by vm_compute. }
  destruct (Hload (js "data:image/png;base64,aW1hZ2Ux"))
    as (r & Hr & Hissued & Hstate & _); [left; reflexivity|].
  exists r. split; [exact Hr|]. split; [exact Hissued | exact Hstate].
Defined.

(** X15. The guard of [renderContent] and the error branch of
    [handleRegenerateImages] are reached when an upload overlaps a
    generation. A file is uploaded and, while it is read, a description
    is submitted; the reader delivers and the analysis of the file is
    requested; the generation resolves and the selection screen is
    shown, where regeneration is asked for, which drops the selected
    image. When the analysis now resolves the workflow is in
    SHOWING_RESULT without an image: [renderContent] shows nothing and
    resets the session, description included. When the second
    generation resolves the selection screen is shown again, and asking
    for regeneration there sends nothing and reports an error. *)
Theorem upload_overlapping_generation
    (s : Session) (fileType header data description text : jsstring)
    (images images' : list ImageInfo) :
  appState s = IDLE → comma ∉ header → comma ∉ data → description ≠ [] →
  let s0 := handleImageUpload s in
  let r1 := handleGenerateImage description s0 in
  ∃ r2,
    readerSettled fileType (onload (Some (header ++ comma :: data)))
      (suspended r1) = Some r2
    ∧ let s3 := settledAt r1 (Resolved images) (suspended r2) in
      let r3 := handleRegenerateImages s3 in
      let s4 := settledAt r2 (Resolved text) (suspended r3) in
      let s5 := snd (renderContent s4) in
      let s6 := settledAt r3 (Resolved images') s5 in
      offered s0 (Submit description) = true
      ∧ (fst (renderContent s3) = ImageSelectionScreen images
         ∧ offered s3 Regenerate = true
         ∧ issued r3 = Some (generateImage description))
      ∧ (appState s4 = SHOWING_RESULT ∧ selectedImage s4 = None
         ∧ fst (renderContent s4) = Blank
         ∧ appState s5 = IDLE ∧ lastPrompt s5 = [])
      ∧ (fst (renderContent s6) = ImageSelectionScreen images'
         ∧ offered s6 Regenerate = true
         ∧ issued (handleRegenerateImages s6) = None
         ∧ appState (suspended (handleRegenerateImages s6)) = ERROR
         ∧ error (suspended (handleRegenerateImages s6))
           = Some (js "재생성할 프롬프트가 없습니다. 다시 시작해주세요.")).
Proof.
  intros Hidle Hheader Hdata Hne. cbn zeta.
  destruct description as [|c description]; [done|].
  assert (split comma (header ++ comma :: data) !! 1%nat = Some data)
    as Hfield.
  { rewrite split_first_field by done. cbn [lookup list_lookup].
    by rewrite split_no_sep. }
  assert (∃ c0 result, header ++ comma :: data = c0 :: result)
    as (c0 & result & Hresult) by (destruct header; eauto).
  rewrite Hresult in Hfield |- *.
  unfold readerSettled. rewrite Hfield.
  eexists. split; [reflexivity|].
  split.
  { unfold offered, handleImageUpload. cbn. by rewrite Hidle. }
  split_and!; reflexivity.
Qed.

End WorkflowBranches.

Lemma upload_overlapping_generation_witness :
  let s0 := App.handleImageUpload App.initialSession in
  let r1 := App.handleGenerateImage (JsString.js "a quiet cat") s0 in
  ∃ r2,
    App.readerSettled (JsString.js "image/png")
      (App.onload (Some (JsString.js "data:image/png;base64,aW1hZ2Ux")))
      (App.suspended r1) = Some r2
    ∧ let s3 := App.settledAt r1 (Exn.Resolved []) (App.suspended r2) in
      let r3 := App.handleRegenerateImages s3 in
      let s4 := App.settledAt r2 (Exn.Resolved (JsString.js "a calm voice"))
                  (App.suspended r3) in
      App.appState s4 = App.SHOWING_RESULT ∧ App.selectedImage s4 = None.
Proof.
  intros s0 r1.
  destruct (upload_overlapping_generation App.initialSession
              (JsString.js "image/png") (JsString.js "data:image/png;base64")
              (JsString.js "aW1hZ2Ux") (JsString.js "a quiet cat")
              (JsString.js "a calm voice") [] [])
    as (r2 & Hr2 & _ & _ & (Hstate & Himage & _) & _).
  { reflexivity. }
  { apply (bool_decide_unpack _). by vm_compute. }
  { apply (bool_decide_unpack _). by vm_compute. }
  { by vm_compute. }
  exists r2. split; [exact Hr2|]. split; [exact Hstate | exact Himage].
Defined.

(** ** Invariants of the playback controller *)

Section PlaybackInvariants.
Import JsString Exn Codec Playback.

Variable platformMessage : ErrorName → jsstring.

Local Abbreviation playDecodedAudio := (playDecodedAudio platformMessage).
Local Abbreviation handlePlayAudio := (handlePlayAudio platformMessage).
Local Abbreviation handlePlayAudio_resume := (handlePlayAudio_resume platformMessage).
Local Abbreviation step := (step platformMessage).
Local Abbreviation consistent := (consistent platformMessage).

(** An asset that is not valid makes [playDecodedAudio] throw a platform
    exception, before anything is changed. *)
Lemma playDecodedAudio_inl base64Audio ctx :
  ¬ validAsset ctx base64Audio →
  ∃ name, ∀ p, audioCtxRef p = Some ctx →
               playDecodedAudio base64Audio p
               = inl (ErrorObject (platformMessage name)).
Proof.
  intros Hinvalid. unfold Playback.playDecodedAudio.
  destruct (decode base64Audio) as [audioBytes|] eqn:Hdecode;
    [|by exists InvalidCharacterError].
  destruct (decodeAudioData audioBytes ctx 24000 1)
    as [name|audioBuffer] eqn:Hbuffer.
  - exists name. intros p ->. by rewrite Hbuffer.
  - destruct Hinvalid. by exists audioBytes, audioBuffer.
Qed.

Lemma status_alter_started (f : SourceNode → SourceNode)
    (l : list SourceNode) (k id : nat) :
  (∀ n, status n = Playing ∨ status n = Finished →
        status (f n) = Playing ∨ status (f n) = Finished) →
  status <$> l !! id = Some Playing ∨ status <$> l !! id = Some Finished →
  status <$> alter f k l !! id = Some Playing
  ∨ status <$> alter f k l !! id = Some Finished.
Proof.
  intros Hf Hid. destruct (decide (k = id)) as [->|Hne].
  - rewrite list_lookup_alter_eq. destruct (l !! id) as [n|]; cbn in *.
    + destruct (Hf n) as [-> | ->]; [|by left | by right].
      destruct Hid as [[= ->] | [= ->]]; [by left | by right].
    + by destruct Hid.
  - by rewrite list_lookup_alter_ne.
Qed.

Lemma all_started_alter (f : SourceNode → SourceNode) (l : list SourceNode) k :
  (∀ n, status n ≠ Unstarted → status (f n) ≠ Unstarted) →
  (∀ id node, l !! id = Some node → status node ≠ Unstarted) →
  ∀ id node, alter f k l !! id = Some node → status node ≠ Unstarted.
Proof.
  intros Hf Hall id node Hnode. destruct (decide (k = id)) as [->|Hne].
  - rewrite list_lookup_alter_eq in Hnode.
    destruct (l !! id) as [n|] eqn:Hn; [|done].
    injection Hnode as <-. by apply Hf, (Hall id).
  - rewrite list_lookup_alter_ne in Hnode by done. by apply (Hall id).
Qed.

Lemma truthful_stop p fl id :
  truthful {| player := p; inflight := fl |} →
  truthful {| player := stop id p; inflight := fl |}.
Proof.
  intros [Hgen Hplay Href Hall]. split; cbn in *; [done | done | |].
  - intros j Hj. apply status_alter_started; [|by apply Href].
    intros n. destruct (status n) eqn:Hn; cbn; rewrite ?Hn; tauto.
  - apply all_started_alter; [|done].
    intros n. destruct (status n) eqn:Hn; cbn; by rewrite ?Hn.
Qed.

(** The player a successful [playDecodedAudio] leaves, with the
    generating flag cleared. *)
Lemma truthful_started p0 audioBuffer :
  (∀ id node, sources p0 !! id = Some node → status node ≠ Unstarted) →
  truthful
    {| player :=
         setIsGeneratingAudio false
           (setIsPlayingAudio true
              (setActiveAudioSourceRef (Some (length (sources p0)))
                 (setSources
                    (sources p0
                       ++ [{| buffer := audioBuffer; status := Playing |}])
                    p0)));
       inflight := [] |}.
Proof.
  intros Hall. split; cbn.
  - done.
  - split; [by eexists | done].
  - intros id [= <-]. left. rewrite lookup_app_r by lia.
    by rewrite Nat.sub_diag.
  - intros id node Hnode.
    destruct (decide (id < length (sources p0))%nat) as [Hlt|Hge].
    + rewrite lookup_app_l in Hnode by done. by apply (Hall id).
    + rewrite lookup_app_r in Hnode by lia.
      destruct (id - length (sources p0))%nat; [|done].
      by injection Hnode as <-.
Qed.

Lemma truthful_resume p outcome :
  consistent {| player := p; inflight := [handlePlayAudio_resume] |} →
  truthful {| player := p; inflight := [handlePlayAudio_resume] |} →
  truthful {| player := handlePlayAudio_resume outcome p; inflight := [] |}.
Proof.
  intros Hc [Hgen Hplay Href Hall]. cbn in *.
  assert (∀ error (q : Player),
    sources q = sources p →
    truthful
      {| player :=
           setIsGeneratingAudio false
             (setActiveAudioSourceRef None
                (setIsPlayingAudio false
                   (setAudioError
                      (Some (messageOr (js "알 수 없는 오류가 발생했습니다.") error))
                      q)));
         inflight := [] |}) as Hcatch.
  { intros error q Hq. split; cbn; [done | | done |].
    - split; [done | by intros []].
    - rewrite Hq. exact Hall. }
  unfold Playback.handlePlayAudio_resume.
  destruct outcome as [base64Audio|error]; [|by apply Hcatch].
  destruct (playDecodedAudio base64Audio _) as [error|p'] eqn:Hplayed;
    [by apply Hcatch|].
  apply playDecodedAudio_inr in Hplayed
    as (ctx & audioBytes & audioBuffer & _ & _ & _ & ->).
  by apply (truthful_started (setGeneratedAudioData (Some base64Audio) p)).
Qed.

Lemma truthful_step c c' :
  consistent c → truthful c → step c c' → truthful c'.
Proof.
  intros Hc Ht Hstep. destruct Hstep as
    [p fl p' Hrun | p fl p' text voice resume Hrun | p fl1 resume fl2 outcome
    | p fl id Hlive | p fl id Hfinished | p fl newPrompt | p fl voice].
  - (* a click that returns at once *)
    unfold Playback.handlePlayAudio in Hrun.
    destruct (activeAudioSourceRef p) as [source|] eqn:Href.
    { injection Hrun as <-. by apply truthful_stop. }
    destruct (isGeneratingAudio p) eqn:Hgen; [by injection Hrun as <-|].
    pose proof (consistent_idle_no_call _ _ Hc Hgen) as Hfl.
    cbn in Hfl. subst fl.
    cbn [generatedAudioData setAudioError setIsGeneratingAudio] in Hrun.
    destruct (generatedAudioData p) as [[|c0 data0]|]; [done| |done].
    set (data := c0 :: data0) in *.
    injection Hrun as <-.
    destruct (playDecodedAudio data _) as [error|p'] eqn:Hplayed.
    + destruct Ht as [Hg Hplay Hstarted Hall].
      split; cbn in *; done.
    + apply playDecodedAudio_inr in Hplayed
        as (ctx & audioBytes & audioBuffer & _ & _ & _ & ->).
      apply (truthful_started
               (setAudioError None (setIsGeneratingAudio true p))).
      exact (all_started _ Ht).
  - (* a click that suspends on [generateSpeech] *)
    unfold Playback.handlePlayAudio in Hrun.
    destruct (activeAudioSourceRef p) as [source|] eqn:Href; [done|].
    destruct (isGeneratingAudio p) eqn:Hgen; [done|].
    cbn [generatedAudioData setAudioError setIsGeneratingAudio] in Hrun.
    assert (p' = setAudioError None (setIsGeneratingAudio true p)
            ∧ resume = handlePlayAudio_resume) as [-> ->].
    { destruct (generatedAudioData p) as [[|c0 data]|]; [|done|];
        by injection Hrun as <- _ _ <-. }
    destruct Ht as [Hg Hplay Hstarted Hall]. split; cbn in *; try done.
    split; [|done]. intros _. by destruct fl.
  - (* the call settles *)
    pose proof (one_call _ _ Hc) as Hone. cbn in Hone.
    rewrite length_app in Hone. cbn in Hone.
    destruct fl1 as [|? ?]; [|cbn in Hone; lia].
    destruct fl2 as [|? ?]; [|cbn in Hone; lia].
    pose proof (call_resume _ _ Hc) as Hres. cbn in Hres.
    apply Forall_cons in Hres as [-> _].
    by apply truthful_resume.
  - (* a node plays to its end *)
    destruct Ht as [Hg Hplay Hstarted Hall]. split; cbn in *; try done.
    + intros j Hj. apply status_alter_started; [|by apply Hstarted].
      intros n _. by right.
    + apply all_started_alter; [|done]. done.
  - (* an [ended] event is delivered *)
    destruct Ht as [Hg Hplay Hstarted Hall]. split; cbn in *; try done.
    apply all_started_alter; [|done]. done.
  - (* the prompt changes *)
    unfold promptChanged.
    cbn [activeAudioSourceRef setGeneratedAudioData setDisplayedPrompt].
    assert (truthful
              {| player := setGeneratedAudioData None
                             (setDisplayedPrompt newPrompt p);
                 inflight := fl |}) as Ht'.
    { destruct Ht as [Hg Hplay Hstarted Hall]. split; cbn in *; done. }
    destruct (activeAudioSourceRef p); [by apply truthful_stop | done].
  - (* the voice changes *)
    destruct Ht as [Hg Hplay Hstarted Hall]. split; cbn in *; done.
Qed.

Lemma truthful_reachable ctx prompt c :
  rtc step (mounted ctx prompt) c → consistent c ∧ truthful c.
Proof.
  revert c. apply rtc_ind_r.
  - split; [apply consistent_mounted|]. split; cbn; done.
  - intros c c' _ Hstep [Hc Ht].
    split; [by apply (consistent_step _ c) | by apply (truthful_step c)].
Qed.

(** Without a node in the ref a consistent player is at rest. *)
Lemma consistent_idle c :
  consistent c → truthful c → activeAudioSourceRef (player c) = None →
  idle (player c).
Proof.
  intros Hc Ht Href. split; [done|]. split.
  - destruct (isPlayingAudio (player c)) eqn:Hplay; [|done].
    apply (playing_flag _ Ht) in Hplay. rewrite Href in Hplay.
    by destruct Hplay.
  - intros id Hlive. unfold live in Hlive.
    destruct (sources (player c) !! id) as [node|] eqn:Hnode; [|done].
    pose proof (consistent_all_ended _ _ _ _ Hc Href Hnode) as Hended.
    cbn in Hlive. by rewrite Hended in Hlive.
Qed.

(** X16. What the flags tell. In every configuration the component
    reaches from its mount: the generating flag is set exactly while a
    [generateSpeech] call is in flight, and there is at most one; the
    playing flag is set exactly while the ref holds a node; the node the
    ref holds exists, was started, and has not had its [ended] event
    delivered; every other node has had it. *)
Theorem flags_truthful (ctx : AudioContext) (prompt : jsstring) (c : Config) :
  rtc step (mounted ctx prompt) c →
  (isGeneratingAudio (player c) = true ↔ inflight c ≠ [])
  ∧ (length (inflight c) ≤ 1)%nat
  ∧ (isPlayingAudio (player c) = true
     ↔ is_Some (activeAudioSourceRef (player c)))
  ∧ (∀ id, activeAudioSourceRef (player c) = Some id →
       status <$> sources (player c) !! id = Some Playing
       ∨ status <$> sources (player c) !! id = Some Finished)
  ∧ (∀ id node, sources (player c) !! id = Some node →
       activeAudioSourceRef (player c) ≠ Some id → status node = Ended).
Proof.
  intros Hrtc. destruct (truthful_reachable _ _ _ Hrtc) as [Hc Ht].
  split; [exact (generating_flag _ Ht)|].
  split; [exact (one_call _ _ Hc)|].
  split; [exact (playing_flag _ Ht)|].
  split; [exact (ref_started _ Ht)|].
  intros id node Hnode Href.
  destruct (decide (status node = Ended)) as [|Hne]; [done|].
  destruct Href. by apply (active_node _ _ Hc id node).
Qed.

(** X17. Failures of the speech request. From rest without cached audio a
    click issues the request. When it is rejected the message of the
    error, or the default for a value that is not an error, is stored,
    the controller is at rest with the generating flag cleared, no node
    is created and nothing is cached, so that the next click asks again.
    When it resolves with an asset that cannot be played, the message is
    the one of the platform exception and the asset is stored all the
    same. What the next click does follows the test [!generatedAudioData]:
    a stored asset that is not the empty string is tried again without a
    request and fails with the same message, while the empty string counts
    as no asset and the click issues the request again. *)
Theorem speech_failure (ctx : AudioContext) (prompt : jsstring) (c : Config) :
  rtc step (mounted ctx prompt) c →
  activeAudioSourceRef (player c) = None →
  isGeneratingAudio (player c) = false →
  generatedAudioData (player c) = None →
  ∃ p1,
    handlePlayAudio (player c)
    = Await p1 (displayedPrompt (player c)) (voiceSelection (player c))
        handlePlayAudio_resume
    ∧ (∀ error,
         let p2 := handlePlayAudio_resume (Rejected error) p1 in
         audioError p2
         = Some (messageOr (js "알 수 없는 오류가 발생했습니다.") error)
         ∧ idle p2 ∧ isGeneratingAudio p2 = false
         ∧ sources p2 = sources (player c)
         ∧ generatedAudioData p2 = None
         ∧ ∃ p3, handlePlayAudio p2
                 = Await p3 (displayedPrompt (player c))
                     (voiceSelection (player c)) handlePlayAudio_resume)
    ∧ (∀ data, ¬ validAsset ctx data →
         let p2 := handlePlayAudio_resume (Resolved data) p1 in
         (∃ name, audioError p2 = Some (platformMessage name))
         ∧ idle p2 ∧ isGeneratingAudio p2 = false
         ∧ sources p2 = sources (player c)
         ∧ generatedAudioData p2 = Some data
         ∧ (data ≠ [] →
            ∃ p3, handlePlayAudio p2 = Done p3
                  ∧ audioError p3 = audioError p2
                  ∧ generatedAudioData p3 = Some data
                  ∧ sources p3 = sources (player c)
                  ∧ activeAudioSourceRef p3 = None
                  ∧ isGeneratingAudio p3 = false)
         ∧ (data = [] →
            ∃ p3, handlePlayAudio p2
                  = Await p3 (displayedPrompt (player c))
                      (voiceSelection (player c)) handlePlayAudio_resume
                  ∧ isGeneratingAudio p3 = true
                  ∧ audioError p3 = None)).
Proof.
  intros Hrtc Href Hgen Hdata.
  destruct (truthful_reachable _ _ _ Hrtc) as [Hc Ht].
  pose proof (reachable_context _ _ _ _ Hrtc) as Hctx.
  destruct (consistent_idle c Hc Ht Href) as (_ & Hplay & Hnone).
  unfold Playback.handlePlayAudio at 1. rewrite Href, Hgen.
  cbn [generatedAudioData setAudioError setIsGeneratingAudio].
  rewrite Hdata. eexists. split; [reflexivity|]. split.
  - intros error. cbn zeta. unfold Playback.handlePlayAudio_resume.
    split; [reflexivity|]. split; [by split|].
    split; [reflexivity|]. split; [reflexivity|]. split; [exact Hdata|].
    unfold Playback.handlePlayAudio. cbn. rewrite Hdata. by eexists.
  - intros data Hinvalid. cbn zeta.
    destruct (playDecodedAudio_inl data ctx Hinvalid) as [name Hthrown].
    unfold Playback.handlePlayAudio_resume.
    rewrite Hthrown by exact Hctx.
    cbn [messageOr].
    split; [by exists name|]. split; [by split|].
    split; [reflexivity|]. split; [reflexivity|]. split; [reflexivity|].
    unfold Playback.handlePlayAudio.
    cbn [activeAudioSourceRef isGeneratingAudio generatedAudioData
           setIsGeneratingAudio setActiveAudioSourceRef setIsPlayingAudio
           setAudioError setGeneratedAudioData].
    split.
    + intros Hdata'. destruct data as [|c0 data0]; [done|].
      set (data := c0 :: data0) in *. cbn beta iota.
      rewrite Hthrown by exact Hctx. eexists. split; [reflexivity|].
      cbn [messageOr]. split; [reflexivity|]. split; [reflexivity|].
      split; [reflexivity|]. split; reflexivity.
    + intros ->. eexists. split; [reflexivity|]. split; reflexivity.
Qed.

(** With no call in flight at most two events lead to rest: the end of
    the node the ref holds and the delivery of its [ended] event. *)
Lemma rest_within_two (ctx : AudioContext) (prompt : jsstring) (c : Config) :
  rtc step (mounted ctx prompt) c → inflight c = [] →
  ∃ n c', (n ≤ 2)%nat ∧ nsteps step n c c'
          ∧ idle (player c')
          ∧ isGeneratingAudio (player c') = false
          ∧ inflight c' = [].
Proof.
  intros Hrtc Hfl. destruct (truthful_reachable _ _ _ Hrtc) as [Hc Ht].
  assert (∀ n c', nsteps step n c c' →
                  activeAudioSourceRef (player c') = None →
                  inflight c' = [] →
                  idle (player c') ∧ isGeneratingAudio (player c') = false
                  ∧ inflight c' = []) as Hrest.
  { intros n c' Hsteps Href Hfl'.
    destruct (truthful_reachable ctx prompt c') as [Hc' Ht'].
    { etrans; [exact Hrtc|]. by eapply rtc_nsteps_2. }
    split; [by apply consistent_idle|]. split; [|done].
    destruct (isGeneratingAudio (player c')) eqn:Hgen; [|done].
    by apply (generating_flag _ Ht') in Hgen. }
  destruct c as [p fl]. cbn in Hfl. subst fl.
  destruct (activeAudioSourceRef p) as [id|] eqn:Href.
  - destruct (ref_started _ Ht id Href) as [Hplaying|Hfinished];
      cbn in Hplaying || cbn in Hfinished.
    + eexists 2%nat, _. split; [lia|]. split.
      { eapply nsteps_l; [by apply (step_end_of_stream _ p [] id)|].
        eapply nsteps_l; [|apply nsteps_O].
        apply (step_ended _ _ [] id). cbn.
        rewrite list_lookup_alter_eq.
        destruct (sources p !! id); [done | by cbn in Hplaying]. }
      eapply Hrest; [|done..].
      eapply nsteps_l; [by apply (step_end_of_stream _ p [] id)|].
      eapply nsteps_l; [|apply nsteps_O].
      apply (step_ended _ _ [] id). cbn.
      rewrite list_lookup_alter_eq.
      destruct (sources p !! id); [done | by cbn in Hplaying].
    + eexists 1%nat, _. split; [lia|]. split.
      { eapply nsteps_l; [|apply nsteps_O].
        by apply (step_ended _ p [] id). }
      eapply Hrest; [|done..].
      eapply nsteps_l; [|apply nsteps_O]. by apply (step_ended _ p [] id).
  - exists 0%nat, {| player := p; inflight := [] |}.
    split; [lia|]. split; [apply nsteps_O|].
    by apply (Hrest 0%nat); [apply nsteps_O|..].
Qed.

(** X18. The controller cannot get stuck. In every configuration it
    reaches with no call in flight, at most two more events lead to rest
    with the generating flag cleared and no call in flight: the end of the
    node the ref holds and the delivery of its [ended] event. With a call
    in flight, however the call settles, its settling is a step that
    leaves no call in flight, and from there again at most two more events
    lead to rest (three events in all); when the call is rejected the
    settling alone leads to rest, and when it resolves with a valid asset
    the settling starts a node, so that rest is two events away. *)
Theorem returns_to_rest (ctx : AudioContext) (prompt : jsstring) (c : Config) :
  rtc step (mounted ctx prompt) c →
  (inflight c = [] →
   ∃ n c', (n ≤ 2)%nat ∧ nsteps step n c c'
           ∧ idle (player c')
           ∧ isGeneratingAudio (player c') = false
           ∧ inflight c' = [])
  ∧ (inflight c ≠ [] →
     ∀ outcome,
       let c1 := {| player := handlePlayAudio_resume outcome (player c);
                    inflight := [] |} in
       step c c1
       ∧ (∃ n c', (n ≤ 2)%nat ∧ nsteps step n c1 c'
                  ∧ idle (player c')
                  ∧ isGeneratingAudio (player c') = false
                  ∧ inflight c' = [])
       ∧ (∀ error, outcome = Rejected error →
            idle (player c1) ∧ isGeneratingAudio (player c1) = false)
       ∧ (∀ data, outcome = Resolved data → validAsset ctx data →
            playing (player c1) (length (sources (player c)))
            ∧ isGeneratingAudio (player c1) = false)).
Proof.
  intros Hrtc. split; [by apply (rest_within_two ctx prompt)|].
  intros Hfl outcome c1.
  destruct (truthful_reachable _ _ _ Hrtc) as [Hc Ht].
  pose proof (reachable_context _ _ _ _ Hrtc) as Hctx.
  destruct (call_guard _ _ Hc Hfl) as [Hgen Href].
  destruct c as [p fl]. cbn [player inflight] in *.
  pose proof (one_call _ _ Hc) as Hone. cbn in Hone.
  destruct fl as [|resume [|? ?]]; [done | | cbn in Hone; lia].
  pose proof (call_resume _ _ Hc) as Hres. cbn in Hres.
  apply Forall_cons in Hres as [-> _].
  assert (step {| player := p; inflight := [handlePlayAudio_resume] |} c1)
    as Hstep
    by apply (step_settle platformMessage p [] handlePlayAudio_resume []
                outcome).
  split; [exact Hstep|]. split.
  { apply (rest_within_two ctx prompt c1); [|done].
    etrans; [exact Hrtc|]. by apply rtc_once. }
  split.
  - intros error ->. subst c1. cbn [player].
    unfold Playback.handlePlayAudio_resume.
    split; [|reflexivity]. split; [reflexivity|]. split; [reflexivity|].
    by destruct (consistent_idle _ Hc Ht Href) as (_ & _ & Hnone).
  - intros data -> Hvalid. subst c1. cbn [player].
    unfold Playback.handlePlayAudio_resume.
    destruct (playDecodedAudio_valid platformMessage data
                (setGeneratedAudioData (Some data) p) ctx)
      as [audioBuffer ->]; [done | done |].
    split; [|reflexivity].
    split; [reflexivity|]. split; [reflexivity|].
    unfold live. cbn. rewrite lookup_app_r by lia.
    by rewrite Nat.sub_diag.
Qed.

(** X19. Changes of prompt and of voice drop the cached audio. After a
    change of prompt no node is live (the active one is stopped) and no
    node is created or removed; after a change of voice the nodes are as
    they were, a playing one included. From rest, the click after either
    change issues a request, for the new prompt and for the new voice. *)
Theorem change_drops_cache
    (ctx : AudioContext) (prompt : jsstring) (c : Config)
    (newPrompt voice : jsstring) :
  rtc step (mounted ctx prompt) c →
  let p1 := promptChanged newPrompt (player c) in
  let p2 := voiceChanged voice (player c) in
  (generatedAudioData p1 = None ∧ (∀ id, ¬ live p1 id)
   ∧ length (sources p1) = length (sources (player c)))
  ∧ (generatedAudioData p2 = None ∧ sources p2 = sources (player c)
     ∧ activeAudioSourceRef p2 = activeAudioSourceRef (player c))
  ∧ (activeAudioSourceRef (player c) = None →
     isGeneratingAudio (player c) = false →
     (∃ q, handlePlayAudio p1
           = Await q newPrompt (voiceSelection (player c))
               handlePlayAudio_resume)
     ∧ (∃ q, handlePlayAudio p2
             = Await q (displayedPrompt (player c)) voice
                 handlePlayAudio_resume)).
Proof.
  intros Hrtc. cbn zeta.
  destruct (truthful_reachable _ _ _ Hrtc) as [Hc Ht].
  split; [|split].
  - unfold promptChanged.
    cbn [activeAudioSourceRef setGeneratedAudioData setDisplayedPrompt].
    destruct (activeAudioSourceRef (player c)) as [id|] eqn:Href.
    + split; [done|]. split; [|by cbn; rewrite length_alter].
      intros j Hj. unfold live, stop in Hj. cbn in Hj.
      destruct (decide (id = j)) as [<-|Hne].
      * rewrite list_lookup_alter_eq in Hj.
        destruct (sources (player c) !! id) as [n|]; [|done]. cbn in Hj.
        destruct (status n) eqn:Hn; cbn in Hj; by rewrite ?Hn in Hj.
      * rewrite list_lookup_alter_ne in Hj by done.
        destruct (sources (player c) !! j) as [n|] eqn:Hn; [|done].
        cbn in Hj. injection Hj as Hj.
        assert (activeAudioSourceRef (player c) = Some j) as Href'
          by (apply (active_node _ _ Hc j n Hn); by rewrite Hj).
        congruence.
    + split; [done|]. split; [|done].
      by destruct (consistent_idle c Hc Ht Href) as (_ & _ & Hnone).
  - done.
  - intros Href Hgen. split.
    + unfold promptChanged, Playback.handlePlayAudio.
      cbn [activeAudioSourceRef setGeneratedAudioData setDisplayedPrompt].
      rewrite Href. cbn. rewrite Href, Hgen. by eexists.
    + unfold voiceChanged, Playback.handlePlayAudio. cbn.
      rewrite Href, Hgen. by eexists.
Qed.

(** X20. A call in flight outlives a change of prompt and of voice. The
    change issues no new request and does not cancel the old one; when
    that one resolves with a valid asset, the audio generated for the
    earlier prompt and voice is cached and played under the new ones, and
    the next click at rest plays it again without a request. *)
Theorem stale_speech
    (ctx : AudioContext) (prompt : jsstring) (c : Config)
    (newPrompt voice data : jsstring) :
  rtc step (mounted ctx prompt) c → inflight c ≠ [] → validAsset ctx data →
  let p1 := voiceChanged voice (promptChanged newPrompt (player c)) in
  let p2 := handlePlayAudio_resume (Resolved data) p1 in
  rtc step c {| player := p2; inflight := [] |}
  ∧ handlePlayAudio p1 = Done p1
  ∧ displayedPrompt p2 = newPrompt ∧ voiceSelection p2 = voice
  ∧ generatedAudioData p2 = Some data
  ∧ playing p2 (length (sources (player c)))
  ∧ ∃ p3, handlePlayAudio (deliverEnded (length (sources (player c)))
                             (stop (length (sources (player c))) p2))
          = Done p3
          ∧ playing p3 (S (length (sources (player c)))).
Proof.
  intros Hrtc Hfl Hvalid. cbn zeta.
  destruct (truthful_reachable _ _ _ Hrtc) as [Hc Ht].
  pose proof (reachable_context _ _ _ _ Hrtc) as Hctx.
  destruct (call_guard _ _ Hc Hfl) as [Hgen Href].
  destruct c as [p fl]. cbn [player inflight] in *.
  pose proof (one_call _ _ Hc) as Hone. cbn in Hone.
  destruct fl as [|resume [|? ?]]; [done | | cbn in Hone; lia].
  pose proof (call_resume _ _ Hc) as Hres. cbn in Hres.
  apply Forall_cons in Hres as [-> _].
  assert (promptChanged newPrompt p
          = setGeneratedAudioData None (setDisplayedPrompt newPrompt p))
    as Hprompt.
  { unfold promptChanged.
    cbn [activeAudioSourceRef setGeneratedAudioData setDisplayedPrompt].
    by rewrite Href. }
  split.
  { eapply rtc_l; [apply (step_prompt _ p _ newPrompt)|].
    eapply rtc_l; [apply (step_voice _ _ _ voice)|].
    eapply rtc_l; [|apply rtc_refl].
    apply (step_settle _ _ [] handlePlayAudio_resume [] (Resolved data)). }
  rewrite Hprompt.
  split.
  { unfold Playback.handlePlayAudio. cbn. by rewrite Href, Hgen. }
  unfold Playback.handlePlayAudio_resume.
  destruct (playDecodedAudio_valid platformMessage data
              (setGeneratedAudioData (Some data)
                 (voiceChanged voice
                    (setGeneratedAudioData None
                       (setDisplayedPrompt newPrompt p)))) ctx)
    as [audioBuffer ->]; [done | done |].
  cbn [sources voiceChanged setGeneratedAudioData setVoiceSelection
         setDisplayedPrompt].
  split; [reflexivity|]. split; [reflexivity|]. split; [reflexivity|].
  split.
  { split; [reflexivity|]. split; [reflexivity|].
    unfold live. cbn. rewrite lookup_app_r by lia.
    by rewrite Nat.sub_diag. }
  unfold Playback.handlePlayAudio, deliverEnded, onended, stop.
  cbn [activeAudioSourceRef isGeneratingAudio generatedAudioData sources
         setIsGeneratingAudio setActiveAudioSourceRef setIsPlayingAudio
         setAudioError setGeneratedAudioData setSources setVoiceSelection
         setDisplayedPrompt].
  destruct (validAsset_nonempty _ _ Hvalid) as (c0 & rest & Hcons).
  assert (∀ (A : Type) (a b : A),
            match data with [] => a | _ :: _ => b end = b) as ->
    by (intros; by rewrite Hcons).
  match goal with
  | |- context [Playback.playDecodedAudio _ data ?q] =>
    destruct (playDecodedAudio_valid platformMessage data q ctx)
      as [audioBuffer' ->]; [done | done |]
  end.
  eexists. split; [reflexivity|].
  unfold playing, live.
  cbn [activeAudioSourceRef isPlayingAudio sources
         setIsGeneratingAudio setActiveAudioSourceRef setIsPlayingAudio
         setAudioError setGeneratedAudioData setSources setVoiceSelection
         setDisplayedPrompt].
  set (nodes := alter (setStatus Ended) _ _).
  assert (length nodes = S (length (sources p))) as Hnodes.
  { subst nodes. rewrite !length_alter, length_app. cbn. lia. }
  rewrite Hnodes. split; [done|]. split; [done|].
  rewrite lookup_app_r by lia. by rewrite Hnodes, Nat.sub_diag.
Qed.

End PlaybackInvariants.

Lemma flags_truthful_witness :
  let c := Playback.mounted Codec.baselineContext (JsString.js "calm voice") in
  ∃ p1 text voice,
    Playback.handlePlayAudio (λ _, []) (Playback.player c)
    = Playback.Await p1 text voice (Playback.handlePlayAudio_resume (λ _, []))
    ∧ Playback.isGeneratingAudio p1 = true
    ∧ (Playback.isPlayingAudio p1 = true
       ↔ is_Some (Playback.activeAudioSourceRef p1)).
Proof.
  intros c.
  destruct (Playback.handlePlayAudio (λ _, []) (Playback.player c))
    as [p'|p1 text voice resume] eqn:Hrun; [discriminate Hrun|].
  assert (resume = Playback.handlePlayAudio_resume (λ _, [])) as ->
    by (by injection Hrun).
  destruct (flags_truthful (λ _, []) Codec.baselineContext
              (JsString.js "calm voice")
              {| Playback.player := p1;
                 Playback.inflight :=
                   [Playback.handlePlayAudio_resume (λ _, [])] |})
    as (Hgen & _ & Hplay & _).
  { eapply rtc_l; [|apply rtc_refl].
    apply (Playback.step_click_await _ _ [] _ _ _ _ Hrun). }
  exists p1, text, voice. split; [reflexivity|].
  split; [by apply Hgen | exact Hplay].
Defined.

Lemma speech_failure_witness :
  let c := Playback.mounted Codec.baselineContext (JsString.js "calm voice") in
  let resume := Playback.handlePlayAudio_resume (λ _, []) in
  ∃ p1,
    Playback.handlePlayAudio (λ _, []) (Playback.player c)
    = Playback.Await p1 (Playback.displayedPrompt (Playback.player c))
        (Playback.voiceSelection (Playback.player c)) resume
    ∧ Playback.idle (resume (Exn.Rejected (Exn.NonError None)) p1)
    ∧ Playback.generatedAudioData
        (resume (Exn.Resolved (JsString.js "AAD/f")) p1)
      = Some (JsString.js "AAD/f")
    ∧ (∃ p3, Playback.handlePlayAudio (λ _, [])
               (resume (Exn.Resolved (JsString.js "AAD/f")) p1)
             = Playback.Done p3)
    ∧ (∃ p3, Playback.handlePlayAudio (λ _, [])
               (resume (Exn.Resolved []) p1)
             = Playback.Await p3
                 (Playback.displayedPrompt (Playback.player c))
                 (Playback.voiceSelection (Playback.player c)) resume).
Proof.
  intros c resume.
  destruct (speech_failure (λ _, []) Codec.baselineContext
              (JsString.js "calm voice") c)
    as (p1 & Hrun & Hrejected & Hresolved);
    [apply rtc_refl | reflexivity | reflexivity | reflexivity |].
  exists p1. split; [exact Hrun|]. split.
  { by destruct (Hrejected (Exn.NonError None)) as (_ & Hidle & _). }
  destruct (Hresolved (JsString.js "AAD/f"))
    as (_ & _ & _ & _ & Hdata & Hagain & _).
  { intros (audioBytes & audioBuffer & Hdecode & _).
    by vm_compute in Hdecode. }
  destruct (Hresolved []) as (_ & _ & _ & _ & _ & _ & Hempty).
  { intros (audioBytes & audioBuffer & Hdecode & Hbuffer).
    vm_compute in Hdecode. injection Hdecode as <-.
    by vm_compute in Hbuffer. }
  split; [exact Hdata|]. split.
  - destruct Hagain as (p3 & Hdone & _); [done|]. by exists p3.
  - destruct Hempty as (p3 & Hawait & _); [done|]. by exists p3.
Defined.

Lemma returns_to_rest_witness :
  let c := Playback.mounted Codec.baselineContext (JsString.js "calm voice") in
  let data := JsString.js "AAD/fwCAAQD//w==" in
  let resume := Playback.handlePlayAudio_resume (λ _, []) in
  ∃ p1 text voice,
    Playback.handlePlayAudio (λ _, []) (Playback.player c)
    = Playback.Await p1 text voice resume
    ∧ let c1 := {| Playback.player := resume (Exn.Resolved data) p1;
                   Playback.inflight := [] |} in
      Playback.step (λ _, [])
        {| Playback.player := p1; Playback.inflight := [resume] |} c1
      ∧ Playback.playing (Playback.player c1) 0
      ∧ ∃ n c', (n ≤ 2)%nat ∧ nsteps (Playback.step (λ _, [])) n c1 c'
                ∧ Playback.idle (Playback.player c')
                ∧ Playback.isGeneratingAudio (Playback.player c') = false
                ∧ Playback.inflight c' = [].
Proof.
  intros c data resume.
  destruct (Playback.handlePlayAudio (λ _, []) (Playback.player c))
    as [p'|p1 text voice resume'] eqn:Hrun; [discriminate Hrun|].
  assert (resume' = resume) as -> by (by injection Hrun).
  assert (Playback.validAsset Codec.baselineContext data) as Hvalid.
  { exists [x00; x00; xff; x7f; x00; x80; x01; x00; xff; xff].
    eexists. split; [by vm_compute | reflexivity]. }
  assert (Playback.sources p1 = []) as Hsources
    by (injection Hrun as <- _ _; reflexivity).
  destruct (returns_to_rest (λ _, []) Codec.baselineContext
              (JsString.js "calm voice")
              {| Playback.player := p1; Playback.inflight := [resume] |})
    as [_ Hcall].
  { eapply rtc_l; [|apply rtc_refl].
    apply (Playback.step_click_await _ _ [] _ _ _ _ Hrun). }
  destruct (Hcall ltac:(done) (Exn.Resolved data))
    as (Hstep & Hrest & _ & Hplaying).
  destruct (Hplaying data eq_refl Hvalid) as [Hplay _].
  cbn [Playback.player] in Hplay. rewrite Hsources in Hplay.
  exists p1, text, voice. split; [reflexivity|].
  cbn zeta. split; [exact Hstep|]. split; [exact Hplay | exact Hrest].
Defined.

Lemma change_drops_cache_witness :
  let c := Playback.mounted Codec.baselineContext (JsString.js "calm voice") in
  ∃ q, Playback.handlePlayAudio (λ _, [])
         (Playback.promptChanged (JsString.js "rain") (Playback.player c))
       = Playback.Await q (JsString.js "rain")
           (Playback.voiceSelection (Playback.player c))
           (Playback.handlePlayAudio_resume (λ _, [])).
Proof.
  intros c.
  destruct (change_drops_cache (λ _, []) Codec.baselineContext
              (JsString.js "calm voice") c (JsString.js "rain")
              (JsString.js "Puck")) as (_ & _ & Hclick); [apply rtc_refl|].
  destruct Hclick as [Hprompt _]; [reflexivity | reflexivity |].
  exact Hprompt.
Defined.

Lemma stale_speech_witness :
  let c := Playback.mounted Codec.baselineContext (JsString.js "calm voice") in
  let data := JsString.js "AAD/fwCAAQD//w==" in
  ∃ p1 text voice,
    Playback.handlePlayAudio (λ _, []) (Playback.player c)
    = Playback.Await p1 text voice (Playback.handlePlayAudio_resume (λ _, []))
    ∧ let p2 := Playback.handlePlayAudio_resume (λ _, [])
                  (Exn.Resolved data)
                  (Playback.voiceChanged (JsString.js "Puck")
                     (Playback.promptChanged (JsString.js "rain") p1)) in
      Playback.displayedPrompt p2 = JsString.js "rain"
      ∧ Playback.generatedAudioData p2 = Some data.
Proof.
  intros c data.
  destruct (Playback.handlePlayAudio (λ _, []) (Playback.player c))
    as [p'|p1 text voice resume] eqn:Hrun; [discriminate Hrun|].
  assert (resume = Playback.handlePlayAudio_resume (λ _, [])) as ->
    by (by injection Hrun).
  assert (Playback.validAsset Codec.baselineContext data) as Hvalid.
  { exists [x00; x00; xff; x7f; x00; x80; x01; x00; xff; xff].
    eexists. split; [by vm_compute | reflexivity]. }
  destruct (stale_speech (λ _, []) Codec.baselineContext
              (JsString.js "calm voice")
              {| Playback.player := p1;
                 Playback.inflight :=
                   [Playback.handlePlayAudio_resume (λ _, [])] |}
              (JsString.js "rain") (JsString.js "Puck") data)
    as (_ & _ & Hprompt & _ & Hdata & _).
  { eapply rtc_l; [|apply rtc_refl].
    apply (Playback.step_click_await _ _ [] _ _ _ _ Hrun). }
  { done. }
  { exact Hvalid. }
  exists p1, text, voice. split; [reflexivity|].
  split; [exact Hprompt | exact Hdata].
Defined.

(** ** Generation service *)

Section ServiceFacts.
Import JsString Exn Service.

Variable toLowerCase : jsstring → jsstring.
Variable platformMessage : ErrorName → jsstring.

Local Abbreviation handleGeminiError := (handleGeminiError toLowerCase).
Local Abbreviation generateVoicePromptFromImage :=
  (generateVoicePromptFromImage toLowerCase platformMessage).
Local Abbreviation generateSoundscapePromptFromImage :=
  (generateSoundscapePromptFromImage toLowerCase platformMessage).
Local Abbreviation translateToEnglish :=
  (translateToEnglish toLowerCase platformMessage).
Local Abbreviation generateSpeech := (generateSpeech toLowerCase).

Lemma handleGeminiError_messages error defaultMessage :
  match handleGeminiError error defaultMessage with
  | Some userMessage => userMessage ∈ defaultMessage :: categoryMessages
  | None => error = NonError None
  end.
Proof.
  unfold Service.handleGeminiError.
  assert (∀ b1 b2 b3 : bool,
            (if b1
             then js "API 사용 할당량을 초과했습니다. 잠시 후 다시 시도하거나 API 요금제를 확인해주세요."
             else if b2
             then js "API 키가 유효하지 않거나 권한이 없습니다. 올바른 API 키가 설정되었는지 확인해주세요."
             else if b3
             then js "서버에 일시적인 문제가 발생했습니다. 잠시 후 다시 시도해주세요."
             else defaultMessage)
            ∈ defaultMessage :: categoryMessages) as Hin.
  { unfold categoryMessages. intros [|] b2 b3.
    { apply list_elem_of_further, list_elem_of_here. }
    destruct b2.
    { do 2 apply list_elem_of_further. apply list_elem_of_here. }
    destruct b3.
    { do 3 apply list_elem_of_further. apply list_elem_of_here. }
    apply list_elem_of_here. }
  destruct error as [message|[text|]]; cbn [rendering]; [apply Hin..|done].
Qed.

Lemma rethrown_messages {A} error defaultMessage :
  match rethrown toLowerCase (A := A) error defaultMessage with
  | Some (Rejected reason) =>
    ∃ userMessage, reason = ErrorObject userMessage
                   ∧ userMessage ∈ defaultMessage :: categoryMessages
  | Some (Resolved _) => False
  | None => error = NonError None
  end.
Proof.
  unfold rethrown.
  pose proof (handleGeminiError_messages error defaultMessage) as H.
  destruct (handleGeminiError error defaultMessage) as [userMessage|];
    cbn; [by exists userMessage | done].
Qed.

(** What [generateSpeech] settles with. *)
Lemma generateSpeech_settled response settled :
  generateSpeech response = Some settled →
  match settled with
  | Resolved value => value ≠ [] ∧ response = Resolved (Some value)
  | Rejected reason =>
    ∃ userMessage,
      reason = ErrorObject userMessage
      ∧ userMessage
        ∈ js "음성 생성에 실패했습니다. 잠시 후 다시 시도해주세요."
          :: categoryMessages
  end.
Proof.
  unfold Service.generateSpeech.
  pose proof (rethrown_messages (A := jsstring)) as Hcatch.
  destruct response as [[[|c text]|]|error].
  - specialize (Hcatch (ErrorObject (js "API에서 오디오 데이터를 반환하지 않았습니다."))
                  (js "음성 생성에 실패했습니다. 잠시 후 다시 시도해주세요.")).
    intros H. rewrite H in Hcatch. by destruct settled.
  - by intros [= <-].
  - specialize (Hcatch (ErrorObject (js "API에서 오디오 데이터를 반환하지 않았습니다."))
                  (js "음성 생성에 실패했습니다. 잠시 후 다시 시도해주세요.")).
    intros H. rewrite H in Hcatch. by destruct settled.
  - specialize (Hcatch error
                  (js "음성 생성에 실패했습니다. 잠시 후 다시 시도해주세요.")).
    intros H. rewrite H in Hcatch. by destruct settled.
Qed.


Lemma startsWith_fmap (f : N → N) needle s :
  startsWith needle s = true → startsWith (f <$> needle) (f <$> s) = true.
Proof.
  revert s. induction needle as [|p needle IH]; intros [|c s]; cbn; try done.
  intros [->%N.eqb_eq Hrest]%andb_true_iff.
  by rewrite N.eqb_refl, IH.
Qed.

Lemma includes_fmap (f : N → N) needle s :
  includes needle s = true → includes (f <$> needle) (f <$> s) = true.
Proof.
  induction s as [|c s IH]; cbn [includes].
  - rewrite orb_false_r. intros Hstart.
    apply (startsWith_fmap f) in Hstart. cbn [fmap list_fmap] in *.
    cbn [includes]. by rewrite Hstart.
  - intros [Hstart|Hrest]%orb_true_iff; cbn [fmap list_fmap includes].
    + apply (startsWith_fmap f) in Hstart. cbn [fmap list_fmap] in Hstart.
      by rewrite Hstart.
    + by rewrite (IH Hrest), orb_true_r.
Qed.

(** On ASCII letters and Hangul syllables [toLowerCase] works one code
    unit at a time. *)
Hypothesis toLowerCase_plain :
  ∀ s, forallb plain s = true → toLowerCase s = asciiLower <$> s.

(** X22. [generateSpeech] and its own error. The promise is fulfilled
    only with audio data that is not empty. When the service answers
    without audio data, the error raised for it inside the [try] block is
    caught by the function's own [catch] and replaced: the caller gets
    the default message, not the one that names the cause. The category
    is found whatever the case of the letters: a rejection whose message
    holds [RESOURCE_EXHAUSTED] is reported as the quota message. *)
Theorem generateSpeech_rejections :
  (∀ response value,
     generateSpeech response = Some (Resolved value) →
     value ≠ [] ∧ response = Resolved (Some value))
  ∧ (∀ response, response = Resolved None ∨ response = Resolved (Some []) →
       generateSpeech response
       = Some (Rejected
                 (ErrorObject
                    (js "음성 생성에 실패했습니다. 잠시 후 다시 시도해주세요."))))
  ∧ (∀ message, forallb plain message = true →
       includes (js "RESOURCE_EXHAUSTED") message = true →
       generateSpeech (Rejected (ErrorObject message))
       = Some (Rejected
                 (ErrorObject
                    (js "API 사용 할당량을 초과했습니다. 잠시 후 다시 시도하거나 API 요금제를 확인해주세요.")))).
Proof.
  split; [|split].
  - intros response value Hsettled.
    exact (generateSpeech_settled response (Resolved value) Hsettled).
  - assert (Service.rethrown toLowerCase (A := jsstring)
              (ErrorObject (js "API에서 오디오 데이터를 반환하지 않았습니다."))
              (js "음성 생성에 실패했습니다. 잠시 후 다시 시도해주세요.")
            = Some (Rejected
                      (ErrorObject
                         (js "음성 생성에 실패했습니다. 잠시 후 다시 시도해주세요."))))
      as Hown.
    { unfold rethrown, Service.handleGeminiError. cbn [rendering].
      rewrite toLowerCase_plain by (by vm_compute).
      by vm_compute. }
    intros response [-> | ->]; exact Hown.
  - intros message Hplain Hquota.
    unfold Service.generateSpeech, rethrown, Service.handleGeminiError.
    cbn [rendering]. rewrite toLowerCase_plain by done.
    apply (includes_fmap asciiLower) in Hquota.
    change (asciiLower <$> js "RESOURCE_EXHAUSTED")
      with (js "resource_exhausted") in Hquota.
    by rewrite Hquota, orb_true_r.
Qed.

End ServiceFacts.

Lemma generateSpeech_rejections_witness :
  let toLowerCase := fmap (M := list) Service.asciiLower in
  Service.generateSpeech toLowerCase (Exn.Resolved None)
  = Some (Exn.Rejected
            (Exn.ErrorObject
               (JsString.js "음성 생성에 실패했습니다. 잠시 후 다시 시도해주세요.")))
  ∧ Service.generateSpeech toLowerCase
      (Exn.Rejected
         (Exn.ErrorObject (JsString.js "got status: 429 RESOURCE_EXHAUSTED")))
    = Some (Exn.Rejected
              (Exn.ErrorObject
                 (JsString.js "API 사용 할당량을 초과했습니다. 잠시 후 다시 시도하거나 API 요금제를 확인해주세요."))).
Proof.
  intros toLowerCase.
  destruct (generateSpeech_rejections toLowerCase) as (_ & Hnone & Hquota).
  { intros s _. reflexivity. }
  split.
  - apply Hnone. by left.
  - apply Hquota; by vm_compute.
Defined.

Section ServiceAndPlayback.
Import JsString Exn Codec Playback.

Variable toLowerCase : jsstring → jsstring.
Variable platformMessage : ErrorName → jsstring.

Local Abbreviation handlePlayAudio := (handlePlayAudio platformMessage).
Local Abbreviation handlePlayAudio_resume := (handlePlayAudio_resume platformMessage).
Local Abbreviation step := (step platformMessage).

(** X23. What a click on the play button leaves however the speech
    request settles. From rest without cached audio the click issues the
    request. If [generateSpeech] rejects it with the error of
    [handleGeminiError], the error line shows the default message of
    [generateSpeech] or one of the three category messages; if
    [String(error)] throws in [handleGeminiError], the promise is
    rejected with that exception and the error line shows its message,
    or the default of the play handler when it is not an [Error]. After
    a rejection nothing is cached, no node is created, the controller is
    at rest and the download button does nothing. If the request is
    fulfilled, the audio is cached and is not empty, so that the download
    button acts; a valid asset is playing and no error is shown. Either
    way the generating flag is cleared. *)
Theorem speech_request_settled
    (ctx : AudioContext) (prompt : jsstring) (c : Config)
    (response : Outcome (option jsstring)) (thrown : Thrown) :
  rtc step (mounted ctx prompt) c →
  activeAudioSourceRef (player c) = None →
  isGeneratingAudio (player c) = false →
  generatedAudioData (player c) = None →
  let result := Service.generateSpeech toLowerCase response in
  let settled := Service.settles thrown result in
  ∃ p1,
    handlePlayAudio (player c)
    = Await p1 (displayedPrompt (player c)) (voiceSelection (player c))
        handlePlayAudio_resume
    ∧ let p2 := handlePlayAudio_resume settled p1 in
      isGeneratingAudio p2 = false
      ∧ match settled with
        | Rejected _ =>
          (∃ userMessage,
             audioError p2 = Some userMessage
             ∧ match result with
               | Some _ =>
                 userMessage
                 ∈ js "음성 생성에 실패했습니다. 잠시 후 다시 시도해주세요."
                   :: Service.categoryMessages
               | None =>
                 userMessage
                 = messageOr (js "알 수 없는 오류가 발생했습니다.") thrown
               end)
          ∧ generatedAudioData p2 = None
          ∧ handleDownloadAudio p2 = NotStarted
          ∧ sources p2 = sources (player c)
          ∧ idle p2
        | Resolved data =>
          generatedAudioData p2 = Some data
          ∧ handleDownloadAudio p2 ≠ NotStarted
          ∧ (validAsset ctx data →
             playing p2 (length (sources (player c)))
             ∧ audioError p2 = None)
        end.
Proof.
  intros Hrtc Href Hgen Hdata result settled.
  pose proof (reachable_context _ _ _ _ Hrtc) as Hctx.
  destruct (truthful_reachable _ _ _ _ Hrtc) as [Hc Ht].
  destruct (consistent_idle _ c Hc Ht Href) as (_ & Hplay & Hnone).
  unfold Playback.handlePlayAudio at 1. rewrite Href, Hgen.
  cbn [generatedAudioData setAudioError setIsGeneratingAudio].
  rewrite Hdata. eexists. split; [reflexivity|]. cbn zeta.
  split; [reflexivity|].
  assert (∀ reason userMessage,
            audioError (handlePlayAudio_resume (Rejected reason)
                          (setAudioError None
                             (setIsGeneratingAudio true (player c))))
            = Some userMessage →
            generatedAudioData
              (handlePlayAudio_resume (Rejected reason)
                 (setAudioError None (setIsGeneratingAudio true (player c))))
            = None
            ∧ handleDownloadAudio
                (handlePlayAudio_resume (Rejected reason)
                   (setAudioError None
                      (setIsGeneratingAudio true (player c))))
              = NotStarted
            ∧ sources
                (handlePlayAudio_resume (Rejected reason)
                   (setAudioError None
                      (setIsGeneratingAudio true (player c))))
              = sources (player c)
            ∧ idle (handlePlayAudio_resume (Rejected reason)
                      (setAudioError None
                         (setIsGeneratingAudio true (player c)))))
    as Hrejected.
  { intros reason userMessage _. unfold Playback.handlePlayAudio_resume.
    split; [exact Hdata|]. split.
    { unfold handleDownloadAudio. cbn. by rewrite Hdata. }
    split; [reflexivity|]. by split. }
  subst settled. destruct result as [settled|] eqn:Hsettled; cbn [Service.settles].
  2:{ split; [|by eapply Hrejected].
      eexists. split; [|reflexivity]. reflexivity. }
  pose proof (generateSpeech_settled toLowerCase response settled Hsettled)
    as Hshape.
  destruct settled as [data|reason].
  - destruct Hshape as [Hne _]. destruct data as [|c0 data]; [done|].
    unfold Playback.handlePlayAudio_resume.
    assert (∀ q, generatedAudioData q = Some (c0 :: data) →
                 handleDownloadAudio q ≠ NotStarted) as Hdownload.
    { intros q Hq. unfold handleDownloadAudio. rewrite Hq.
      destruct (decode (c0 :: data)); [|done].
      by destruct (Wav.createWavBlob _ _ _ _). }
    destruct (Playback.playDecodedAudio platformMessage (c0 :: data) _)
      as [error|p'] eqn:Hplayed.
    + split; [reflexivity|]. split; [by apply Hdownload|].
      intros Hvalid.
      destruct (playDecodedAudio_valid platformMessage (c0 :: data)
                  (setGeneratedAudioData (Some (c0 :: data))
                     (setAudioError None
                        (setIsGeneratingAudio true (player c)))) ctx)
        as [audioBuffer Hok]; [exact Hctx | exact Hvalid |].
      rewrite Hok in Hplayed. done.
    + apply playDecodedAudio_inr in Hplayed
        as (ctx' & audioBytes & audioBuffer & _ & _ & _ & ->).
      split; [reflexivity|]. split; [by apply Hdownload|].
      intros _. split; [|reflexivity].
      split; [reflexivity|]. split; [reflexivity|].
      unfold live. cbn. rewrite lookup_app_r by lia.
      by rewrite Nat.sub_diag.
  - destruct Hshape as (userMessage & -> & Hin).
    split; [|by eapply Hrejected].
    by exists userMessage.
Qed.

End ServiceAndPlayback.

Lemma speech_request_settled_witness :
  let c := Playback.mounted Codec.baselineContext (JsString.js "calm voice") in
  let toLowerCase := fmap (M := list) Service.asciiLower in
  let platformMessage (name : Exn.ErrorName) : JsString.jsstring :=
    JsString.js "Cannot convert object to primitive value" in
  let thrown := Exn.ErrorObject (platformMessage Exn.TypeError) in
  let settled :=
    Service.settles thrown
      (Service.generateSpeech toLowerCase
         (Exn.Rejected (Exn.NonError None))) in
  settled = Exn.Rejected thrown
  ∧ ∃ p1,
      Playback.handlePlayAudio platformMessage (Playback.player c)
      = Playback.Await p1 (Playback.displayedPrompt (Playback.player c))
          (Playback.voiceSelection (Playback.player c))
          (Playback.handlePlayAudio_resume platformMessage)
      ∧ let p2 := Playback.handlePlayAudio_resume platformMessage settled p1 in
        Playback.isGeneratingAudio p2 = false
        ∧ Playback.audioError p2
          = Some (JsString.js "Cannot convert object to primitive value").
Proof.
  intros c toLowerCase platformMessage thrown settled.
  assert (settled = Exn.Rejected thrown) as Hsettled by reflexivity.
  split; [exact Hsettled|].
  destruct (speech_request_settled toLowerCase platformMessage
              Codec.baselineContext (JsString.js "calm voice") c
              (Exn.Rejected (Exn.NonError None)) thrown)
    as (p1 & Hrun & Hflag & Hcase);
    [apply rtc_refl | reflexivity | reflexivity | reflexivity |].
  exists p1. split; [exact Hrun|]. cbn zeta.
  fold settled in Hflag, Hcase |- *. rewrite Hsettled in *.
  split; [exact Hflag|].
  destruct Hcase as ((userMessage & -> & Hmessage) & _).
  cbn in Hmessage. by rewrite Hmessage.
Defined.
